(** * Flow control components of lab.js: [prepareNested], [Sequence], [Loop], [Parallel]

    A shallow embedding of [flow.js].  Components are JavaScript objects that
    are shared by reference, so they live in a store indexed by object
    identity; every property write and every call on a collaborator that the
    flow components perform is appended, in program order, to a log.  The base
    class [Component] ([./core]), [lodash] and the [Promise] built-ins are not
    part of [flow.js]; they are modelled in the modules [Core], [Lodash] and
    [Promise] below. *)

From Stdlib Require Import QArith Qcanon Qround Qpower Lqa.
From stdpp Require Import gmap strings list fin_maps numbers pretty.
Close Scope Q_scope.
Close Scope Qc_scope.

(** ** JavaScript values *)

(** The values that reach the flow components through options: sample
    counts, flags, time stamps, and the values held by parameter records.
    An object is given by its identity: a value that is an object is a
    reference, and copying the value copies the reference. *)
Inductive jsval :=
| JSundefined
| JSnull
| JSbool (b : bool)
| JSnum (z : Z)
| JSnan
| JSstr (s : string)
| JSobj (o : nat).

#[global] Instance jsval_eq_dec : EqDecision jsval.
Proof. solve_decision. Defined.

(** [ToBoolean]: what [v ? a : b] branches on. *)
Definition truthy (v : jsval) : bool :=
  match v with
  | JSundefined | JSnull | JSnan => false
  | JSbool b => b
  | JSnum z => negb (Z.eqb z 0)
  | JSstr s => negb (String.eqb s "")
  | JSobj _ => true
  end.

(** ** Numbers

    A JavaScript number is an IEEE 754 double.  A finite double is kept
    as the rational it stands for, and every arithmetic result is rounded
    to the nearest double, a tie to the one whose significand is even. *)

Module Double.

(** The nearest integer, a tie to the even one. *)
Definition nearest_even (x : Q) : Z :=
  let f := Qfloor x in
  match (x - inject_Z f ?= 1 # 2)%Q with
  | Lt => f
  | Eq => if Z.even f then f else (f + 1)%Z
  | Gt => (f + 1)%Z
  end.

(** The integer [k] with [2^k <= x < 2^(k+1)], for a positive [x]. *)
Definition magnitude (x : Q) : Z :=
  let d := (Z.log2 (Qnum x) - Z.log2 (Z.pos (Qden x)))%Z in
  if Qle_bool (2 ^ d)%Q x then d else (d - 1)%Z.

(** The exponent of the last place of the doubles next to a positive
    [x]: 53 significant bits, and no exponent below -1074. *)
Definition last_place (x : Q) : Z := (magnitude x - 52) `max` (-1074).

Definition round_positive (x : Q) : Q :=
  (inject_Z (nearest_even (x / 2 ^ last_place x)) * 2 ^ last_place x)%Q.

Definition roundQ (x : Q) : Q :=
  match (x ?= 0)%Q with
  | Lt => (- round_positive (- x))%Q
  | Eq => 0%Q
  | Gt => round_positive x
  end.

(** The double nearest to [q]. *)
Definition round (q : Qc) : Qc := Q2Qc (roundQ q).


End Double.

(** Numbers as [progress] reports them: a finite double or [NaN].  (The
    infinities and the sign of zero are left out: no sum or mean of
    progress values, which lie between 0 and 1, reaches them.) *)
Inductive jsnumber :=
| NaN
| Num (q : Qc).

#[global] Instance jsnumber_eq_dec : EqDecision jsnumber.
Proof. solve_decision. Defined.

(** [a + b]. *)
Definition jsadd (a b : jsnumber) : jsnumber :=
  match a, b with
  | Num x, Num y => Num (Double.round (x + y)%Qc)
  | _, _ => NaN
  end.

(** [a / n] for an array length [n], which is a double as it is. *)
Definition jsdiv_nat (a : jsnumber) (n : nat) : jsnumber :=
  match a, n with
  | Num x, S _ => Num (Double.round (x / Q2Qc (inject_Z (Z.of_nat n)))%Qc)
  | _, _ => NaN
  end.

(** [String(i)] for an array index. *)
Definition String_of_index (i : nat) : string := pretty i.

(** [[a, i].join('_')] for a string [a] and an index [i]. *)
Definition join_underscore (a : string) (i : nat) : string :=
  a +:+ "_" +:+ String_of_index i.

Module Lodash.

(** [_.mean(array)]: the sum divided by the length, [NaN] for an empty
    array. *)
Definition sum (xs : list jsnumber) : jsnumber :=
  foldl jsadd (Num 0%Qc) xs.

Definition mean (xs : list jsnumber) : jsnumber :=
  match xs with
  | [] => NaN
  | _ :: _ => jsdiv_nat (sum xs) (length xs)
  end.

End Lodash.

(** ** Promises

    A promise is described by when and how it settles: [None] never settles,
    [Some (t, o)] settles with outcome [o] at tick [t], counted from the
    turn in which the promise was created.  Promises that settle in the same
    tick are taken in array order. *)

Inductive outcome :=
| Fulfilled
| Rejected (e : string).

#[global] Instance outcome_eq_dec : EqDecision outcome.
Proof. solve_decision. Defined.

Abbreviation promise := (option (nat * outcome)).

(** What a method hands back to its caller. *)
Inductive jsreturn :=
| ret_undefined
| ret_promise (p : promise).

Module Promise.

(** The entry with the least tick, the first of them on a tie. *)
Fixpoint earliest {A} (xs : list (nat * A)) : option (nat * A) :=
  match xs with
  | [] => None
  | x :: rest =>
      match earliest rest with
      | Some y => Some (if y.1 <? x.1 then y else x)
      | None => Some x
      end
  end.

Definition rejections (ps : list promise) : list (nat * string) :=
  omap (λ p : promise, match p with Some (t, Rejected e) => Some (t, e) | _ => None end) ps.

Definition fulfilments (ps : list promise) : list (nat * unit) :=
  omap (λ p : promise, match p with Some (t, Fulfilled) => Some (t, ()) | _ => None end) ps.

Definition settlements (ps : list promise) : list (nat * outcome) :=
  omap id ps.

(** The tick at which the last of [ps] has settled, if all of them do. *)
Fixpoint all_settled_at (ps : list promise) : option nat :=
  match ps with
  | [] => Some 0
  | p :: rest =>
      match p, all_settled_at rest with
      | Some (t, _), Some m => Some (t `max` m)
      | _, _ => None
      end
  end.

(** [Promise.all]: rejects with the first rejection, as soon as it happens;
    otherwise fulfils once every input has fulfilled (at once for [[]]). *)
Definition all (ps : list promise) : promise :=
  match earliest (rejections ps) with
  | Some (t, e) => Some (t, Rejected e)
  | None => (λ t, (t, Fulfilled)) <$> all_settled_at ps
  end.

(** [Promise.race]: settles as the first input to settle does; never for
    [[]]. *)
Definition race (ps : list promise) : promise :=
  earliest (settlements ps).

(** [Promise.any]: fulfils with the first fulfilment; rejects with an
    [AggregateError] once every input has rejected (at once for [[]]). *)
Definition any (ps : list promise) : promise :=
  match earliest (fulfilments ps) with
  | Some (t, _) => Some (t, Fulfilled)
  | None => (λ t, (t, Rejected "AggregateError")) <$> all_settled_at ps
  end.

(** [Promise.allSettled]: fulfils once every input has settled. *)
Definition allSettled (ps : list promise) : promise :=
  (λ t, (t, Fulfilled)) <$> all_settled_at ps.

(** [p.then(f)]: the tick at which [f] is called, if it ever is. *)
Definition then_ (p : promise) : option nat :=
  match p with
  | Some (t, Fulfilled) => Some t
  | _ => None
  end.

(** The promise of an [async] function whose body throws [e] before its
    first [await]. *)
Definition thrown (e : string) : promise := Some (0, Rejected e).

End Promise.

(** ** The object store *)

(** Object identity of a component or of a parameter record. *)
Abbreviation handle := nat.

(** [status] of [./core]. *)
Inductive status :=
| initialized
| prepared
| running
| done.

#[global] Instance status_eq_dec : EqDecision status.
Proof. solve_decision. Defined.

(** Modelled from the spec: the numeric codes behind the ordered status
    values of [./core], which [flow.js] compares with [<] and [===]. *)
Definition status_code (s : status) : Z :=
  match s with
  | initialized => 0
  | prepared => 1
  | running => 2
  | done => 3
  end.

(** A function object used as an event handler: [this.step.bind(this)] of
    the sequence [owner]. *)
Inductive listener :=
| step_bound (owner : handle).

#[global] Instance listener_eq_dec : EqDecision listener.
Proof. solve_decision. Defined.

(** What a task unit does on its own, as far as the flow components can
    observe it: how the futures of its lifecycle calls settle, and when its
    [end] event fires once it has been started. *)
Record task := Task {
  prepare_future : promise;
  run_future : promise;
  end_future : promise;
  end_event : option nat;
}.

(** The state of a component that the flow components read or write:
    [status], [parent], [options.id], a reference to the object held in
    [options.parameters], the listeners subscribed to its events, and the
    progress it reports while it is not done. *)
Record component := Component {
  c_status : status;
  c_parent : option handle;
  c_id : option string;
  c_parameters : handle;
  c_listeners : list (string * option listener);
  c_partial : jsnumber;
  c_task : task;
}.

(** A parameter record, or an object held as a value by one: own
    enumerable keys and their values. *)
Abbreviation bag := (gmap string jsval).

(** What [flow.js] does to the objects around it, as logged: property
    writes, calls of methods of [./core] on a component, calls of the
    template function, of the randomness service and of the console. *)
Inductive action :=
| write_parent (c parent : handle)
| write_id (c : handle) (id : string)
| write_parameters (c b : handle)
| call_prepare (c : handle) (automated : bool)
| call_run (c : handle) (frameTimeStamp frameSynced : jsval)
| call_end (c : handle) (reason frameTimeStamp : jsval)
| call_on (c : handle) (event : string) (l : option listener)
| call_off (c : handle) (event : string) (l : option listener)
| call_waitFor (c : handle) (event : string)
| call_clone (c : handle)
| call_template (p : handle) (i : nat) (loop : handle)
| call_shuffle
| call_sample (n replace : jsval)
| console_warn (msg : string).

#[global] Instance action_eq_dec : EqDecision action.
Proof. solve_decision. Defined.

(** The store: components and parameter records by identity, the log
    (oldest entry first) and the state of the randomness service. *)
Record world := World {
  comps : gmap handle component;
  bags : gmap handle bag;
  log : list action;
  rng : N;
}.

(** The randomness capability [this.random]: a stateful service owned by
    the caller; its state is [rng]. *)
Record Random := {
  random_shuffle : list handle → N → list handle * N;
  random_sample : list handle → jsval → jsval → N → list handle * N;
}.

(** A task that prepares and ends at once and never ends on its own. *)
Definition no_task : task :=
  {| prepare_future := Some (0, Fulfilled); run_future := None;
     end_future := Some (0, Fulfilled); end_event := None |}.

(** A component as its constructor leaves it. *)
Definition blank : component :=
  {| c_status := initialized; c_parent := None; c_id := None; c_parameters := 0;
     c_listeners := []; c_partial := Num 0%Qc; c_task := no_task |}.

(** A reference always points to an object: a handle that the store does
    not map yet stands for a component as its constructor leaves it, and
    objects created later take handles outside the domain of the store. *)
Definition get (w : world) (h : handle) : component :=
  default blank (comps w !! h).

Definition get_bag (w : world) (b : handle) : bag :=
  default ∅ (bags w !! b).

(** Store updates: of one component, of one parameter record, of the log
    and of the state of the randomness service. *)
Definition upd (f : component → component) (h : handle) (w : world) : world :=
  {| comps := <[h := f (get w h)]> (comps w); bags := bags w; log := log w; rng := rng w |}.

Definition put_bag (b : handle) (m : bag) (w : world) : world :=
  {| comps := comps w; bags := <[b := m]> (bags w); log := log w; rng := rng w |}.

Definition emit (a : action) (w : world) : world :=
  {| comps := comps w; bags := bags w; log := log w ++ [a]; rng := rng w |}.

Definition set_rng (r : N) (w : world) : world :=
  {| comps := comps w; bags := bags w; log := log w; rng := r |}.

(** Assignments to a single property of a component. *)
Definition with_status (s : status) (c : component) : component :=
  {| c_status := s; c_parent := c_parent c; c_id := c_id c; c_parameters := c_parameters c;
     c_listeners := c_listeners c; c_partial := c_partial c; c_task := c_task c |}.

Definition with_parent (p : option handle) (c : component) : component :=
  {| c_status := c_status c; c_parent := p; c_id := c_id c; c_parameters := c_parameters c;
     c_listeners := c_listeners c; c_partial := c_partial c; c_task := c_task c |}.

Definition with_id (i : option string) (c : component) : component :=
  {| c_status := c_status c; c_parent := c_parent c; c_id := i; c_parameters := c_parameters c;
     c_listeners := c_listeners c; c_partial := c_partial c; c_task := c_task c |}.

Definition with_parameters (b : handle) (c : component) : component :=
  {| c_status := c_status c; c_parent := c_parent c; c_id := c_id c; c_parameters := b;
     c_listeners := c_listeners c; c_partial := c_partial c; c_task := c_task c |}.

Definition with_listeners (ls : list (string * option listener)) (c : component) : component :=
  {| c_status := c_status c; c_parent := c_parent c; c_id := c_id c; c_parameters := c_parameters c;
     c_listeners := ls; c_partial := c_partial c; c_task := c_task c |}.

(** Property reads and writes that [flow.js] performs itself. *)
Definition status_of (w : world) (h : handle) : status := c_status (get w h).
Definition id_of (w : world) (h : handle) : option string := c_id (get w h).
Definition parent_of (w : world) (h : handle) : option handle := c_parent (get w h).
Definition parameters_of (w : world) (h : handle) : handle := c_parameters (get w h).

Definition set_parent (c p : handle) (w : world) : world :=
  emit (write_parent c p) (upd (with_parent (Some p)) c w).

Definition set_id (c : handle) (i : string) (w : world) : world :=
  emit (write_id c i) (upd (with_id (Some i)) c w).

Definition set_parameters (c b : handle) (w : world) : world :=
  emit (write_parameters c b) (upd (with_parameters b) c w).

(** Run [f] on each element in array order, threading the world, and
    collect the results: [array.map(f)] for an effectful [f]. *)
Fixpoint map_world {A B} (f : A → world → B * world) (xs : list A) (w : world) : list B * world :=
  match xs with
  | [] => ([], w)
  | x :: rest =>
      let '(y, w1) := f x w in
      let '(ys, w2) := map_world f rest w1 in
      (y :: ys, w2)
  end.

(** [array.map((x, i) => f(x, i))], the index counted from [i]. *)
Fixpoint mapi_world {A B} (f : A → nat → world → B * world) (i : nat) (xs : list A) (w : world)
  : list B * world :=
  match xs with
  | [] => ([], w)
  | x :: rest =>
      let '(y, w1) := f x i w in
      let '(ys, w2) := mapi_world f (S i) rest w1 in
      (y :: ys, w2)
  end.

(** [array.forEach((x, i) => f(x, i))], the index counted from [i]. *)
Fixpoint forEachi (f : handle → nat → world → world) (i : nat) (xs : list handle) (w : world) : world :=
  match xs with
  | [] => w
  | x :: rest => forEachi f (S i) rest (f x i w)
  end.

Definition forEach (f : handle → world → world) (xs : list handle) (w : world) : world :=
  forEachi (λ x _, f x) 0 xs w.

(** ** The base class, [./core] *)

Module Core.

(** Modelled from the spec: [prepare(automated)] of a task unit, whose code
    ([./core]) is missing; it returns a future. *)
Definition prepare (c : handle) (automated : bool) (w : world) : promise * world :=
  (prepare_future (c_task (get w c)), emit (call_prepare c automated) w).

(** Modelled from the spec: [run(timestamp, synced)] of a task unit, whose
    code is missing; the unit has status running when the call returns
    its future. *)
Definition run (c : handle) (frameTimeStamp frameSynced : jsval) (w : world) : promise * world :=
  (run_future (c_task (get w c)),
   emit (call_run c frameTimeStamp frameSynced) (upd (with_status running) c w)).

(** Modelled from the spec: [end(reason, timestamp)] of a task unit, whose
    code is missing; the unit has status done when the call returns its
    future. *)
Definition end_ (c : handle) (reason frameTimeStamp : jsval) (w : world) : promise * world :=
  (end_future (c_task (get w c)),
   emit (call_end c reason frameTimeStamp) (upd (with_status done) c w)).

(** Modelled from the spec: subscribing to an event of a task unit, whose
    code is missing. *)
Definition on (c : handle) (event : string) (l : option listener) (w : world) : world :=
  emit (call_on c event l)
       (upd (λ x, with_listeners (c_listeners x ++ [(event, l)]) x) c w).

(** Modelled from the spec: unsubscribing from an event of a task unit,
    whose code is missing. *)
Definition off (c : handle) (event : string) (l : option listener) (w : world) : world :=
  emit (call_off c event l)
       (upd (λ x, with_listeners (filter (λ s, s ≠ (event, l)) (c_listeners x)) x) c w).

(** Modelled from the spec: the future-returning wait for an event of a
    task unit, whose code is missing; it never rejects. *)
Definition waitFor (c : handle) (event : string) (w : world) : promise * world :=
  ((λ t, (t, Fulfilled)) <$> end_event (c_task (get w c)), emit (call_waitFor c event) w).

(** Modelled from the spec: the progress accessor of a task unit, whose
    code is missing: 1 once it has run to completion, its own report
    (0 for a unit not yet run) before. *)
Definition progress (w : world) (c : handle) : jsnumber :=
  if decide (status_of w c = done) then Num 1%Qc else c_partial (get w c).

(** Modelled from the spec: [clone()] of a task unit, whose code is
    missing: an independent copy, a new object with a new parameter bag
    that holds the keys of the original. *)
Definition clone (c : handle) (w : world) : handle * world :=
  let b := fresh (dom (bags w)) in
  let h := fresh (dom (comps w)) in
  let copy :=
    {| c_status := initialized; c_parent := None; c_id := c_id (get w c);
       c_parameters := b; c_listeners := []; c_partial := c_partial (get w c);
       c_task := c_task (get w c) |} in
  (h, emit (call_clone c)
        {| comps := <[h := copy]> (comps w);
           bags := <[b := get_bag w (parameters_of w c)]> (bags w);
           log := log w; rng := rng w |}).

(** Modelled from the spec: the status that a lifecycle method of
    [./core], whose code is missing, gives a component before it calls the
    hook of the same name ([run] before [onRun]). *)
Definition mark (s : status) (c : handle) (w : world) : world :=
  upd (with_status s) c w.

(** Modelled from the spec: what a unit that has been run does by itself
    until tick [T]: it has status done once its [end] event has fired. *)
Definition elapse (T : nat) (c : handle) (w : world) : world :=
  match end_event (c_task (get w c)) with
  | Some t => if decide (t ≤ T) then mark done c w else w
  | None => w
  end.

End Core.

(** ** Options *)

(** [Loop]'s [template] option, by the two tests [Loop.onPrepare] applies
    to it: [instanceof Component], then [isFunction].  A function [f] is
    called as [f p i loop w], with a parameter record, its index, the loop
    and the store before the call; it returns a component and the store
    after the call. *)
Inductive template :=
| Prototype (t : handle)
| Factory (f : handle → nat → handle → world → handle * world)
| Invalid (v : jsval).

(** [Loop]'s [sample] option; a key that is absent reads as [undefined]. *)
Record sample_spec := {
  sample_n : jsval;
  sample_replace : jsval;
}.

(** [Parallel]'s [mode] option names the static method of [Promise] that
    joins the children's [end] events. *)
Inductive mode :=
| mode_all
| mode_race
| mode_any
| mode_allSettled.

Definition Promise_static (m : mode) : list promise → promise :=
  match m with
  | mode_all => Promise.all
  | mode_race => Promise.race
  | mode_any => Promise.any
  | mode_allSettled => Promise.allSettled
  end.

(** The object literal passed to a constructor; [None] is a key that the
    caller left out. *)
Record options := {
  o_content : option (list handle);
  o_shuffle : option bool;
  o_template : option template;
  o_templateParameters : option (list handle);
  o_sample : option sample_spec;
  o_mode : option mode;
}.

Definition no_options : options :=
  {| o_content := None; o_shuffle := None; o_template := None;
     o_templateParameters := None; o_sample := None; o_mode := None |}.

(** ** [prepareNested] *)

Definition prepareNested (nested : list handle) (parent : handle) (w : world) : promise * world :=
  (* Setup parent links on nested components *)
  let w1 := forEach (λ c, set_parent c parent) nested w in
  (* Set ids on nested components *)
  let w2 :=
    forEachi (λ c i w,
      match id_of w parent with
      | None => set_id c (String_of_index i) w
      | Some a => set_id c (join_underscore a i) w
      end) 0 nested w1 in
  (* Trigger prepare on all nested components *)
  let '(ps, w3) := map_world (λ c, Core.prepare c false) nested w2 in
  (Promise.all ps, w3).

(** ** [Sequence] *)

(** [array.entries()]: the array it walks (dropped once it is exhausted)
    and the next index. *)
Record ArrayIterator := {
  it_array : option (list handle);
  it_next : nat;
}.

Definition entries (a : list handle) : ArrayIterator :=
  {| it_array := Some a; it_next := 0 |}.

(** [iterator.next()]: [None] is [{done: true}], [Some (i, c)] is
    [{value: [i, c], done: false}]. *)
Definition next (it : ArrayIterator) : option (nat * handle) * ArrayIterator :=
  match it_array it with
  | None => (None, it)
  | Some a =>
      match a !! it_next it with
      | Some c => (Some (it_next it, c), {| it_array := Some a; it_next := S (it_next it) |})
      | None => (None, {| it_array := None; it_next := it_next it |})
      end
  end.

Module Sequence.

Record t := Make {
  self : handle;
  random : Random;
  content : list handle;
  shuffle : bool;
  currentComponent : option handle;
  currentPosition : option nat;
  iterator : option ArrayIterator;
  stepper : option listener;
}.

Definition new (self : handle) (random : Random) (o : options) : t :=
  {| self := self; random := random;
     content := default [] (o_content o);
     shuffle := default false (o_shuffle o);
     currentComponent := None; currentPosition := None;
     iterator := None; stepper := None |}.

Definition onPrepare (s : t) (w : world) : jsreturn * t * world :=
  (* Shuffle content, if requested *)
  let '(content1, w1) :=
    if shuffle s then
      let '(c, r) := random_shuffle (random s) (content s) (rng w) in
      (c, set_rng r (emit call_shuffle w))
    else (content s, w) in
  (* Define an iterator over the content *)
  let s1 :=
    {| self := self s; random := random s; content := content1; shuffle := shuffle s;
       currentComponent := currentComponent s; currentPosition := currentPosition s;
       iterator := Some (entries content1);
       stepper := Some (step_bound (self s)) |} in
  (* Prepare nested items *)
  let '(p, w2) := prepareNested content1 (self s) w1 in
  (ret_promise p, s1, w2).

Definition step (s : t) (frameTimeStamp frameSynced : jsval) (w : world) : promise * t * world :=
  if decide (status_of w (self s) = done) then
    (Promise.thrown "Sequence ended, can't take any more steps", s, w)
  else
    match iterator s with
    | None => (Promise.thrown "TypeError", s, w)
    | Some it =>
        (* Move through the content *)
        let '(nxt, it1) := next it in
        match nxt with
        | None =>
            let '(p, w1) := Core.end_ (self s) (JSstr "completion") frameTimeStamp w in
            (p,
             {| self := self s; random := random s; content := content s; shuffle := shuffle s;
                currentComponent := currentComponent s; currentPosition := currentPosition s;
                iterator := Some it1; stepper := stepper s |},
             w1)
        | Some (i, c) =>
            let w1 := Core.on c "after:end" (stepper s) w in
            let '(p, w2) := Core.run c frameTimeStamp frameSynced w1 in
            (p,
             {| self := self s; random := random s; content := content s; shuffle := shuffle s;
                currentComponent := Some c; currentPosition := Some i;
                iterator := Some it1; stepper := stepper s |},
             w2)
        end
    end.

Definition onRun (s : t) (frameTimeStamp : jsval) (w : world) : promise * t * world :=
  (* Make the first step *)
  step s frameTimeStamp JSundefined w.

Definition onEnd (s : t) (w : world) : world :=
  (* End prematurely, if necessary *)
  match currentComponent s with
  | Some c =>
      if decide (status_of w c ≠ done) then
        let w1 := Core.off c "after:end" (stepper s) w in
        snd (Core.end_ c (JSstr "abort by sequence") JSundefined w1)
      else w
  | None => w
  end.

Definition progress (s : t) (w : world) : jsnumber :=
  if decide (status_of w (self s) = done) then Num 1%Qc
  else Lodash.mean (Core.progress w <$> content s).

End Sequence.

(** ** [Loop] *)

Module Loop.

Record t := Make {
  base : Sequence.t;
  template : template;
  templateParameters : list handle;
  sample : sample_spec;
}.

Definition new (self : handle) (random : Random) (o : options) : t :=
  {| base := Sequence.new self random o;
     template := default (Invalid JSnull) (o_template o);
     templateParameters := default [] (o_templateParameters o);
     sample := default {| sample_n := JSundefined; sample_replace := JSbool false |} (o_sample o) |}.

Definition content (l : t) : list handle := Sequence.content (base l).
Definition self (l : t) : handle := Sequence.self (base l).

Definition with_content (cs : list handle) (l : t) : t :=
  let s := base l in
  {| base :=
       {| Sequence.self := Sequence.self s; Sequence.random := Sequence.random s;
          Sequence.content := cs; Sequence.shuffle := Sequence.shuffle s;
          Sequence.currentComponent := Sequence.currentComponent s;
          Sequence.currentPosition := Sequence.currentPosition s;
          Sequence.iterator := Sequence.iterator s; Sequence.stepper := Sequence.stepper s |};
     template := template l; templateParameters := templateParameters l; sample := sample l |}.

Definition with_base (s : Sequence.t) (l : t) : t :=
  {| base := s; template := template l; templateParameters := templateParameters l;
     sample := sample l |}.

(** Sample parameters to make room for repetitions and subsampling. *)
Definition effective_parameters (l : t) (w : world) : list handle * world :=
  if truthy (sample_n (sample l)) then
    let '(ps, r) :=
      random_sample (Sequence.random (base l)) (templateParameters l)
                    (sample_n (sample l)) (sample_replace (sample l)) (rng w) in
    (ps, set_rng r (emit (call_sample (sample_n (sample l)) (sample_replace (sample l))) w))
  else (templateParameters l, w).

(** The body of the first [map]: clone the template and extend the
    clone's parameters by [p].  The object literal
    [{...c.options.parameters, ...p}] is a new object [b]; where both
    have a key, the value of [p] wins. *)
Definition instantiate (t : handle) (p : handle) (w : world) : handle * world :=
  let '(c, w1) := Core.clone t w in
  let b := fresh (dom (bags w1)) in
  let w2 := put_bag b (get_bag w1 p ∪ get_bag w1 (parameters_of w1 c)) w1 in
  (c, set_parameters c b w2).

(** Generate the content from the template and the parameters [ps]. *)
Definition generate (l : t) (ps : list handle) (w : world) : t * world :=
  match template l with
  | Prototype t =>
      let '(cs, w1) := map_world (instantiate t) ps w in
      (with_content cs l, w1)
  | Factory f =>
      let '(cs, w1) :=
        mapi_world (λ p i w, f p i (self l) (emit (call_template p i (self l)) w)) 0 ps w in
      (with_content cs l, w1)
  | Invalid _ =>
      (l, emit (console_warn "Missing or invalid template in loop, no content generated") w)
  end.

Definition onPrepare (l : t) (w : world) : jsreturn * t * world :=
  let '(ps, w1) := effective_parameters l w in
  let '(l1, w2) := generate l ps w1 in
  let '(r, s, w3) := Sequence.onPrepare (base l1) w2 in
  (r, with_base s l1, w3).

End Loop.

(** ** [Parallel] *)

Module Parallel.

Record t := Make {
  self : handle;
  content : list handle;
  mode : mode;
}.

Definition new (self : handle) (o : options) : t :=
  {| self := self;
     content := default [] (o_content o);
     mode := default mode_race (o_mode o) |}.

Definition onPrepare (p : t) (w : world) : jsreturn * world :=
  let '(_, w1) := prepareNested (content p) (self p) w in
  (ret_undefined, w1).

Definition onEnd (p : t) (w : world) : world :=
  (* Cancel remaining running nested components *)
  forEach (λ c w,
    if decide (status_code (status_of w c) < status_code done)%Z then
      snd (Core.end_ c (JSstr "abort by parallel") JSundefined w)
    else w) (content p) w.

(** The callback handed to [then] in [onRun]: [() => this.end()]. *)
Definition watcher (p : t) (w : world) : promise * world :=
  Core.end_ (self p) JSundefined JSundefined w.

(** [onRun] returns the future of the children's [run] calls; the second
    component is the tick at which [watcher] is called, if it ever is. *)
Definition onRun (p : t) (frameTimeStamp : jsval) (w : world) : jsreturn * option nat * world :=
  (* End this component when all nested components, or a single component, have ended *)
  let '(waits, w1) := map_world (λ c, Core.waitFor c "end") (content p) w in
  let fires := Promise.then_ (Promise_static (mode p) waits) in
  (* Run all nested components simultaneously *)
  let '(runs, w2) := map_world (λ c, Core.run c frameTimeStamp JSundefined) (content p) w1 in
  (ret_promise (Promise.all runs), fires, w2).

(** Modelled from the spec: the store at tick [T] after [onRun] was
    called in [w].  Until the promise that joins the children's [end]
    events has fulfilled, the store is as [onRun] left it, but for the
    children that have ended by themselves.  At the tick [F] at which it
    fulfils, [watcher] is called and finds the children as they are at
    that tick, and [end], which is [./core]'s, calls the hook [onEnd];
    nothing happens after that. *)
Definition at_tick (p : t) (frameTimeStamp : jsval) (T : nat) (w : world) : world :=
  let '(_, fires, w1) := onRun p frameTimeStamp w in
  match fires with
  | Some F =>
      if decide (F ≤ T)
      then onEnd p (watcher p (forEach (Core.elapse F) (content p) w1)).2
      else forEach (Core.elapse T) (content p) w1
  | None => forEach (Core.elapse T) (content p) w1
  end.

Definition progress (p : t) (w : world) : jsnumber :=
  if decide (status_of w (self p) = done) then Num 1%Qc
  else Lodash.mean (Core.progress w <$> content p).

End Parallel.

(** ** Notions used in the statements *)

(** Call [step] once per entry of [calls], one after the other. *)
Fixpoint steps (calls : list (jsval * jsval)) (s : Sequence.t) (w : world)
  : list promise * Sequence.t * world :=
  match calls with
  | [] => ([], s, w)
  | (ts, synced) :: rest =>
      let '(p, s1, w1) := Sequence.step s ts synced w in
      let '(ps, s2, w2) := steps rest s1 w1 in
      (p :: ps, s2, w2)
  end.

(** The identifier scheme in the words of the specification: the child
    at index [i] of a parent without identifier is named by the decimal
    digits of [i], the child of a parent with identifier [a] is named [a],
    an underscore, and the digits of [i]. *)
Definition child_id (pid : option string) (i : nat) : string :=
  match pid with
  | None => pretty i
  | Some a => a +:+ "_" +:+ pretty i
  end.

(** The tick at which the [end] event of [c] fires on its own, if ever. *)
Definition ends_at (w : world) (c : handle) : option nat :=
  end_event (c_task (get w c)).

(** Whether the [end] event of [c] has fired by tick [T]. *)
Definition fired (T : nat) (w : world) (c : handle) : Prop :=
  ∃ t, ends_at w c = Some t ∧ t ≤ T.

#[global] Instance fired_dec T w c : Decision (fired T w c).
Proof.
  unfold fired. destruct (ends_at w c) as [t|].
  - destruct (decide (t ≤ T)) as [Hle|Hgt].
    + left. by exists t.
    + right. intros (t' & [= <-] & Hle). lia.
  - right. by intros (t' & [=] & _).
Defined.

(** The call by which [Parallel.onEnd] cancels the child [c]. *)
Definition abort_by_parallel (c : handle) : action :=
  call_end c (JSstr "abort by parallel") JSundefined.

(** The number [n] of an array length as a rational, and the exact sum of
    a list of rationals. *)
Definition Qc_of_nat (n : nat) : Qc := Q2Qc (inject_Z (Z.of_nat n)).


(** A progress value in [0, 1]. *)
Definition unit_interval (x : jsnumber) : Prop :=
  ∃ q, x = Num q ∧ (0 ≤ q)%Qc ∧ (q ≤ 1)%Qc.

(** The sum of a list of doubles in the words of [_.sum]: added from the
    left, each addition rounded to the nearest double. *)
Definition float_total (qs : list Qc) : Qc :=
  foldl (λ a q, Double.round (a + q)%Qc) 0%Qc qs.



(** A randomness service whose [shuffle] returns a permutation of its
    argument. *)
Definition lawful_shuffle (r : Random) : Prop :=
  ∀ l s, (random_shuffle r l s).1 ≡ₚ l.

(** The world after the factory [f] of the loop [loop] has been called,
    in order, for the parameters of [ps] at the indices below [k]. *)
Fixpoint after_calls (f : handle → nat → handle → world → handle * world) (loop : handle)
    (ps : list handle) (k : nat) (w : world) : world :=
  match k with
  | 0 => w
  | S k' =>
      let w' := after_calls f loop ps k' w in
      match ps !! k' with
      | Some p => (f p k' loop (emit (call_template p k' loop) w')).2
      | None => w'
      end
  end.




(** ** Sample worlds *)

(** A randomness service with a fixed behaviour: [shuffle] reverses,
    [sample] keeps the first record; each call advances the state. *)
Definition fixed_random : Random :=
  {| random_shuffle := λ l r, (reverse l, (r + 1)%N);
     random_sample := λ l _ _ r, (take 1 l, (r + 1)%N) |}.

Definition empty_world : world :=
  {| comps := ∅; bags := ∅; log := []; rng := 0%N |}.

(** A sequence (object 0) over a single task (object 1): prepared, then
    run, then the task ends on its own, and the sequence has not yet
    been stepped by the task's [after:end] event. *)
Definition lone_sequence : Sequence.t :=
  Sequence.new 0 fixed_random
    {| o_content := Some [1]; o_shuffle := None; o_template := None;
       o_templateParameters := None; o_sample := None; o_mode := None |}.

Definition lone_prepared : Sequence.t * world :=
  let '(_, s, w) := Sequence.onPrepare lone_sequence empty_world in (s, w).

Definition lone_running : Sequence.t * world :=
  let '(_, s, w) :=
    Sequence.onRun lone_prepared.1 (JSnum 0) (Core.mark running 0 lone_prepared.2) in
  (s, w).





(** A task (object 1) whose [prepare] rejects, as the only child of a
    container (object 0). *)
Definition failing_task : task :=
  {| prepare_future := Some (0, Rejected "prepare failed"); run_future := None;
     end_future := Some (0, Fulfilled); end_event := None |}.

Definition failing_world : world :=
  {| comps :=
       {[ 1 := {| c_status := initialized; c_parent := None; c_id := None;
                  c_parameters := 0; c_listeners := []; c_partial := Num 0%Qc;
                  c_task := failing_task |} ]};
     bags := ∅; log := []; rng := 0%N |}.

Definition only_child : options :=
  {| o_content := Some [1]; o_shuffle := None; o_template := None;
     o_templateParameters := None; o_sample := None; o_mode := None |}.

(** A parallel (object 0) over three tasks whose [end] events fire at
    ticks 5, 2 and 9. *)
Definition ending_at (t : nat) : component :=
  {| c_status := running; c_parent := None; c_id := None; c_parameters := 0;
     c_listeners := []; c_partial := Num 0%Qc;
     c_task := {| prepare_future := Some (0, Fulfilled); run_future := None;
                  end_future := Some (0, Fulfilled); end_event := Some t |} |}.

Definition trio_world : world :=
  {| comps := {[ 1 := ending_at 5; 2 := ending_at 2; 3 := ending_at 9 ]};
     bags := ∅; log := []; rng := 0%N |}.

Definition trio (m : mode) : Parallel.t :=
  Parallel.new 0
    {| o_content := Some [1; 2; 3]; o_shuffle := None; o_template := None;
       o_templateParameters := None; o_sample := None; o_mode := Some m |}.

(** A loop (object 0) without a template, constructed with and without
    an explicit [content] option. *)
Definition bare_loop : Loop.t := Loop.new 0 fixed_random no_options.

Definition stuffed_loop : Loop.t := Loop.new 0 fixed_random only_child.

(** A loop over three parameter records (objects 10, 11, 12) with a
    configured sample count of 0 and a factory that hands out the
    objects 20, 21, 22. *)
Definition counting_factory (p : handle) (i : nat) (loop : handle) (w : world) : handle * world :=
  (20 + i, w).

Definition zero_sample_loop : Loop.t :=
  Loop.new 0 fixed_random
    {| o_content := None; o_shuffle := None;
       o_template := Some (Factory counting_factory);
       o_templateParameters := Some [10; 11; 12];
       o_sample := Some {| sample_n := JSnum 0; sample_replace := JSbool false |};
       o_mode := None |}.

(** A parent (object 0) with identifier "P" and three children. *)
Definition named_world : world :=
  {| comps :=
       {[ 0 := {| c_status := initialized; c_parent := None; c_id := Some "P";
                  c_parameters := 0; c_listeners := []; c_partial := Num 0%Qc;
                  c_task := no_task |} ]};
     bags := ∅; log := []; rng := 0%N |}.

(** A prototype (object 5) with parameters [{a: 0, b: 7}] (object 6) and
    the parameter records [{a: 1}] (object 10) and [{a: 2}] (object 11). *)
Definition prototype_world : world :=
  {| comps :=
       {[ 5 := {| c_status := initialized; c_parent := None; c_id := None;
                  c_parameters := 6; c_listeners := []; c_partial := Num 0%Qc;
                  c_task := no_task |} ]};
     bags := {[ 6 := {[ "a" := JSnum 0; "b" := JSnum 7 ]};
                10 := {[ "a" := JSnum 1 ]};
                11 := {[ "a" := JSnum 2 ]} ]};
     log := []; rng := 0%N |}.




(** ** Notions used in the further properties *)

(** The calls that one [step] makes on the child [c] it moves to, for the
    arguments [call] of that step. *)
Definition visit (st : option listener) (c : handle) (call : jsval * jsval) : list action :=
  [call_on c "after:end" st; call_run c call.1 call.2].

(** A sequence (object 0) over two tasks, prepared and marked running. *)
Definition pair_sequence : Sequence.t :=
  Sequence.new 0 fixed_random
    {| o_content := Some [1; 2]; o_shuffle := None; o_template := None;
       o_templateParameters := None; o_sample := None; o_mode := None |}.

Definition pair_prepared : Sequence.t * world :=
  let '(_, s, w) := Sequence.onPrepare pair_sequence empty_world in
  (s, Core.mark running 0 w).

(** The state of a component apart from its parent link and its
    identifier. *)
Definition rest_of (c : component) : component :=
  with_id None (with_parent None c).

(** The order in which a sequence takes its content: as configured, or
    as the randomness service shuffles it. *)
Definition running_order (s : Sequence.t) (w : world) : list handle :=
  if Sequence.shuffle s
  then (random_shuffle (Sequence.random s) (Sequence.content s) (rng w)).1
  else Sequence.content s.

(** A sequence (object 0) that shuffles its three tasks. *)
Definition shuffled_sequence : Sequence.t :=
  Sequence.new 0 fixed_random
    {| o_content := Some [1; 2; 3]; o_shuffle := Some true; o_template := None;
       o_templateParameters := None; o_sample := None; o_mode := None |}.

(** How often [prepare(false)] is called on [c] in a log, and how often
    [c] occurs in a list. *)
Definition prepare_calls (c : handle) (l : list action) : nat :=
  length (filter (λ a, a = call_prepare c false) l).

Definition occurrences (c : handle) (l : list handle) : nat :=
  length (filter (λ x, x = c) l).

(** What the randomness service returns for the sample that the loop [l]
    asks for in the world [w]. *)
Definition sampled (l : Loop.t) (w : world) : list handle :=
  (random_sample (Sequence.random (Loop.base l)) (Loop.templateParameters l)
     (sample_n (Loop.sample l)) (sample_replace (Loop.sample l)) (rng w)).1.

(** A loop over three parameter records that asks for a sample of one. *)
Definition sampling_loop : Loop.t :=
  Loop.new 0 fixed_random
    {| o_content := None; o_shuffle := None;
       o_template := Some (Factory counting_factory);
       o_templateParameters := Some [10; 11; 12];
       o_sample := Some {| sample_n := JSnum 1; sample_replace := JSbool false |};
       o_mode := None |}.

(** A parallel constructed without any option. *)
Definition bare_parallel : Parallel.t := Parallel.new 0 no_options.

(** How many of the components [cs] are done. *)
Definition finished (w : world) (cs : list handle) : nat :=
  length (filter (λ c, status_of w c = done) cs).

(** The three tasks of [trio_world], after the second has ended. *)
Definition trio_second_ended : world :=
  (Core.end_ 2 JSundefined JSundefined trio_world).2.

(** The prototype loop of [prototype_loop] as an object of the store. *)
Definition prototype_world_with_loop : world :=
  {| comps := <[0 := {| c_status := initialized; c_parent := None; c_id := Some "L";
                        c_parameters := 0; c_listeners := []; c_partial := Num 0%Qc;
                        c_task := no_task |}]> (comps prototype_world);
     bags := bags prototype_world; log := []; rng := 0%N |}.

(** Whether an entry of the log is a call of the randomness service. *)
Definition is_random_call (a : action) : bool :=
  match a with
  | call_shuffle | call_sample _ _ => true
  | _ => false
  end.

(** The calls of the randomness service in a log, in their order. *)
Definition random_calls (l : list action) : list action :=
  filter (λ a, is_random_call a = true) l.

(** A loop over a prototype that samples and shuffles. *)
Definition sampling_shuffling_loop : Loop.t :=
  Loop.new 0 fixed_random
    {| o_content := None; o_shuffle := Some true;
       o_template := Some (Prototype 5);
       o_templateParameters := Some [10; 11];
       o_sample := Some {| sample_n := JSnum 1; sample_replace := JSbool false |};
       o_mode := None |}.
(** * Properties *)

#[local] Set Warnings "-clear-no-such-hyp".

(** ** Rounding to the nearest double *)

#[local] Open Scope Q_scope.

Lemma pow2_pos (z : Z) : 0 < 2 ^ z.
Proof. by apply Qpower_0_lt. Qed.

Lemma pow2_le (n m : Z) : (n <= m)%Z -> 2 ^ n <= 2 ^ m.
Proof. intros H. by apply Qpower_le_compat_l. Qed.

Lemma pow2_lt_inv (n m : Z) : 2 ^ n < 2 ^ m -> (n < m)%Z.
Proof. intros H. by apply (Qpower_lt_compat_l_inv 2). Qed.

Lemma pow2_succ (z : Z) : 2 ^ (z + 1) == 2 * 2 ^ z.
Proof. rewrite Qpower_plus by done. rewrite Qmult_comm. reflexivity. Qed.

Lemma pow2_Z (z : Z) : (0 <= z)%Z -> inject_Z (2 ^ z) == 2 ^ z.
Proof. intros H. by rewrite Zpower_Qpower. Qed.

Lemma magnitude_bounds (x : Q) :
  0 < x -> 2 ^ Double.magnitude x <= x /\ x < 2 ^ (Double.magnitude x + 1).
Proof.
  intros Hx. destruct x as [a b]. unfold Double.magnitude. cbn [Qnum Qden].
  assert (Ha : (0 < a)%Z).
  { unfold Qlt in Hx. cbn in Hx. lia. }
  pose proof (Z.log2_spec a Ha) as [Ha1 Ha2].
  pose proof (Z.log2_spec (Z.pos b) ltac:(done)) as [Hb1 Hb2].
  pose proof (Z.log2_nonneg a) as Hla. pose proof (Z.log2_nonneg (Z.pos b)) as Hlb.
  set (la := Z.log2 a) in *. set (lb := Z.log2 (Z.pos b)) in *.
  assert (HA1 : 2 ^ la <= inject_Z a).
  { rewrite <- pow2_Z by done. by rewrite <- Zle_Qle. }
  assert (HA2 : inject_Z a < 2 * 2 ^ la).
  { rewrite <- pow2_succ, <- pow2_Z by lia. by rewrite <- Zlt_Qlt. }
  assert (HB1 : 2 ^ lb <= inject_Z (Z.pos b)).
  { rewrite <- pow2_Z by done. by rewrite <- Zle_Qle. }
  assert (HB2 : inject_Z (Z.pos b) < 2 * 2 ^ lb).
  { rewrite <- pow2_succ, <- pow2_Z by lia. by rewrite <- Zlt_Qlt. }
  pose proof (pow2_pos la) as Hpa. pose proof (pow2_pos lb) as Hpb.
  assert (Hx' : a # b == inject_Z a / inject_Z (Z.pos b)) by apply Qmake_Qdiv.
  assert (Hbpos : 0 < inject_Z (Z.pos b)) by (by apply Qlt_le_trans with (2 ^ lb)).
  assert (Hd : 2 ^ (la - lb) == 2 ^ la / 2 ^ lb) by (by apply Qpower_minus).
  assert (Hs : 2 ^ la == 2 * 2 ^ (la - lb - 1) * 2 ^ lb).
  { rewrite <- pow2_succ, <- Qpower_plus by done. by replace (la - lb - 1 + 1 + lb)%Z with la by lia. }
  assert (Hs' : 2 ^ (la - lb + 1) * 2 ^ lb == 2 * 2 ^ la).
  { rewrite <- pow2_succ, <- Qpower_plus by done. by replace (la - lb + 1 + lb)%Z with (la + 1)%Z by lia. }
  pose proof (pow2_pos (la - lb - 1)) as Hp1. pose proof (pow2_pos (la - lb + 1)) as Hp2.
  assert (Hlow : 2 ^ (la - lb - 1) < a # b).
  { rewrite Hx'. apply Qlt_shift_div_l; [done|].
    set (P := 2 ^ (la - lb - 1)) in *. set (L := 2 ^ lb) in *. set (PA := 2 ^ la) in *.
    set (A := inject_Z a) in *. set (B := inject_Z (Z.pos b)) in *. nra. }
  assert (Hhigh : a # b < 2 ^ (la - lb + 1)).
  { rewrite Hx'. apply Qlt_shift_div_r; [done|].
    set (P := 2 ^ (la - lb + 1)) in *. set (L := 2 ^ lb) in *. set (PA := 2 ^ la) in *.
    set (A := inject_Z a) in *. set (B := inject_Z (Z.pos b)) in *. nra. }
  destruct (Qle_bool (2 ^ (la - lb)) (a # b)) eqn:Hle.
  - apply Qle_bool_iff in Hle. done.
  - assert (Hlt : a # b < 2 ^ (la - lb)).
    { apply Qnot_le_lt. intros H. apply Qle_bool_iff in H. congruence. }
    split; [by apply Qlt_le_weak|]. by replace (la - lb - 1 + 1)%Z with (la - lb)%Z by lia.
Qed.

Lemma magnitude_unique (x : Q) (k : Z) :
  2 ^ k <= x -> x < 2 ^ (k + 1) -> Double.magnitude x = k.
Proof.
  intros H1 H2.
  assert (Hx : 0 < x) by (apply Qlt_le_trans with (2 ^ k); [apply pow2_pos|done]).
  destruct (magnitude_bounds x Hx) as [H3 H4].
  assert (k < Double.magnitude x + 1)%Z
    by (apply pow2_lt_inv; by apply Qle_lt_trans with x).
  assert (Double.magnitude x < k + 1)%Z
    by (apply pow2_lt_inv; by apply Qle_lt_trans with x).
  lia.
Qed.

Lemma magnitude_le (x y : Q) :
  0 < x -> x <= y -> (Double.magnitude x <= Double.magnitude y)%Z.
Proof.
  intros Hx Hxy.
  destruct (magnitude_bounds x Hx) as [H1 _].
  destruct (magnitude_bounds y (Qlt_le_trans _ _ _ Hx Hxy)) as [_ H2].
  assert (Double.magnitude x < Double.magnitude y + 1)%Z; [|lia].
  apply pow2_lt_inv. apply Qle_lt_trans with x; [done|]. by apply Qle_lt_trans with y.
Qed.

Lemma nearest_even_floor (x : Q) :
  (Qfloor x <= Double.nearest_even x <= Qfloor x + 1)%Z.
Proof.
  unfold Double.nearest_even. cbn zeta.
  destruct (x - inject_Z (Qfloor x) ?= 1 # 2); [destruct (Z.even _)| |]; lia.
Qed.

Lemma nearest_even_le (x y : Q) :
  x <= y -> (Double.nearest_even x <= Double.nearest_even y)%Z.
Proof.
  intros Hxy. pose proof (Qfloor_resp_le x y Hxy) as Hf.
  pose proof (nearest_even_floor x) as Hx. pose proof (nearest_even_floor y) as Hy.
  destruct (Z.eq_dec (Qfloor x) (Qfloor y)) as [Heq|Hne]; [|lia].
  unfold Double.nearest_even. cbn zeta. rewrite <- Heq.
  destruct (x - inject_Z (Qfloor x) ?= 1 # 2) eqn:Hcx;
    destruct (y - inject_Z (Qfloor x) ?= 1 # 2) eqn:Hcy;
    try (destruct (Z.even (Qfloor x)); lia); try lia.
  - apply Qeq_alt in Hcx. apply Qlt_alt in Hcy. lra.
  - apply Qgt_alt in Hcx. apply Qeq_alt in Hcy. lra.
  - apply Qgt_alt in Hcx. apply Qlt_alt in Hcy. lra.
Qed.

Lemma nearest_even_Z (x : Q) (z : Z) : x == inject_Z z -> Double.nearest_even x = z.
Proof.
  intros Hx. unfold Double.nearest_even. cbn zeta.
  assert (Hf : Qfloor x = z) by (rewrite Hx; apply Qfloor_Z).
  rewrite Hf.
  assert (Hc : (x - inject_Z z ?= 1 # 2) = Lt).
  { apply (proj1 (Qlt_alt _ _)). lra. }
  by rewrite Hc.
Qed.

Lemma last_place_le (x y : Q) :
  0 < x -> x <= y -> (Double.last_place x <= Double.last_place y)%Z.
Proof.
  intros Hx Hxy. unfold Double.last_place. pose proof (magnitude_le x y Hx Hxy). lia.
Qed.

(** Rounding at a fixed last place. *)
Lemma scaled_le (e : Z) (x y : Q) : x <= y -> x / 2 ^ e <= y / 2 ^ e.
Proof.
  intros Hxy. unfold Qdiv. apply Qmult_le_compat_r; [done|].
  apply Qlt_le_weak, Qinv_lt_0_compat, pow2_pos.
Qed.

Lemma round_positive_le (x y : Q) :
  0 < x -> x <= y -> Double.round_positive x <= Double.round_positive y.
Proof.
  intros Hx Hxy. assert (Hy : 0 < y) by by apply Qlt_le_trans with x.
  pose proof (last_place_le x y Hx Hxy) as He.
  unfold Double.round_positive.
  set (e1 := Double.last_place x) in *. set (e2 := Double.last_place y) in *.
  destruct (Z.eq_dec e1 e2) as [Heq|Hne].
  - rewrite <- Heq. apply Qmult_le_compat_r; [|apply Qlt_le_weak, pow2_pos].
    rewrite <- Zle_Qle. by apply nearest_even_le, scaled_le.
  - assert (Hlt : (e1 < e2)%Z) by lia.
    destruct (magnitude_bounds x Hx) as [_ Hxhi].
    destruct (magnitude_bounds y Hy) as [Hylo _].
    assert (He1 : (Double.magnitude x + 1 <= e1 + 53)%Z) by (unfold e1, Double.last_place; lia).
    assert (He2 : (e2 = Double.magnitude y - 52)%Z) by (unfold e1, e2, Double.last_place in *; lia).
    apply Qle_trans with (2 ^ (e1 + 53)).
    + assert (Hs : 2 ^ (e1 + 53) == inject_Z (2 ^ 53) * 2 ^ e1).
      { rewrite pow2_Z by done. rewrite <- Qpower_plus by done.
        by replace (53 + e1)%Z with (e1 + 53)%Z by lia. }
      rewrite Hs. apply Qmult_le_compat_r; [|apply Qlt_le_weak, pow2_pos].
      rewrite <- Zle_Qle.
      apply Z.le_trans with (Double.nearest_even (inject_Z (2 ^ 53)));
        [|by rewrite (nearest_even_Z _ (2 ^ 53))].
      apply nearest_even_le. apply Qle_shift_div_r; [apply pow2_pos|].
      rewrite <- Hs. apply Qlt_le_weak. apply Qlt_le_trans with (2 ^ (Double.magnitude x + 1)); [done|].
      by apply pow2_le.
    + apply Qle_trans with (2 ^ (e2 + 52)); [apply pow2_le; lia|].
      assert (Hs : 2 ^ (e2 + 52) == inject_Z (2 ^ 52) * 2 ^ e2).
      { rewrite pow2_Z by done. rewrite <- Qpower_plus by done.
        by replace (52 + e2)%Z with (e2 + 52)%Z by lia. }
      rewrite Hs. apply Qmult_le_compat_r; [|apply Qlt_le_weak, pow2_pos].
      rewrite <- Zle_Qle.
      apply Z.le_trans with (Double.nearest_even (inject_Z (2 ^ 52)));
        [by rewrite (nearest_even_Z _ (2 ^ 52))|].
      apply nearest_even_le. apply Qle_shift_div_l; [apply pow2_pos|].
      rewrite <- Hs. by replace (e2 + 52)%Z with (Double.magnitude y) by lia.
Qed.

Lemma round_positive_nonneg (x : Q) : 0 <= x -> 0 <= Double.round_positive x.
Proof.
  intros Hx. unfold Double.round_positive.
  apply Qmult_le_0_compat; [|apply Qlt_le_weak, pow2_pos].
  change 0 with (inject_Z 0). rewrite <- Zle_Qle.
  apply Z.le_trans with (Double.nearest_even 0); [by rewrite (nearest_even_Z _ 0)|].
  apply nearest_even_le. apply Qle_shift_div_l; [apply pow2_pos|]. lra.
Qed.

(** A number with all its bits above the last place is a double. *)
Lemma round_positive_exact (x : Q) (m : Z) :
  x == inject_Z m * 2 ^ Double.last_place x -> Double.round_positive x == x.
Proof.
  intros Hm. unfold Double.round_positive.
  rewrite (nearest_even_Z _ m); [by rewrite <- Hm|].
  rewrite Hm at 1. field. intros H0. pose proof (pow2_pos (Double.last_place x)) as Hp.
  rewrite H0 in Hp. done.
Qed.

Lemma roundQ_positive (x : Q) : 0 < x -> Double.roundQ x = Double.round_positive x.
Proof.
  intros Hx. unfold Double.roundQ.
  assert (Hc : (x ?= 0) = Gt) by (by apply (proj1 (Qgt_alt _ _))).
  by rewrite Hc.
Qed.

Lemma roundQ_zero (x : Q) : x == 0 -> Double.roundQ x = 0.
Proof.
  intros Hx. unfold Double.roundQ.
  assert (Hc : (x ?= 0) = Eq) by (by apply (proj1 (Qeq_alt _ _))).
  by rewrite Hc.
Qed.

Lemma roundQ_nonneg (x : Q) : 0 <= x -> 0 <= Double.roundQ x.
Proof.
  intros Hx. destruct (Qlt_le_dec 0 x) as [Hpos|Hle].
  - rewrite roundQ_positive by done. by apply round_positive_nonneg.
  - rewrite roundQ_zero; [done|]. by apply Qle_antisym.
Qed.

Lemma roundQ_le (x y : Q) : 0 <= x -> x <= y -> Double.roundQ x <= Double.roundQ y.
Proof.
  intros Hx Hxy. destruct (Qlt_le_dec 0 x) as [Hpos|Hle].
  - rewrite !roundQ_positive; [by apply round_positive_le|by apply Qlt_le_trans with x|done].
  - rewrite (roundQ_zero x) by (by apply Qle_antisym).
    apply roundQ_nonneg. by apply Qle_trans with x.
Qed.

Lemma roundQ_integer (x : Q) (z : Z) :
  x == inject_Z z -> (0 <= z <= 2 ^ 53)%Z -> Double.roundQ x == x.
Proof.
  intros Hx [Hz0 Hz1]. destruct (Z.eq_dec z 0%Z) as [->|Hne].
  - rewrite roundQ_zero by done. by rewrite Hx.
  - assert (Hzpos : (0 < z)%Z) by lia.
    assert (Hxpos : 0 < x) by (rewrite Hx; change 0 with (inject_Z 0); by rewrite <- Zlt_Qlt).
    rewrite roundQ_positive by done.
    pose proof (Z.log2_spec z Hzpos) as [Hl1 Hl2].
    pose proof (Z.log2_nonneg z) as Hl0.
    assert (Hl53 : (Z.log2 z <= 53)%Z).
    { rewrite <- (Z.log2_pow2 53%Z) by done. by apply Z.log2_le_mono. }
    assert (Hmag : Double.magnitude x = Z.log2 z).
    { apply magnitude_unique; rewrite Hx.
      - rewrite <- pow2_Z by done. by rewrite <- Zle_Qle.
      - rewrite <- pow2_Z by lia. by rewrite <- Zlt_Qlt. }
    assert (He : Double.last_place x = (Z.log2 z - 52)%Z).
    { unfold Double.last_place. rewrite Hmag. lia. }
    destruct (Z_le_gt_dec (Z.log2 z) 52%Z) as [Hle|Hgt].
    + apply (round_positive_exact x (z * 2 ^ (52 - Z.log2 z))%Z).
      rewrite He, Hx, inject_Z_mult, pow2_Z by lia.
      rewrite <- Qmult_assoc, <- Qpower_plus by done.
      replace (52 - Z.log2 z + (Z.log2 z - 52))%Z with 0%Z by lia. cbn. ring.
    + assert (Hl : Z.log2 z = 53%Z) by lia. rewrite Hl in *.
      assert (Hz : z = (2 ^ 53)%Z) by lia.
      apply (round_positive_exact x (2 ^ 52)%Z). rewrite He, Hx, Hz. reflexivity.
Qed.





#[local] Close Scope Q_scope.

(** ** The doubles among the rationals *)

Lemma round_le (x y : Qc) : (0 ≤ x)%Qc → (x ≤ y)%Qc → (Double.round x ≤ Double.round y)%Qc.
Proof.
  intros Hx Hxy. unfold Double.round, Qcle. cbn [this Q2Qc].
  rewrite !Qred_correct. by apply roundQ_le.
Qed.

Lemma round_integer (z : Z) :
  (0 ≤ z ≤ 2 ^ 53)%Z → Double.round (Q2Qc (inject_Z z)) = Q2Qc (inject_Z z).
Proof.
  intros Hz. apply Qc_is_canon. unfold Double.round. cbn [this Q2Qc].
  rewrite Qred_correct. apply (roundQ_integer _ z); [apply Qred_correct|done].
Qed.

Lemma round_0 : Double.round 0%Qc = 0%Qc.
Proof. reflexivity. Qed.

Lemma round_1 : Double.round 1%Qc = 1%Qc.
Proof. by apply Qc_is_canon. Qed.

Lemma round_nonneg (x : Qc) : (0 ≤ x)%Qc → (0 ≤ Double.round x)%Qc.
Proof. intros Hx. rewrite <- round_0. by apply round_le. Qed.

(** Above [2^53] the doubles are the even integers. *)
Lemma round_past_53 :
  Double.round (Q2Qc (inject_Z (2 ^ 53 + 1))) = Q2Qc (inject_Z (2 ^ 53)).
Proof. by apply Qc_is_canon. Qed.





(** ** Promises *)

Lemma earliest_None {A} (xs : list (nat * A)) : Promise.earliest xs = None → xs = [].
Proof.
  destruct xs as [|x xs]; [done|]. cbn [Promise.earliest]. by destruct (Promise.earliest xs).
Qed.

Lemma earliest_Some {A} (xs : list (nat * A)) (t : nat) (a : A) :
  Promise.earliest xs = Some (t, a) →
  (t, a) ∈ xs ∧ ∀ t' a', (t', a') ∈ xs → t ≤ t'.
Proof.
  revert t a. induction xs as [|[t0 a0] xs IH]; intros t a; cbn [Promise.earliest]; [done|].
  destruct (Promise.earliest xs) as [[t1 a1]|] eqn:He.
  - destruct (IH _ _ eq_refl) as [Hin Hmin]. cbn [fst].
    destruct (Nat.ltb_spec t1 t0) as [Hlt|Hge]; intros ?; simplify_eq.
    + split; [by apply list_elem_of_further|].
      intros t' a' [?|Hin']%elem_of_cons; simplify_eq; [lia|by eapply Hmin].
    + split; [by apply list_elem_of_here|].
      intros t' a' [?|Hin']%elem_of_cons; simplify_eq; [lia|].
      specialize (Hmin _ _ Hin'). lia.
  - apply earliest_None in He as ->. intros ?; simplify_eq.
    split; [by apply list_elem_of_here|].
    intros t' a' ?%list_elem_of_singleton. by simplify_eq.
Qed.

Lemma elem_of_rejections (ps : list promise) (t : nat) (e : string) :
  (t, e) ∈ Promise.rejections ps ↔ Some (t, Rejected e) ∈ ps.
Proof.
  unfold Promise.rejections. rewrite list_elem_of_omap. split.
  - intros ([[t' [|e']]|] & Hin & Heq); try done. by injection Heq as -> ->.
  - intros Hin. by eexists.
Qed.

Lemma elem_of_fulfilments (ps : list promise) (t : nat) :
  (t, ()) ∈ Promise.fulfilments ps ↔ Some (t, Fulfilled) ∈ ps.
Proof.
  unfold Promise.fulfilments. rewrite list_elem_of_omap. split.
  - intros ([[t' [|e']]|] & Hin & Heq); try done. by injection Heq as ->.
  - intros Hin. by eexists.
Qed.

Lemma elem_of_settlements (ps : list promise) (t : nat) (o : outcome) :
  (t, o) ∈ Promise.settlements ps ↔ Some (t, o) ∈ ps.
Proof.
  unfold Promise.settlements. rewrite list_elem_of_omap. split.
  - intros (p & Hin & Heq). unfold id in Heq. by subst p.
  - intros Hin. by eexists.
Qed.

Lemma all_settled_at_Some (ps : list promise) (T : nat) :
  Promise.all_settled_at ps = Some T ↔
  (∀ p, p ∈ ps → ∃ t o, p = Some (t, o) ∧ t ≤ T) ∧
  (ps = [] ∧ T = 0 ∨ ∃ o, Some (T, o) ∈ ps).
Proof.
  revert T. induction ps as [|p ps IH]; intros T; cbn.
  - split.
    + intros [= <-]. split; [by intros p ?%elem_of_nil|by left].
    + intros [_ [[_ ->]|[o ?%elem_of_nil]]]; done.
  - destruct p as [[t o]|]; cycle 1.
    { split; [done|]. intros [Hall _].
      destruct (Hall None) as (? & ? & ? & _); [apply list_elem_of_here|done]. }
    destruct (Promise.all_settled_at ps) as [m|] eqn:Hm.
    + destruct (proj1 (IH m) eq_refl) as [Hall Hmax]. split.
      * intros [= <-]. split.
        -- intros p [->|Hin]%elem_of_cons.
           ++ exists t, o. split; [done|lia].
           ++ destruct (Hall p Hin) as (t' & o' & -> & Hle). exists t', o'. split; [done|lia].
        -- right. destruct (Nat.max_spec t m) as [[Hlt ->]|[Hge ->]].
           ++ destruct Hmax as [[-> ->]|[o' Hin]]; [lia|].
              exists o'. by apply list_elem_of_further.
           ++ exists o. apply list_elem_of_here.
      * intros [HallT HmaxT]. f_equal.
        assert (t ≤ T).
        { destruct (HallT (Some (t, o))) as (? & ? & [= <- <-] & ?); [apply list_elem_of_here|done]. }
        assert (m ≤ T).
        { destruct Hmax as [[-> ->]|[o' Hin]]; [lia|].
          destruct (HallT (Some (m, o'))) as (? & ? & [= <- <-] & ?);
            [by apply list_elem_of_further|done]. }
        destruct HmaxT as [[? _]|[o' [[= <- <-]|Hin]%elem_of_cons]]; [done|lia|].
        destruct (Hall _ Hin) as (? & ? & [= <- <-] & ?). lia.
    + split; [done|]. intros [HallT HmaxT]. exfalso.
      assert (Hsome : ∃ m, Promise.all_settled_at ps = Some m); [|by destruct Hsome; congruence].
      clear -HallT. induction ps as [|q qs IHq]; cbn; [by eexists|].
      destruct (HallT q) as (tq & oq & -> & _); [apply list_elem_of_further, list_elem_of_here|].
      destruct IHq as [m ->]; [|by eexists].
      intros p [->|Hin]%elem_of_cons; apply HallT.
      * apply list_elem_of_here.
      * by do 2 apply list_elem_of_further.
Qed.

(** [Promise.all] is fail-fast: it rejects as soon as the first of its
    inputs rejects, with the error of that input. *)
Lemma all_fail_fast (ps : list promise) (t : nat) (e : string) :
  Some (t, Rejected e) ∈ ps →
  ∃ t' e', Promise.all ps = Some (t', Rejected e') ∧ Some (t', Rejected e') ∈ ps ∧
           t' ≤ t ∧ ∀ t'' e'', Some (t'', Rejected e'') ∈ ps → t' ≤ t''.
Proof.
  intros Hin. unfold Promise.all.
  destruct (Promise.earliest (Promise.rejections ps)) as [[t' e']|] eqn:He.
  - apply earliest_Some in He as [Hin' Hmin]. exists t', e'.
    split; [done|]. split; [by apply elem_of_rejections|]. split.
    + apply (Hmin t e). by apply elem_of_rejections.
    + intros t'' e'' Hin''. apply (Hmin t'' e''). by apply elem_of_rejections.
  - apply earliest_None in He. apply elem_of_rejections in Hin.
    rewrite He in Hin. by apply elem_of_nil in Hin.
Qed.

(** [Promise.all] fulfils exactly when every input has fulfilled, at the
    tick of the last of them. *)
Lemma all_fulfils (ps : list promise) (T : nat) :
  Promise.all ps = Some (T, Fulfilled) ↔
  (∀ p, p ∈ ps → ∃ t, p = Some (t, Fulfilled) ∧ t ≤ T) ∧
  (ps = [] ∧ T = 0 ∨ Some (T, Fulfilled) ∈ ps).
Proof.
  unfold Promise.all.
  destruct (Promise.earliest (Promise.rejections ps)) as [[t' e']|] eqn:He.
  - apply earliest_Some in He as [Hin%elem_of_rejections _]. split; [done|].
    intros [Hall _]. by destruct (Hall _ Hin) as (? & ? & _).
  - apply earliest_None in He.
    assert (Hnorej : ∀ t e, Some (t, Rejected e) ∉ ps).
    { intros t e Hin%elem_of_rejections. rewrite He in Hin. by apply elem_of_nil in Hin. }
    destruct (Promise.all_settled_at ps) as [m|] eqn:Hm; cbn.
    + apply all_settled_at_Some in Hm as [Hall Hmax]. split.
      * intros [= <-]. split.
        -- intros p Hin. destruct (Hall p Hin) as (t & [|e] & -> & Hle); [by eexists|].
           by destruct (Hnorej t e).
        -- destruct Hmax as [?|[[|e] Hin]]; [by left|by right|by destruct (Hnorej m e)].
      * intros [HallT HmaxT]. do 2 f_equal.
        destruct HmaxT as [[-> ->]|HinT].
        -- by destruct Hmax as [[_ ->]|[? ?%elem_of_nil]].
        -- destruct (Hall _ HinT) as (? & ? & [= <- <-] & ?).
           destruct Hmax as [[-> _]|[o Hin]]; [by apply elem_of_nil in HinT|].
           destruct (HallT _ Hin) as (? & [= <-] & ?). lia.
    + split; [done|]. intros [HallT HmaxT]. exfalso.
      assert (Hsome : Promise.all_settled_at ps = Some T); [|congruence].
      apply all_settled_at_Some. split.
      * intros p Hin. destruct (HallT p Hin) as (t & -> & ?). by exists t, Fulfilled.
      * destruct HmaxT as [?|?]; [by left|right; by eexists].
Qed.
(** ** The store *)

Lemma get_upd_eq f h w : get (upd f h w) h = f (get w h).
Proof. unfold get at 1, upd; simpl. by rewrite lookup_insert_eq. Qed.

Lemma get_upd_ne f h h' w : h ≠ h' → get (upd f h w) h' = get w h'.
Proof. intros Hne. unfold get at 1, upd; simpl. by rewrite lookup_insert_ne. Qed.

Lemma get_emit a w h : get (emit a w) h = get w h.
Proof. reflexivity. Qed.

Lemma log_emit a w : log (emit a w) = log w ++ [a].
Proof. reflexivity. Qed.

Lemma log_upd f h w : log (upd f h w) = log w.
Proof. reflexivity. Qed.

Lemma status_of_end c reason ts w : status_of (Core.end_ c reason ts w).2 c = done.
Proof. unfold status_of, Core.end_; simpl. by rewrite get_emit, get_upd_eq. Qed.

Lemma get_end_ne c h reason ts w : c ≠ h → get (Core.end_ c reason ts w).2 h = get w h.
Proof. intros Hne. unfold Core.end_; simpl. by rewrite get_emit, get_upd_ne. Qed.

Lemma log_end c reason ts w :
  log (Core.end_ c reason ts w).2 = log w ++ [call_end c reason ts].
Proof. reflexivity. Qed.

(** ** [Sequence.step] *)

Lemma step_done s ts synced w :
  status_of w (Sequence.self s) = done →
  Sequence.step s ts synced w
  = (Promise.thrown "Sequence ended, can't take any more steps", s, w).
Proof. intros Hd. unfold Sequence.step. by rewrite decide_True. Qed.

Lemma steps_done calls s w :
  status_of w (Sequence.self s) = done →
  steps calls s w
  = (replicate (length calls) (Promise.thrown "Sequence ended, can't take any more steps"), s, w).
Proof.
  intros Hd. induction calls as [|[ts synced] rest IH]; simpl; [done|].
  by rewrite step_done, IH.
Qed.

(** C3. [step] on a sequence whose status is done fails with the state
    error and changes nothing, however often it is called.  On a prepared
    sequence that is not done: if the cursor is exhausted, [step] calls
    [this.end('completion', frameTimeStamp)] and returns its future;
    otherwise it records the next (index, child) pair as current,
    subscribes its stepper to the child's [after:end] event and then
    returns the future of the child's [run]. *)
Theorem C3_step (s : Sequence.t) (it : ArrayIterator) (ts synced : jsval) (w : world) :
  Sequence.iterator s = Some it →
  (status_of w (Sequence.self s) = done →
     ∀ calls, steps calls s w
       = (replicate (length calls)
            (Some (0, Rejected "Sequence ended, can't take any more steps")), s, w)) ∧
  (status_of w (Sequence.self s) ≠ done →
     let '(p, s', w') := Sequence.step s ts synced w in
     match (next it).1 with
     | None =>
         p = end_future (c_task (get w (Sequence.self s))) ∧
         log w' = log w ++ [call_end (Sequence.self s) (JSstr "completion") ts] ∧
         status_of w' (Sequence.self s) = done ∧
         Sequence.currentComponent s' = Sequence.currentComponent s ∧
         Sequence.currentPosition s' = Sequence.currentPosition s
     | Some (i, c) =>
         Sequence.currentPosition s' = Some i ∧
         Sequence.currentComponent s' = Some c ∧
         log w' = log w ++ [call_on c "after:end" (Sequence.stepper s); call_run c ts synced] ∧
         ("after:end", Sequence.stepper s) ∈ c_listeners (get w' c) ∧
         p = run_future (c_task (get w c)) ∧
         Sequence.iterator s' = Some (next it).2
     end).
Proof.
  intros Hit. split.
  - intros Hd calls. by apply steps_done.
  - intros Hnd. unfold Sequence.step. rewrite decide_False by done. rewrite Hit.
    destruct (next it) as [[[i c]|] it1] eqn:Hnext; cbn [fst snd].
    + unfold Core.run. cbn beta iota zeta.
      split; [done|]. split; [done|]. split.
      { unfold Core.on. by rewrite !log_emit, !log_upd, log_emit, log_upd, <- app_assoc. }
      split.
      { unfold Core.on. rewrite get_emit, get_upd_eq, get_emit, get_upd_eq.
        cbn [c_listeners with_listeners with_status].
        apply elem_of_app; right. by apply list_elem_of_singleton. }
      split; [|done].
      unfold Core.on. by rewrite get_emit, get_upd_eq.
    + unfold Core.end_. cbn beta iota zeta.
      split; [done|]. split; [done|]. split; [|done].
      unfold status_of. by rewrite get_emit, get_upd_eq.
Qed.

(** ** [Sequence.onEnd] *)

Lemma log_off c ev l w : log (Core.off c ev l w) = log w ++ [call_off c ev l].
Proof. reflexivity. Qed.

Lemma status_of_off c ev l w h : status_of (Core.off c ev l w) h = status_of w h.
Proof.
  unfold status_of, Core.off. rewrite get_emit.
  destruct (decide (c = h)) as [->|Hne].
  - by rewrite get_upd_eq.
  - by rewrite get_upd_ne.
Qed.

Lemma listeners_off c ev l w :
  (ev, l) ∉ c_listeners (get (Core.off c ev l w) c).
Proof.
  unfold Core.off. rewrite get_emit, get_upd_eq. cbn [c_listeners with_listeners].
  intros [Hne _]%list_elem_of_filter. by apply Hne.
Qed.

(** C6. When a sequence ends while its current child has not reached
    done, [onEnd] first takes the stepper off that child's [after:end]
    event and then ends the child with reason "abort by sequence"; no
    other component is touched.  Without a current child, or with a
    current child that is done, [onEnd] does nothing at all. *)
Theorem C6_onEnd (s : Sequence.t) (w : world) :
  match Sequence.currentComponent s with
  | Some c =>
      (status_of w c ≠ done →
         log (Sequence.onEnd s w)
         = log w ++ [call_off c "after:end" (Sequence.stepper s);
                     call_end c (JSstr "abort by sequence") JSundefined] ∧
         (("after:end", Sequence.stepper s) ∉ c_listeners (get (Sequence.onEnd s w) c)) ∧
         status_of (Sequence.onEnd s w) c = done ∧
         (∀ h, h ≠ c → get (Sequence.onEnd s w) h = get w h)) ∧
      (status_of w c = done → Sequence.onEnd s w = w)
  | None => Sequence.onEnd s w = w
  end.
Proof.
  unfold Sequence.onEnd. destruct (Sequence.currentComponent s) as [c|]; [|done].
  split.
  - intros Hnd. rewrite decide_True by done. split; [|split; [|split]].
    + by rewrite log_end, log_off, <- app_assoc.
    + unfold Core.end_; cbn [snd]. rewrite get_emit, get_upd_eq.
      cbn [c_listeners with_status]. apply listeners_off.
    + apply status_of_end.
    + intros h Hne. rewrite get_end_ne by done.
      unfold Core.off. rewrite get_emit. by rewrite get_upd_ne.
  - intros Hd. rewrite decide_False; [done|]. by intros Hc.
Qed.

(** ** [progress] *)

Lemma Qc_of_nat_S n : Qc_of_nat (S n) = (1 + Qc_of_nat n)%Qc.
Proof.
  unfold Qc_of_nat. apply Qc_is_canon. simpl.
  rewrite !Qred_correct. rewrite Nat2Z.inj_succ. unfold Z.succ.
  rewrite inject_Z_plus. simpl. ring.
Qed.

Lemma Qc_of_nat_pos n : (0 < Qc_of_nat (S n))%Qc.
Proof.
  induction n as [|n IH]; [reflexivity|].
  rewrite Qc_of_nat_S.
  apply Qclt_le_trans with (1 + 0)%Qc; [reflexivity|].
  apply Qcplus_le_compat; [apply Qcle_refl|]. by apply Qclt_le_weak.
Qed.

Lemma Qc_of_Z_le (a b : Z) : (a ≤ b)%Z → (Q2Qc (inject_Z a) ≤ Q2Qc (inject_Z b))%Qc.
Proof.
  intros Hab. unfold Qcle. cbn [this Q2Qc]. rewrite !Qred_correct. by rewrite <- Zle_Qle.
Qed.

Lemma round_Qc_of_nat (n : nat) :
  (Z.of_nat n ≤ 2 ^ 53)%Z → Double.round (Qc_of_nat n) = Qc_of_nat n.
Proof. intros Hn. apply round_integer. lia. Qed.

Lemma foldl_jsadd_Num a qs :
  foldl jsadd (Num a) (Num <$> qs) = Num (foldl (λ a q, Double.round (a + q)%Qc) a qs).
Proof. revert a. induction qs as [|q qs IH]; intros a; cbn; [done|]. by rewrite IH. Qed.

Lemma sum_Num qs : Lodash.sum (Num <$> qs) = Num (float_total qs).
Proof. apply foldl_jsadd_Num. Qed.

Lemma mean_Num q qs :
  Lodash.mean (Num <$> (q :: qs))
  = Num (Double.round (float_total (q :: qs) / Qc_of_nat (length (q :: qs)))%Qc).
Proof.
  change (Lodash.mean (Num <$> q :: qs))
    with (jsdiv_nat (Lodash.sum (Num <$> q :: qs)) (length (Num <$> q :: qs))).
  by rewrite sum_Num, length_fmap.
Qed.






(** One addition in doubles of a value between 0 and 1 to a sum of [k]
    such values. *)
Lemma float_step_bounds (a q : Qc) (k : nat) :
  (0 ≤ a)%Qc → (a ≤ Qc_of_nat k)%Qc → (a ≤ Q2Qc (inject_Z (2 ^ 53)))%Qc →
  (0 ≤ q)%Qc → (q ≤ 1)%Qc →
  (0 ≤ a + q)%Qc ∧ (a + q ≤ Qc_of_nat (S k))%Qc ∧
  (0 ≤ Double.round (a + q))%Qc ∧
  (Double.round (a + q) ≤ Qc_of_nat (S k))%Qc ∧
  (Double.round (a + q) ≤ Q2Qc (inject_Z (2 ^ 53)))%Qc.
Proof.
  intros Ha0 Hak Ha53 Hq0 Hq1.
  assert (Hsum0 : (0 ≤ a + q)%Qc).
  { replace 0%Qc with (0 + 0)%Qc by ring. by apply Qcplus_le_compat. }
  assert (Hsumk : (a + q ≤ Qc_of_nat (S k))%Qc).
  { rewrite Qc_of_nat_S, (Qcplus_comm 1). by apply Qcplus_le_compat. }
  assert (H53 : (Double.round (a + q) ≤ Q2Qc (inject_Z (2 ^ 53)))%Qc).
  { rewrite <- round_past_53. apply round_le; [done|].
    replace (Q2Qc (inject_Z (2 ^ 53 + 1))) with (Q2Qc (inject_Z (2 ^ 53)) + 1)%Qc
      by (by apply Qc_is_canon).
    by apply Qcplus_le_compat. }
  split; [done|]. split; [done|]. split; [by apply round_nonneg|]. split; [|done].
  destruct (Z_le_gt_dec (Z.of_nat (S k)) (2 ^ 53)) as [Hle|Hgt].
  - rewrite <- (round_Qc_of_nat (S k)) by done. by apply round_le.
  - eapply Qcle_trans; [exact H53|]. apply Qc_of_Z_le. lia.
Qed.

(** The sum in doubles of values between 0 and 1 lies between 0 and the
    number of values, and never passes [2^53]. *)
Lemma float_sum_bounds (qs : list Qc) :
  Forall (λ q, (0 ≤ q)%Qc ∧ (q ≤ 1)%Qc) qs →
  ∀ (a : Qc) (k : nat),
    (0 ≤ a)%Qc → (a ≤ Qc_of_nat k)%Qc → (a ≤ Q2Qc (inject_Z (2 ^ 53)))%Qc →
    (0 ≤ foldl (λ a q, Double.round (a + q)%Qc) a qs)%Qc ∧
    (foldl (λ a q, Double.round (a + q)%Qc) a qs ≤ Qc_of_nat (k + length qs))%Qc.
Proof.
  induction 1 as [|q qs [Hq0 Hq1] _ IH]; intros a k Ha0 Hak Ha53.
  - cbn [foldl length]. by rewrite Nat.add_0_r.
  - cbn [foldl length].
    destruct (float_step_bounds a q k) as (_ & _ & H0 & Hk & H53); [done..|].
    destruct (IH (Double.round (a + q)) (S k)) as [H0' H1']; [done..|].
    split; [done|]. by replace (k + S (length qs)) with (S k + length qs) by lia.
Qed.

Lemma float_total_bounds (qs : list Qc) :
  Forall (λ q, (0 ≤ q)%Qc ∧ (q ≤ 1)%Qc) qs →
  (0 ≤ float_total qs)%Qc ∧ (float_total qs ≤ Qc_of_nat (length qs))%Qc.
Proof.
  intros Hqs. apply (float_sum_bounds qs Hqs 0%Qc 0); [apply Qcle_refl..|done].
Qed.

Lemma Qcdiv_unit (x y : Qc) : (0 < y)%Qc → (0 ≤ x)%Qc → (x ≤ y)%Qc → (0 ≤ x / y)%Qc ∧ (x / y ≤ 1)%Qc.
Proof.
  intros Hy H0 H1.
  assert (Hne : y ≠ 0%Qc).
  { intros Heq. rewrite Heq in Hy. apply (Qclt_not_le _ _ Hy), Qcle_refl. }
  split.
  - apply (Qcmult_le_mono_pos_r _ _ y Hy). rewrite Qcmult_0_l.
    by rewrite (Qcmult_comm (x / y)), Qcmult_div_r.
  - apply (Qcmult_le_mono_pos_r _ _ y Hy). rewrite Qcmult_1_l.
    by rewrite (Qcmult_comm (x / y)), Qcmult_div_r.
Qed.




(** The sum in doubles of [j] and of zeros and ones is the count, up to
    [2^53]. *)
Lemma float_sum_indicator (bs : list bool) :
  ∀ j : nat,
    (Z.of_nat (j + length bs) ≤ 2 ^ 53)%Z →
    foldl (λ a q, Double.round (a + q)%Qc) (Qc_of_nat j)
          ((λ b : bool, if b then 1%Qc else 0%Qc) <$> bs)
    = Qc_of_nat (j + length (filter (λ b, b = true) bs)).
Proof.
  induction bs as [|b bs IH]; intros j Hj; cbn [fmap list_fmap foldl length] in *.
  - by rewrite Nat.add_0_r.
  - destruct b.
    + rewrite filter_cons_True by done. cbn [length].
      replace (Qc_of_nat j + 1)%Qc with (Qc_of_nat (S j)) by (rewrite Qc_of_nat_S; ring).
      rewrite round_Qc_of_nat by lia. rewrite IH by lia. f_equal. lia.
    + rewrite filter_cons_False by done.
      replace (Qc_of_nat j + 0)%Qc with (Qc_of_nat j) by ring.
      rewrite round_Qc_of_nat by lia. apply IH. lia.
Qed.




(** A list of progress values in [0, 1] is a list of rationals. *)
Lemma unit_interval_rationals (xs : list jsnumber) :
  Forall unit_interval xs →
  ∃ qs, xs = Num <$> qs ∧ Forall (λ q, (0 ≤ q)%Qc ∧ (q ≤ 1)%Qc) qs.
Proof.
  induction 1 as [|x xs (q & -> & H0 & H1) _ (qs & -> & Hqs)].
  - by exists [].
  - exists (q :: qs). split; [done|]. by constructor.
Qed.




(** ** [prepareNested] *)

Lemma forEach_set_parent (p : handle) (xs : list handle) (i : nat) (w : world) :
  let w' := forEachi (λ c _, set_parent c p) i xs w in
  log w' = log w ++ ((λ c, write_parent c p) <$> xs) ∧
  (∀ h, get w' h = if decide (h ∈ xs) then with_parent (Some p) (get w h) else get w h) ∧
  bags w' = bags w ∧ rng w' = rng w.
Proof.
  revert i w. induction xs as [|x xs IH]; intros i w; cbn zeta.
  - cbn [forEachi fmap list_fmap]. rewrite app_nil_r. repeat split; try done.
  - cbn [forEachi]. destruct (IH (S i) (set_parent x p w)) as (Hlog & Hget & Hbags & Hrng).
    repeat split.
    + rewrite Hlog. unfold set_parent. rewrite log_emit, log_upd.
      by rewrite <- app_assoc.
    + intros h. rewrite Hget. unfold set_parent. rewrite get_emit.
      destruct (decide (h = x)) as [->|Hne].
      * rewrite get_upd_eq. rewrite (decide_True (P := x ∈ x :: xs)) by apply list_elem_of_here.
        by destruct (decide (x ∈ xs)).
      * rewrite get_upd_ne by done.
        destruct (decide (h ∈ xs)) as [Hin|Hnin].
        -- rewrite decide_True; [done|]. by apply list_elem_of_further.
        -- rewrite decide_False; [done|]. by intros [?|?]%elem_of_cons.
    + by rewrite Hbags.
    + by rewrite Hrng.
Qed.

Lemma forEachi_set_id (parent : handle) (xs : list handle) (i : nat) (w : world) :
  parent ∉ xs →
  let w' :=
    forEachi (λ c i w,
      match id_of w parent with
      | None => set_id c (String_of_index i) w
      | Some a => set_id c (join_underscore a i) w
      end) i xs w in
  log w' = log w ++ imap (λ k c, write_id c (child_id (id_of w parent) (i + k))) xs ∧
  (∀ h, h ∉ xs → get w' h = get w h) ∧
  (∀ h, c_parent (get w' h) = c_parent (get w h)) ∧
  (∀ k c, xs !! k = Some c → (∀ j, k < j → xs !! j ≠ Some c) →
     id_of w' c = Some (child_id (id_of w parent) (i + k))) ∧
  bags w' = bags w ∧ rng w' = rng w.
Proof.
  revert i w. induction xs as [|x xs IH]; intros i w Hpar; cbn zeta.
  - cbn [forEachi imap]. rewrite app_nil_r. repeat split; try done.
  - apply not_elem_of_cons in Hpar as [Hpx Hpxs].
    cbn [forEachi].
    assert (Hstep : match id_of w parent with
                    | None => set_id x (String_of_index i) w
                    | Some a => set_id x (join_underscore a i) w
                    end = set_id x (child_id (id_of w parent) i) w).
    { unfold child_id. by destruct (id_of w parent). }
    rewrite Hstep. clear Hstep.
    set (w1 := set_id x (child_id (id_of w parent) i) w).
    assert (Hid : id_of w1 parent = id_of w parent).
    { unfold id_of, w1, set_id. rewrite get_emit. by rewrite get_upd_ne. }
    destruct (IH (S i) w1 Hpxs) as (Hlog & Hget & Hparent & Hids & Hbags & Hrng).
    rewrite Hid in Hlog, Hids.
    repeat split.
    + rewrite Hlog. unfold w1, set_id. rewrite log_emit, log_upd.
      rewrite imap_cons. rewrite <- app_assoc. cbn [app]. rewrite Nat.add_0_r.
      do 2 f_equal. apply imap_ext. intros k c _. cbn. do 2 f_equal. lia.
    + intros h [Hhx Hhxs]%not_elem_of_cons. rewrite Hget by done.
      unfold w1, set_id. rewrite get_emit. by rewrite get_upd_ne.
    + intros h. rewrite Hparent. unfold w1, set_id. rewrite get_emit.
      destruct (decide (x = h)) as [->|Hne].
      * by rewrite get_upd_eq.
      * by rewrite get_upd_ne.
    + intros [|k] c Hk Hlast.
      * cbn in Hk. injection Hk as ->. rewrite Nat.add_0_r.
        assert (Hnin : c ∉ xs).
        { intros (j & Hj)%list_elem_of_lookup. by apply (Hlast (S j)); [lia|]. }
        unfold id_of. rewrite Hget by done.
        unfold w1, set_id. by rewrite get_emit, get_upd_eq.
      * cbn in Hk. rewrite (Hids k c Hk).
        -- do 2 f_equal. lia.
        -- intros j Hj. apply (Hlast (S j)). lia.
    + by rewrite Hbags.
    + by rewrite Hrng.
Qed.

Lemma map_world_emit {B} (g : component → B) (a : handle → action) (xs : list handle) (w : world) :
  map_world (λ c w, (g (get w c), emit (a c) w)) xs w
  = ((λ c, g (get w c)) <$> xs,
     {| comps := comps w; bags := bags w; log := log w ++ (a <$> xs); rng := rng w |}).
Proof.
  revert w. induction xs as [|x xs IH]; intros w; cbn [map_world fmap list_fmap].
  - rewrite app_nil_r. by destruct w.
  - rewrite IH. cbn [comps bags log rng emit].
    by rewrite <- app_assoc.
Qed.

Lemma map_world_prepare (xs : list handle) (w : world) :
  map_world (λ c, Core.prepare c false) xs w
  = ((λ c, prepare_future (c_task (get w c))) <$> xs,
     {| comps := comps w; bags := bags w;
        log := log w ++ ((λ c, call_prepare c false) <$> xs); rng := rng w |}).
Proof. apply (map_world_emit (λ x, prepare_future (c_task x))). Qed.

(** Running a list of units: the futures of their [run] calls, the calls
    in the log, and every unit of the list running. *)
Lemma map_world_run (ts synced : jsval) (xs : list handle) (w : world) :
  (map_world (λ c, Core.run c ts synced) xs w).1
  = (λ c, run_future (c_task (get w c))) <$> xs ∧
  log (map_world (λ c, Core.run c ts synced) xs w).2
  = log w ++ ((λ c, call_run c ts synced) <$> xs) ∧
  (∀ h, get (map_world (λ c, Core.run c ts synced) xs w).2 h
        = if decide (h ∈ xs) then with_status running (get w h) else get w h) ∧
  bags (map_world (λ c, Core.run c ts synced) xs w).2 = bags w ∧
  rng (map_world (λ c, Core.run c ts synced) xs w).2 = rng w.
Proof.
  revert w. induction xs as [|x xs IH]; intros w; cbn [map_world fmap list_fmap].
  - cbn [fst snd]. rewrite app_nil_r. split; [done|]. split; [done|]. split; [|done].
    intros h. by rewrite decide_False by apply not_elem_of_nil.
  - set (w1 := (Core.run x ts synced w).2).
    assert (Hget1 : ∀ h, get w1 h
                         = if decide (h = x) then with_status running (get w h) else get w h).
    { intros h. unfold w1, Core.run. cbn [snd]. rewrite get_emit.
      destruct (decide (h = x)) as [->|Hne]; [by rewrite get_upd_eq|by rewrite get_upd_ne]. }
    assert (Htask : ∀ h, c_task (get w1 h) = c_task (get w h)).
    { intros h. rewrite Hget1. by destruct (decide (h = x)). }
    destruct (IH w1) as (Hres & Hlog & Hget & Hbags & Hrng).
    change (Core.run x ts synced w) with (run_future (c_task (get w x)), w1).
    cbn beta iota zeta.
    destruct (map_world (λ c, Core.run c ts synced) xs w1) as [ys w2]. cbn [fst snd] in *.
    split; [|split; [|split; [|done]]].
    + rewrite Hres. f_equal. apply list_fmap_ext. intros _ h _. by rewrite Htask.
    + rewrite Hlog. unfold w1, Core.run. cbn [snd]. by rewrite log_emit, log_upd, <- app_assoc.
    + intros h. rewrite Hget, Hget1.
      destruct (decide (h = x)) as [->|Hne].
      * rewrite (decide_True (P := x ∈ x :: xs)) by apply list_elem_of_here.
        by destruct (decide (x ∈ xs)).
      * destruct (decide (h ∈ xs)) as [Hin|Hnin].
        -- by rewrite decide_True by by apply list_elem_of_further.
        -- rewrite decide_False; [done|]. by intros [?|?]%elem_of_cons.
Qed.

Lemma map_world_waitFor (ev : string) (xs : list handle) (w : world) :
  map_world (λ c, Core.waitFor c ev) xs w
  = ((λ c, (λ t, (t, Fulfilled)) <$> end_event (c_task (get w c))) <$> xs,
     {| comps := comps w; bags := bags w;
        log := log w ++ ((λ c, call_waitFor c ev) <$> xs); rng := rng w |}).
Proof. apply (map_world_emit (λ x, (λ t, (t, Fulfilled)) <$> end_event (c_task x))). Qed.

Lemma forEachi_task (c : handle) (f : handle → nat → world → world) (xs : list handle)
    (k : nat) (w : world) :
  (∀ x j w, c_task (get (f x j w) c) = c_task (get w c)) →
  c_task (get (forEachi f k xs w) c) = c_task (get w c).
Proof.
  intros Hf. revert k w. induction xs as [|x xs IH]; intros k w; cbn [forEachi]; [done|].
  by rewrite IH, Hf.
Qed.

Lemma task_set_parent x p w c : c_task (get (set_parent x p w) c) = c_task (get w c).
Proof.
  unfold set_parent. rewrite get_emit.
  destruct (decide (x = c)) as [->|Hne]; [by rewrite get_upd_eq|by rewrite get_upd_ne].
Qed.

Lemma task_set_id x i w c : c_task (get (set_id x i w) c) = c_task (get w c).
Proof.
  unfold set_id. rewrite get_emit.
  destruct (decide (x = c)) as [->|Hne]; [by rewrite get_upd_eq|by rewrite get_upd_ne].
Qed.

(** The future that [prepareNested] returns is [Promise.all] over the
    futures of the children's [prepare], in list order. *)
Lemma prepareNested_future (nested : list handle) (parent : handle) (w : world) :
  (prepareNested nested parent w).1
  = Promise.all ((λ c, prepare_future (c_task (get w c))) <$> nested).
Proof.
  unfold prepareNested, forEach. rewrite map_world_prepare. cbn [fst].
  f_equal. apply list_fmap_ext. intros _ c _.
  rewrite forEachi_task.
  - f_equal. apply forEachi_task. intros x j w0. apply task_set_parent.
  - intros x j w0. destruct (id_of w0 parent); apply task_set_id.
Qed.

(** What [prepareNested] does for any list of children that does not
    hold the parent itself; a child that occurs more than once keeps the
    identifier of its last position. *)
Lemma prepareNested_effects (nested : list handle) (parent : handle) (w : world) :
  parent ∉ nested →
  log (prepareNested nested parent w).2
  = log w ++ ((λ c, write_parent c parent) <$> nested)
          ++ imap (λ i c, write_id c (child_id (id_of w parent) i)) nested
          ++ ((λ c, call_prepare c false) <$> nested) ∧
  (∀ c, c ∈ nested → parent_of (prepareNested nested parent w).2 c = Some parent) ∧
  (∀ i c, nested !! i = Some c → (∀ j, i < j → nested !! j ≠ Some c) →
     id_of (prepareNested nested parent w).2 c = Some (child_id (id_of w parent) i)) ∧
  (∀ h, h ∉ nested → get (prepareNested nested parent w).2 h = get w h).
Proof.
  intros Hpar. unfold prepareNested, forEach.
  destruct (forEach_set_parent parent nested 0 w) as (Hlog1 & Hget1 & _).
  set (w1 := forEachi (λ c _, set_parent c parent) 0 nested w) in *.
  destruct (forEachi_set_id parent nested 0 w1 Hpar) as (Hlog2 & Hget2 & Hpar2 & Hid2 & _).
  set (w2 := forEachi _ 0 nested w1) in *.
  assert (Hpid : id_of w1 parent = id_of w parent).
  { unfold id_of. rewrite Hget1. by rewrite decide_False. }
  rewrite Hpid in Hlog2, Hid2.
  rewrite map_world_prepare. cbn [fst snd log].
  split; [|split; [|split]].
  - rewrite Hlog2, Hlog1. by rewrite <- !app_assoc.
  - intros c Hin. unfold parent_of, get at 1. cbn [comps]. fold (get w2 c).
    rewrite Hpar2, Hget1. by rewrite decide_True.
  - intros i c Hi Hlast. unfold id_of, get at 1. cbn [comps]. fold (get w2 c).
    by apply Hid2.
  - intros h Hnin. unfold get at 1. cbn [comps]. fold (get w2 h).
    rewrite Hget2 by done. rewrite Hget1. by rewrite decide_False.
Qed.

(** C5. [prepareNested], called on pairwise distinct children
    [c0, ..., c(n-1)] of a parent [P] that is not one of them: writes the
    parent link of every child, then the identifier of every child, then
    calls [prepare(false)] on every child, each once and in list order;
    afterwards child [ci] has parent [P] and the identifier ["i"] when
    [P] has none, ["<identifier of P>_i"] otherwise, and no other object
    has changed. *)
Theorem C5_prepareNested_ids (nested : list handle) (parent : handle) (w : world) :
  NoDup nested →
  parent ∉ nested →
  log (prepareNested nested parent w).2
  = log w ++ ((λ c, write_parent c parent) <$> nested)
          ++ imap (λ i c, write_id c (child_id (id_of w parent) i)) nested
          ++ ((λ c, call_prepare c false) <$> nested) ∧
  (∀ i c, nested !! i = Some c →
     parent_of (prepareNested nested parent w).2 c = Some parent ∧
     id_of (prepareNested nested parent w).2 c = Some (child_id (id_of w parent) i)) ∧
  (∀ h, h ∉ nested → get (prepareNested nested parent w).2 h = get w h).
Proof.
  intros Hnd Hpar.
  destruct (prepareNested_effects nested parent w Hpar) as (Hlog & Hparent & Hid & Hother).
  split; [done|]. split; [|done].
  intros i c Hi. split.
  - apply Hparent. apply list_elem_of_lookup. by exists i.
  - apply Hid; [done|]. intros j Hj Hjc.
    assert (i = j) by (by eapply NoDup_lookup). lia.
Qed.

(** ** Preparation of the containers *)

(** The content a sequence iterates over once it is prepared. *)
Lemma Sequence_onPrepare_content (s : Sequence.t) (w : world) :
  Sequence.content (Sequence.onPrepare s w).1.2
  = if Sequence.shuffle s
    then (random_shuffle (Sequence.random s) (Sequence.content s) (rng w)).1
    else Sequence.content s.
Proof.
  unfold Sequence.onPrepare. destruct (Sequence.shuffle s).
  - destruct (random_shuffle _ _ _) as [c r]. by destruct (prepareNested _ _ _).
  - by destruct (prepareNested _ _ _).
Qed.

(** [Sequence.onPrepare] hands back the aggregate future of its
    children's preparation. *)
Lemma Sequence_onPrepare_future (s : Sequence.t) (w : world) :
  (Sequence.onPrepare s w).1.1
  = ret_promise (Promise.all ((λ c, prepare_future (c_task (get w c)))
                                <$> Sequence.content (Sequence.onPrepare s w).1.2)).
Proof.
  rewrite Sequence_onPrepare_content. unfold Sequence.onPrepare.
  destruct (Sequence.shuffle s).
  - destruct (random_shuffle _ _ _) as [c r]. cbn [fst].
    pose proof (prepareNested_future c (Sequence.self s) (set_rng r (emit call_shuffle w))) as Hf.
    destruct (prepareNested _ _ _) as [p w2]. cbn [fst] in *. by rewrite Hf.
  - pose proof (prepareNested_future (Sequence.content s) (Sequence.self s) w) as Hf.
    destruct (prepareNested _ _ _) as [p w2]. cbn [fst] in *. by rewrite Hf.
Qed.

(** A sequence's preparation is fail-fast: when the [prepare] of one of
    its children rejects, the future of [Sequence.onPrepare] rejects, no
    later than that child, with the first rejection among the children. *)
Lemma Sequence_onPrepare_fail_fast (s : Sequence.t) (w : world) (c : handle) (t : nat) (e : string) :
  c ∈ Sequence.content (Sequence.onPrepare s w).1.2 →
  prepare_future (c_task (get w c)) = Some (t, Rejected e) →
  ∃ t' e' c',
    (Sequence.onPrepare s w).1.1 = ret_promise (Some (t', Rejected e')) ∧ t' ≤ t ∧
    c' ∈ Sequence.content (Sequence.onPrepare s w).1.2 ∧
    prepare_future (c_task (get w c')) = Some (t', Rejected e').
Proof.
  intros Hin Hrej. rewrite Sequence_onPrepare_future.
  destruct (all_fail_fast ((λ c, prepare_future (c_task (get w c)))
                             <$> Sequence.content (Sequence.onPrepare s w).1.2) t e)
    as (t' & e' & Hall & Hin' & Hle & _).
  { apply list_elem_of_fmap. exists c. by rewrite Hrej. }
  apply list_elem_of_fmap in Hin' as (c' & Hc' & Hin').
  exists t', e', c'. by rewrite Hall.
Qed.

(** [Parallel.onPrepare] hands back [undefined], whatever its children
    do: the aggregate future of [prepareNested] is dropped. *)
Lemma Parallel_onPrepare_undefined (p : Parallel.t) (w : world) :
  (Parallel.onPrepare p w).1 = ret_undefined.
Proof. unfold Parallel.onPrepare. by destruct (prepareNested _ _ _). Qed.

(** C1, at the failing input.  A container over one child whose
    [prepare] rejects: the aggregate future of [prepareNested] rejects
    with the child's error, and [Sequence.onPrepare] hands that rejection
    to its caller, but [Parallel.onPrepare], which makes the same call of
    [prepareNested] and so calls the child's [prepare], returns
    [undefined]: the failure does not reach the caller. *)
Theorem C1_Parallel_onPrepare_drops_failure :
  (prepareNested [1] 0 failing_world).1 = Some (0, Rejected "prepare failed") ∧
  (Sequence.onPrepare (Sequence.new 0 fixed_random only_child) failing_world).1.1
  = ret_promise (Some (0, Rejected "prepare failed")) ∧
  call_prepare 1 false ∈ log (Parallel.onPrepare (Parallel.new 0 only_child) failing_world).2 ∧
  (Parallel.onPrepare (Parallel.new 0 only_child) failing_world).1 = ret_undefined.
Proof.
  split; [|split; [|split]].
  - rewrite prepareNested_future. by vm_compute.
  - rewrite Sequence_onPrepare_future. by vm_compute.
  - vm_compute. do 2 apply list_elem_of_further. apply list_elem_of_here.
  - apply Parallel_onPrepare_undefined.
Qed.

(** ** [Parallel] *)

Lemma then_fulfilled (p : promise) (T : nat) :
  Promise.then_ p = Some T ↔ p = Some (T, Fulfilled).
Proof.
  destruct p as [[t [|e]]|]; cbn; split; intros ?; by simplify_eq.
Qed.

(** The future of [waitFor('end')] for each child. *)
Lemma waits_elem (w : world) (content : list handle) (t : nat) (o : outcome) :
  Some (t, o) ∈ (λ c, (λ t, (t, Fulfilled)) <$> ends_at w c) <$> content
  ↔ o = Fulfilled ∧ ∃ c, c ∈ content ∧ ends_at w c = Some t.
Proof.
  rewrite list_elem_of_fmap. split.
  - intros (c & Heq & Hin). destruct (ends_at w c) as [t'|] eqn:He; [|done].
    cbn in Heq. simplify_eq. split; [done|]. by exists c.
  - intros [-> (c & Hin & He)]. exists c. by rewrite He.
Qed.

Lemma watch_all (w : world) (content : list handle) (T : nat) :
  Promise.then_ (Promise.all ((λ c, (λ t, (t, Fulfilled)) <$> ends_at w c) <$> content)) = Some T
  ↔ (∀ c, c ∈ content → ∃ t, ends_at w c = Some t ∧ t ≤ T) ∧
    (content = [] ∧ T = 0 ∨ ∃ c, c ∈ content ∧ ends_at w c = Some T).
Proof.
  rewrite then_fulfilled, all_fulfils. split.
  - intros [Hall Hmax]. split.
    + intros c Hin.
      destruct (Hall ((λ t, (t, Fulfilled)) <$> ends_at w c)) as (t & Heq & Hle).
      { apply list_elem_of_fmap. by exists c. }
      destruct (ends_at w c) as [t'|]; [|done]. cbn in Heq. simplify_eq. by exists t.
    + destruct Hmax as [[Hnil ->]|Hin].
      * left. split; [|done]. by apply fmap_nil_inv in Hnil.
      * right. by apply waits_elem in Hin as [_ ?].
  - intros [Hall Hmax]. split.
    + intros p (c & -> & Hin)%list_elem_of_fmap.
      destruct (Hall c Hin) as (t & -> & Hle). by exists t.
    + destruct Hmax as [[-> ->]|Hin]; [by left|right]. by apply waits_elem.
Qed.

Lemma watch_first (w : world) (content : list handle) (T : nat) (o : outcome) :
  Promise.earliest (Promise.settlements ((λ c, (λ t, (t, Fulfilled)) <$> ends_at w c) <$> content))
  = Some (T, o)
  ↔ o = Fulfilled ∧ (∃ c, c ∈ content ∧ ends_at w c = Some T) ∧
    (∀ c t, c ∈ content → ends_at w c = Some t → T ≤ t).
Proof.
  split.
  - intros [Hin Hmin]%earliest_Some.
    apply elem_of_settlements, waits_elem in Hin as [-> Hc].
    split; [done|]. split; [done|].
    intros c t Hin He. apply (Hmin t Fulfilled).
    apply elem_of_settlements, waits_elem. split; [done|]. by exists c.
  - intros (-> & (c & Hin & He) & Hmin).
    destruct (Promise.earliest _) as [[t' o']|] eqn:Hearly.
    + apply earliest_Some in Hearly as [Hin' Hmin'].
      apply elem_of_settlements, waits_elem in Hin' as [-> (c' & Hin' & He')].
      assert (t' ≤ T).
      { apply (Hmin' T Fulfilled). apply elem_of_settlements, waits_elem.
        split; [done|]. by exists c. }
      assert (T ≤ t') by by eapply Hmin.
      do 2 f_equal. lia.
    + apply earliest_None in Hearly.
      assert (Hin' : (T, Fulfilled) ∈ Promise.settlements
                       ((λ c, (λ t, (t, Fulfilled)) <$> ends_at w c) <$> content)).
      { apply elem_of_settlements, waits_elem. split; [done|]. by exists c. }
      rewrite Hearly in Hin'. by apply elem_of_nil in Hin'.
Qed.

Lemma watch_race (w : world) (content : list handle) (T : nat) :
  Promise.then_ (Promise.race ((λ c, (λ t, (t, Fulfilled)) <$> ends_at w c) <$> content)) = Some T
  ↔ (∃ c, c ∈ content ∧ ends_at w c = Some T) ∧
    (∀ c t, c ∈ content → ends_at w c = Some t → T ≤ t).
Proof.
  rewrite then_fulfilled. unfold Promise.race. rewrite watch_first.
  split; [by intros (_ & ? & ?)|by intros [? ?]].
Qed.

Lemma fulfilments_settlements (w : world) (content : list handle) :
  Promise.fulfilments ((λ c, (λ t, (t, Fulfilled)) <$> ends_at w c) <$> content)
  = (λ x, (x.1, ())) <$>
    Promise.settlements ((λ c, (λ t, (t, Fulfilled)) <$> ends_at w c) <$> content).
Proof.
  induction content as [|c cs IH]; [done|].
  unfold Promise.fulfilments, Promise.settlements in *. cbn [fmap list_fmap omap list_omap].
  destruct (ends_at w c) as [t|]; cbn; [by rewrite IH|done].
Qed.

Lemma earliest_forget {A} (xs : list (nat * A)) :
  Promise.earliest ((λ x, (x.1, ())) <$> xs) = (λ x, (x.1, ())) <$> Promise.earliest xs.
Proof.
  induction xs as [|[t a] xs IH]; [done|].
  cbn [fmap list_fmap Promise.earliest]. fold (fmap (M := list) (λ x : nat * A, (x.1, ()))).
  rewrite IH.
  destruct (Promise.earliest xs) as [[t' a']|]; [|done].
  cbn [fmap option_fmap option_map fst]. by destruct (t' <? t).
Qed.

Lemma watch_any (w : world) (content : list handle) (T : nat) :
  Promise.then_ (Promise.any ((λ c, (λ t, (t, Fulfilled)) <$> ends_at w c) <$> content)) = Some T
  ↔ (∃ c, c ∈ content ∧ ends_at w c = Some T) ∧
    (∀ c t, c ∈ content → ends_at w c = Some t → T ≤ t).
Proof.
  rewrite then_fulfilled. unfold Promise.any.
  rewrite fulfilments_settlements.
  rewrite earliest_forget.
  destruct (Promise.earliest (Promise.settlements _)) as [[t o]|] eqn:Hearly; cbn.
  - apply watch_first in Hearly as (-> & Hex & Hmin). split.
    + intros [= <-]. by split.
    + intros [(c & Hin & He) Hmin']. do 2 f_equal.
      destruct Hex as (c' & Hin' & He').
      pose proof (Hmin c T Hin He). pose proof (Hmin' c' t Hin' He'). lia.
  - apply earliest_None in Hearly. split.
    + destruct (Promise.all_settled_at _) as [m|] eqn:Hm; cbn; [|done].
      intros ?; simplify_eq.
    + intros [(c & Hin & He) _]. exfalso.
      assert (Hin' : (T, Fulfilled) ∈ Promise.settlements
                       ((λ c, (λ t, (t, Fulfilled)) <$> ends_at w c) <$> content)).
      { apply elem_of_settlements, waits_elem. split; [done|]. by exists c. }
      rewrite Hearly in Hin'. by apply elem_of_nil in Hin'.
Qed.

(** The tick at which the watcher of [onRun] calls [this.end()]. *)
Lemma Parallel_onRun_watch (p : Parallel.t) (ts : jsval) (w : world) :
  (Parallel.onRun p ts w).1.2
  = Promise.then_ (Promise_static (Parallel.mode p)
      ((λ c, (λ t, (t, Fulfilled)) <$> ends_at w c) <$> Parallel.content p)).
Proof.
  unfold Parallel.onRun. rewrite map_world_waitFor.
  by destruct (map_world (λ c, Core.run c ts JSundefined) _ _).
Qed.

Lemma Parallel_onRun_log (p : Parallel.t) (ts : jsval) (w : world) :
  log (Parallel.onRun p ts w).2
  = log w ++ ((λ c, call_waitFor c "end") <$> Parallel.content p)
          ++ ((λ c, call_run c ts JSundefined) <$> Parallel.content p).
Proof.
  unfold Parallel.onRun. rewrite map_world_waitFor.
  destruct (map_world_run ts JSundefined (Parallel.content p)
              {| comps := comps w; bags := bags w;
                 log := log w ++ ((λ c, call_waitFor c "end") <$> Parallel.content p);
                 rng := rng w |}) as (_ & Hlog & _).
  destruct (map_world (λ c, Core.run c ts JSundefined) _ _) as [runs w2]. cbn [fst snd] in *.
  rewrite Hlog. cbn [log]. by rewrite <- app_assoc.
Qed.

Lemma status_code_lt_done (s : status) :
  (status_code s < status_code done)%Z ↔ s ≠ done.
Proof. destruct s; cbn; split; (done || lia || by intros []). Qed.

(** [Parallel.onEnd] over any content, also one that lists a child more
    than once: the children it ends are exactly those that were not done,
    each once. *)
Lemma Parallel_onEnd_effects (p : Parallel.t) (w : world) :
  ∃ targets : list handle,
    log (Parallel.onEnd p w) = log w ++ (abort_by_parallel <$> targets) ∧
    NoDup targets ∧
    (∀ c, c ∈ targets ↔ c ∈ Parallel.content p ∧ status_of w c ≠ done) ∧
    (∀ h, get (Parallel.onEnd p w) h
          = if decide (h ∈ targets) then with_status done (get w h) else get w h).
Proof.
  unfold Parallel.onEnd, forEach. generalize 0 as i.
  generalize (Parallel.content p) as xs. clear p.
  intros xs. revert w. induction xs as [|x xs IH]; intros w i; cbn [forEachi].
  - exists []. rewrite app_nil_r. split; [done|]. split; [constructor|]. split.
    + intros c. split; [by intros ?%elem_of_nil|by intros [?%elem_of_nil _]].
    + intros h. by rewrite decide_False by apply not_elem_of_nil.
  - destruct (decide (status_code (status_of w x) < status_code done)%Z) as [Hlt|Hge].
    + apply status_code_lt_done in Hlt.
      set (w1 := (Core.end_ x (JSstr "abort by parallel") JSundefined w).2).
      destruct (IH w1 (S i)) as (targets & Hlog & Hnd & Hin & Hget).
      assert (Hst : ∀ c, status_of w1 c ≠ done ↔ c ≠ x ∧ status_of w c ≠ done).
      { intros c. destruct (decide (c = x)) as [->|Hne].
        - unfold w1. rewrite status_of_end. split; [done|by intros [? _]].
        - unfold status_of at 1, w1. rewrite get_end_ne by done.
          fold (status_of w c). tauto. }
      assert (Hx : x ∉ targets).
      { intros [_ Hc]%Hin. apply Hst in Hc. by destruct Hc as [? _]. }
      exists (x :: targets). split; [|split; [|split]].
      * rewrite Hlog. unfold w1. rewrite log_end. by rewrite <- app_assoc.
      * by constructor.
      * intros c. rewrite !elem_of_cons, Hin, Hst.
        destruct (decide (c = x)) as [->|Hne]; tauto.
      * intros h. rewrite Hget. destruct (decide (h = x)) as [->|Hne].
        -- rewrite decide_False by done. rewrite decide_True by apply list_elem_of_here.
           unfold w1, Core.end_. cbn [snd]. by rewrite get_emit, get_upd_eq.
        -- unfold w1. rewrite get_end_ne by done.
           destruct (decide (h ∈ targets)) as [Ht|Ht].
           ++ by rewrite decide_True by by apply list_elem_of_further.
           ++ rewrite decide_False; [done|]. by intros [?|?]%elem_of_cons.
    + assert (Hd : status_of w x = done).
      { destruct (decide (status_of w x = done)) as [|Hnd]; [done|].
        by apply status_code_lt_done in Hnd. }
      destruct (IH w (S i)) as (targets & Hlog & Hnd & Hin & Hget).
      exists targets. split; [done|]. split; [done|]. split; [|done].
      intros c. rewrite Hin, elem_of_cons.
      destruct (decide (c = x)) as [->|Hne]; intuition congruence.
Qed.

(** Once every child is done, [Parallel.onEnd] changes nothing. *)
Lemma Parallel_onEnd_all_done (p : Parallel.t) (w : world) :
  (∀ c, c ∈ Parallel.content p → status_of w c = done) →
  Parallel.onEnd p w = w.
Proof.
  unfold Parallel.onEnd, forEach. generalize 0 as i.
  induction (Parallel.content p) as [|x xs IH]; intros i Hall; cbn [forEachi]; [done|].
  rewrite decide_False.
  - apply IH. intros c Hin. apply Hall. by apply list_elem_of_further.
  - rewrite status_code_lt_done. intros Hnd. apply Hnd, Hall, list_elem_of_here.
Qed.

(** *** The parallel in time *)

Lemma ends_at_mark st c w h : ends_at (Core.mark st c w) h = ends_at w h.
Proof.
  unfold ends_at, Core.mark.
  destruct (decide (c = h)) as [->|Hne]; [by rewrite get_upd_eq|by rewrite get_upd_ne].
Qed.

Lemma elapse_spec (T : nat) (c : handle) (w : world) :
  Core.elapse T c w = if decide (fired T w c) then Core.mark done c w else w.
Proof.
  unfold Core.elapse. fold (ends_at w c).
  destruct (decide (fired T w c)) as [(t & Ht & Hle)|Hn].
  - by rewrite Ht, decide_True.
  - destruct (ends_at w c) as [t|] eqn:Ht; [|done].
    rewrite decide_False; [done|]. intros Hle. apply Hn. by exists t.
Qed.

(** The children as they are at tick [T]: those whose [end] event has
    fired are done, nothing else has changed. *)
Lemma forEach_elapse (T : nat) (cs : list handle) (w : world) :
  log (forEach (Core.elapse T) cs w) = log w ∧
  (∀ h, ends_at (forEach (Core.elapse T) cs w) h = ends_at w h) ∧
  (∀ h, get (forEach (Core.elapse T) cs w) h
        = if decide (h ∈ cs ∧ fired T w h) then with_status done (get w h) else get w h).
Proof.
  unfold forEach. generalize 0 as i. revert w.
  induction cs as [|c cs IH]; intros w i; cbn [forEachi].
  - split; [done|]. split; [done|]. intros h.
    rewrite decide_False; [done|]. by intros [?%elem_of_nil _].
  - destruct (IH (Core.elapse T c w) (S i)) as (Hlog & Hends & Hget).
    assert (Hends1 : ∀ h, ends_at (Core.elapse T c w) h = ends_at w h).
    { intros h. rewrite elapse_spec. destruct (decide (fired T w c)); [apply ends_at_mark|done]. }
    assert (Hfired1 : ∀ h, fired T (Core.elapse T c w) h ↔ fired T w h).
    { intros h. unfold fired. by rewrite Hends1. }
    split; [|split].
    + rewrite Hlog, elapse_spec. by destruct (decide (fired T w c)).
    + intros h. by rewrite Hends, Hends1.
    + intros h. rewrite Hget. rewrite elapse_spec.
      destruct (decide (h = c)) as [->|Hne].
      * destruct (decide (fired T w c)) as [Hf|Hn].
        -- rewrite (decide_True (P := c ∈ c :: cs ∧ fired T w c))
             by (split; [apply list_elem_of_here|done]).
           unfold Core.mark. rewrite get_upd_eq.
           by destruct (decide (c ∈ cs ∧ fired T (upd (with_status done) c w) c)).
        -- rewrite !decide_False; [done|by intros [_ ?]|by intros [_ ?]].
      * assert (Hg : get (if decide (fired T w c) then Core.mark done c w else w) h = get w h).
        { destruct (decide (fired T w c)); [|done]. unfold Core.mark. by rewrite get_upd_ne. }
        rewrite Hg.
        assert (Hf : fired T (if decide (fired T w c) then Core.mark done c w else w) h
                     ↔ fired T w h).
        { rewrite <- elapse_spec. apply Hfired1. }
        destruct (decide (h ∈ cs ∧ fired T w h)) as [[Hin Hfh]|Hn].
        -- rewrite decide_True by (split; [done|by apply Hf]).
           by rewrite decide_True by (split; [by apply list_elem_of_further|done]).
        -- rewrite decide_False by (intros [? ?%Hf]; by apply Hn).
           rewrite decide_False; [done|]. intros [[?|?]%elem_of_cons ?]; [done|by apply Hn].
Qed.

(** The store when [onRun] returns. *)
Lemma Parallel_onRun_world (p : Parallel.t) (ts : jsval) (w : world) :
  (∀ h, get (Parallel.onRun p ts w).2 h
        = if decide (h ∈ Parallel.content p) then with_status running (get w h) else get w h) ∧
  (∀ h, ends_at (Parallel.onRun p ts w).2 h = ends_at w h) ∧
  bags (Parallel.onRun p ts w).2 = bags w ∧
  rng (Parallel.onRun p ts w).2 = rng w.
Proof.
  unfold Parallel.onRun. rewrite map_world_waitFor.
  destruct (map_world_run ts JSundefined (Parallel.content p)
              {| comps := comps w; bags := bags w;
                 log := log w ++ ((λ c, call_waitFor c "end") <$> Parallel.content p);
                 rng := rng w |}) as (_ & _ & Hget & Hbags & Hrng).
  destruct (map_world (λ c, Core.run c ts JSundefined) _ _) as [runs w2]. cbn [fst snd] in *.
  assert (Hget' : ∀ h, get w2 h = if decide (h ∈ Parallel.content p)
                                 then with_status running (get w h) else get w h)
    by (intros h; by rewrite Hget).
  split; [done|]. split; [|done].
  intros h. unfold ends_at. rewrite Hget'. by destruct (decide (h ∈ Parallel.content p)).
Qed.

Lemma at_tick_unfold (p : Parallel.t) (ts : jsval) (T : nat) (w : world) :
  Parallel.at_tick p ts T w
  = match (Parallel.onRun p ts w).1.2 with
    | Some F =>
        if decide (F ≤ T)
        then Parallel.onEnd p
               (Parallel.watcher p
                  (forEach (Core.elapse F) (Parallel.content p) (Parallel.onRun p ts w).2)).2
        else forEach (Core.elapse T) (Parallel.content p) (Parallel.onRun p ts w).2
    | None => forEach (Core.elapse T) (Parallel.content p) (Parallel.onRun p ts w).2
    end.
Proof. unfold Parallel.at_tick. by destruct (Parallel.onRun p ts w) as [[r fires] w1]. Qed.

(** What the callback [() => this.end()] does when it is called. *)
Lemma watcher_effects (p : Parallel.t) (w : world) :
  log (Parallel.watcher p w).2
  = log w ++ [call_end (Parallel.self p) JSundefined JSundefined] ∧
  status_of (Parallel.watcher p w).2 (Parallel.self p) = done ∧
  (∀ h, Parallel.self p ≠ h → get (Parallel.watcher p w).2 h = get w h).
Proof.
  unfold Parallel.watcher. split; [apply log_end|]. split; [apply status_of_end|].
  intros h Hne. by apply get_end_ne.
Qed.

(** While the watcher has not been called, the children's own endings
    are all that has happened since [onRun]. *)
Lemma at_tick_before (p : Parallel.t) (ts : jsval) (T : nat) (w : world) :
  (∀ F, (Parallel.onRun p ts w).1.2 = Some F → T < F) →
  Parallel.self p ∉ Parallel.content p →
  log (Parallel.at_tick p ts T w) = log (Parallel.onRun p ts w).2 ∧
  status_of (Parallel.at_tick p ts T w) (Parallel.self p) = status_of w (Parallel.self p).
Proof.
  intros Hbefore Hself. rewrite at_tick_unfold.
  destruct (forEach_elapse T (Parallel.content p) (Parallel.onRun p ts w).2)
    as (Hlog & _ & Hget).
  destruct (Parallel_onRun_world p ts w) as (Hrun & _).
  assert (Hst : status_of (forEach (Core.elapse T) (Parallel.content p)
                             (Parallel.onRun p ts w).2) (Parallel.self p)
                = status_of w (Parallel.self p)).
  { unfold status_of. rewrite Hget, decide_False by (by intros [? _]).
    by rewrite Hrun, decide_False. }
  destruct ((Parallel.onRun p ts w).1.2) as [F|]; [|done].
  specialize (Hbefore F eq_refl). by rewrite decide_False by lia.
Qed.

(** Once the watcher has been called: the parallel has been ended, and
    [onEnd] has cancelled the children whose [end] event had not fired
    when the watcher was called. *)
Lemma at_tick_after (p : Parallel.t) (ts : jsval) (T F : nat) (w : world) :
  (Parallel.onRun p ts w).1.2 = Some F → F ≤ T →
  Parallel.self p ∉ Parallel.content p →
  status_of (Parallel.at_tick p ts T w) (Parallel.self p) = done ∧
  ∃ targets : list handle,
    log (Parallel.at_tick p ts T w)
    = log (Parallel.onRun p ts w).2
        ++ call_end (Parallel.self p) JSundefined JSundefined :: (abort_by_parallel <$> targets) ∧
    NoDup targets ∧
    (∀ c, c ∈ targets ↔ c ∈ Parallel.content p ∧ ¬ fired F w c) ∧
    (∀ c, c ∈ Parallel.content p → status_of (Parallel.at_tick p ts T w) c = done).
Proof.
  intros Hfires Hle Hself. rewrite at_tick_unfold, Hfires, decide_True by done.
  destruct (Parallel_onRun_world p ts w) as (Hrun & Hends & _).
  set (w1 := (Parallel.onRun p ts w).2) in *.
  destruct (forEach_elapse F (Parallel.content p) w1) as (Hlog2 & _ & Hget2).
  set (w2 := forEach (Core.elapse F) (Parallel.content p) w1) in *.
  destruct (watcher_effects p w2) as (Hlog3 & Hdone3 & Hget3).
  set (w3 := (Parallel.watcher p w2).2) in *.
  assert (Hfired : ∀ c, fired F w1 c ↔ fired F w c).
  { intros c. unfold fired. by rewrite Hends. }
  assert (Hst3 : ∀ c, c ∈ Parallel.content p → status_of w3 c ≠ done ↔ ¬ fired F w c).
  { intros c Hc. assert (Hne : Parallel.self p ≠ c) by (by intros <-).
    unfold status_of. rewrite Hget3 by done. rewrite Hget2.
    destruct (decide (c ∈ Parallel.content p ∧ fired F w1 c)) as [[_ Hf]|Hn].
    - cbn. split; [done|]. intros Hnf. by apply Hfired in Hf.
    - rewrite Hrun, decide_True by done. cbn. split; [|done].
      intros _ Hf. apply Hn. split; [done|]. by apply Hfired. }
  destruct (Parallel_onEnd_effects p w3) as (targets & Hlog & Hnd & Hin & Hget).
  split.
  - unfold status_of. rewrite Hget.
    assert (Hnt : Parallel.self p ∉ targets) by (by intros [? _]%Hin).
    rewrite decide_False by done. exact Hdone3.
  - exists targets. split; [|split; [done|split]].
    + rewrite Hlog, Hlog3, Hlog2. by rewrite <- app_assoc.
    + intros c. rewrite Hin. split.
      * intros [Hc Hs]. split; [done|]. by apply Hst3.
      * intros [Hc Hs]. split; [done|]. by apply Hst3.
    + intros c Hc. unfold status_of. rewrite Hget.
      destruct (decide (c ∈ targets)) as [Ht|Ht]; [done|].
      destruct (decide (status_of w3 c = done)) as [Hd|Hd]; [done|].
      destruct Ht. by apply Hin.
Qed.

(** The parallel is done at tick [T] exactly when the watcher has been
    called by then. *)
Lemma at_tick_done (p : Parallel.t) (ts : jsval) (T : nat) (w : world) :
  status_of w (Parallel.self p) ≠ done →
  Parallel.self p ∉ Parallel.content p →
  status_of (Parallel.at_tick p ts T w) (Parallel.self p) = done
  ↔ ∃ F, (Parallel.onRun p ts w).1.2 = Some F ∧ F ≤ T.
Proof.
  intros Hnd Hself. split.
  - intros Hd. destruct ((Parallel.onRun p ts w).1.2) as [F|] eqn:Hf.
    + destruct (decide (F ≤ T)) as [Hle|Hgt]; [by exists F|].
      destruct (at_tick_before p ts T w) as [_ Hst]; [|done|congruence].
      intros F' HF'. rewrite Hf in HF'. simplify_eq. lia.
    + destruct (at_tick_before p ts T w) as [_ Hst]; [|done|congruence].
      intros F' HF'. by rewrite Hf in HF'.
  - intros (F & Hf & Hle). by destruct (at_tick_after p ts T F w Hf Hle Hself) as [? _].
Qed.

(** Among ticks of events that have all fired by [T] there is a last
    one, and among those of which one has fired there is a first. *)
Lemma last_event (w : world) (cs : list handle) (T : nat) :
  cs ≠ [] → (∀ c, c ∈ cs → fired T w c) →
  ∃ F, F ≤ T ∧ (∀ c, c ∈ cs → ∃ t, ends_at w c = Some t ∧ t ≤ F) ∧
       (∃ c, c ∈ cs ∧ ends_at w c = Some F).
Proof.
  induction cs as [|c cs IH]; intros Hne Hall; [done|].
  destruct (Hall c (list_elem_of_here _ _)) as (t & Ht & Hle).
  destruct cs as [|c' cs].
  - exists t. split; [done|]. split.
    + intros c0 ->%list_elem_of_singleton. by exists t.
    + exists c. split; [apply list_elem_of_here|done].
  - destruct IH as (F & HF & Hbound & (c0 & Hc0 & Hends)); [done| |].
    { intros c0 Hc0. apply Hall. by apply list_elem_of_further. }
    destruct (decide (t ≤ F)) as [HtF|HtF].
    + exists F. split; [done|]. split.
      * intros c1 [->|Hc1]%elem_of_cons; [by exists t|by apply Hbound].
      * exists c0. split; [by apply list_elem_of_further|done].
    + exists t. split; [done|]. split.
      * intros c1 [->|Hc1]%elem_of_cons; [by exists t|].
        destruct (Hbound c1 Hc1) as (t1 & Ht1 & Hle1). exists t1. split; [done|lia].
      * exists c. split; [apply list_elem_of_here|done].
Qed.

Lemma first_event (w : world) (cs : list handle) (T : nat) :
  (∃ c, c ∈ cs ∧ fired T w c) →
  ∃ F, F ≤ T ∧ (∃ c, c ∈ cs ∧ ends_at w c = Some F) ∧
       (∀ c t, c ∈ cs → ends_at w c = Some t → F ≤ t).
Proof.
  induction cs as [|c cs IH]; intros (c0 & Hc0 & Hf); [by apply elem_of_nil in Hc0|].
  destruct (decide (Exists (fired T w) cs)) as [Hrest%Exists_exists|Hnone].
  - destruct (IH Hrest) as (F & HF & (c1 & Hc1 & Hends) & Hmin).
    destruct (ends_at w c) as [t|] eqn:Ht.
    + destruct (decide (t < F)) as [HtF|HtF].
      * exists t. split; [lia|]. split.
        -- exists c. split; [apply list_elem_of_here|done].
        -- intros c2 t2 [->|Hc2]%elem_of_cons He2; [by simplify_eq|].
           pose proof (Hmin c2 t2 Hc2 He2). lia.
      * exists F. split; [done|]. split.
        -- exists c1. split; [by apply list_elem_of_further|done].
        -- intros c2 t2 [->|Hc2]%elem_of_cons He2; [simplify_eq; lia|by eapply Hmin].
    + exists F. split; [done|]. split.
      * exists c1. split; [by apply list_elem_of_further|done].
      * intros c2 t2 [->|Hc2]%elem_of_cons He2; [congruence|by eapply Hmin].
  - apply elem_of_cons in Hc0 as [->|Hc0];
      [|destruct Hnone; apply Exists_exists; by exists c0].
    destruct Hf as (t & Ht & Hle). exists t. split; [done|]. split.
    + exists c. split; [apply list_elem_of_here|done].
    + intros c2 t2 [->|Hc2]%elem_of_cons He2; [simplify_eq; lia|].
      destruct (decide (t2 ≤ T)) as [Hle2|Hgt2]; [|lia].
      destruct Hnone. apply Exists_exists. exists c2. split; [done|]. by exists t2.
Qed.

(** C4.  A parallel with at least one child.  In mode [all] the watcher
    installed by [onRun] calls [this.end()] at tick [T] exactly when [T]
    is the tick at which the last of the children's [end] events fires
    (so every child's event has fired, and not all of them had fired
    before).  In modes [race] and [any] it does so exactly when [T] is
    the tick of the first [end] event among the children.  When the
    parallel ends, [onEnd] calls [end('abort by parallel')] once on each
    child that is not done and on no other component, leaves the
    children that were done as they were, and is idempotent.  In time:
    a parallel that was not done when it was run is done at tick [T]
    exactly when, in mode [all], every child's [end] event has fired by
    [T], and in modes [race] and [any], some child's has; until then
    nothing is called after [onRun]; from then on the log shows
    [this.end()] followed by one [end('abort by parallel')] for each
    child whose event had not fired when the watcher was called, and
    every child is done. *)
Theorem C4_parallel_join (p : Parallel.t) (ts : jsval) (w : world) (T : nat) :
  Parallel.content p ≠ [] →
  (Parallel.mode p = mode_all →
     (Parallel.onRun p ts w).1.2 = Some T
     ↔ (∀ c, c ∈ Parallel.content p → ∃ t, ends_at w c = Some t ∧ t ≤ T) ∧
       (∃ c, c ∈ Parallel.content p ∧ ends_at w c = Some T)) ∧
  (Parallel.mode p = mode_race ∨ Parallel.mode p = mode_any →
     (Parallel.onRun p ts w).1.2 = Some T
     ↔ (∃ c, c ∈ Parallel.content p ∧ ends_at w c = Some T) ∧
       (∀ c t, c ∈ Parallel.content p → ends_at w c = Some t → T ≤ t)) ∧
  (∀ w1 : world, ∃ targets : list handle,
     log (Parallel.onEnd p w1) = log w1 ++ (abort_by_parallel <$> targets) ∧
     NoDup targets ∧
     (∀ c, c ∈ targets ↔ c ∈ Parallel.content p ∧ status_of w1 c ≠ done) ∧
     (∀ c, c ∈ Parallel.content p → status_of (Parallel.onEnd p w1) c = done) ∧
     (∀ h, h ∉ targets → get (Parallel.onEnd p w1) h = get w1 h) ∧
     Parallel.onEnd p (Parallel.onEnd p w1) = Parallel.onEnd p w1) ∧
  (status_of w (Parallel.self p) ≠ done → Parallel.self p ∉ Parallel.content p →
     (Parallel.mode p = mode_all →
        status_of (Parallel.at_tick p ts T w) (Parallel.self p) = done
        ↔ ∀ c, c ∈ Parallel.content p → fired T w c) ∧
     (Parallel.mode p = mode_race ∨ Parallel.mode p = mode_any →
        status_of (Parallel.at_tick p ts T w) (Parallel.self p) = done
        ↔ ∃ c, c ∈ Parallel.content p ∧ fired T w c) ∧
     (status_of (Parallel.at_tick p ts T w) (Parallel.self p) ≠ done →
        log (Parallel.at_tick p ts T w) = log (Parallel.onRun p ts w).2) ∧
     (∀ F, (Parallel.onRun p ts w).1.2 = Some F → F ≤ T →
        ∃ targets : list handle,
          log (Parallel.at_tick p ts T w)
          = log (Parallel.onRun p ts w).2
              ++ call_end (Parallel.self p) JSundefined JSundefined
                 :: (abort_by_parallel <$> targets) ∧
          NoDup targets ∧
          (∀ c, c ∈ targets ↔ c ∈ Parallel.content p ∧ ¬ fired F w c) ∧
          (∀ c, c ∈ Parallel.content p → status_of (Parallel.at_tick p ts T w) c = done))).
Proof.
  intros Hne.
  assert (Hall : ∀ F, Parallel.mode p = mode_all →
            (Parallel.onRun p ts w).1.2 = Some F
            ↔ (∀ c, c ∈ Parallel.content p → ∃ t, ends_at w c = Some t ∧ t ≤ F) ∧
              (∃ c, c ∈ Parallel.content p ∧ ends_at w c = Some F)).
  { intros F Hmode. rewrite Parallel_onRun_watch, Hmode. cbn [Promise_static].
    rewrite watch_all. split.
    - intros [Hall [[? _]|Hmax]]; done.
    - intros [Hall Hmax]. split; [done|by right]. }
  assert (Hfirst : ∀ F, Parallel.mode p = mode_race ∨ Parallel.mode p = mode_any →
            (Parallel.onRun p ts w).1.2 = Some F
            ↔ (∃ c, c ∈ Parallel.content p ∧ ends_at w c = Some F) ∧
              (∀ c t, c ∈ Parallel.content p → ends_at w c = Some t → F ≤ t)).
  { intros F Hmode. rewrite Parallel_onRun_watch.
    destruct Hmode as [-> | ->]; cbn [Promise_static]; [apply watch_race|apply watch_any]. }
  split; [by apply Hall|]. split; [by apply Hfirst|]. split.
  - intros w1. destruct (Parallel_onEnd_effects p w1) as (targets & Hlog & Hnd & Hin & Hget).
    assert (Hdone : ∀ c, c ∈ Parallel.content p → status_of (Parallel.onEnd p w1) c = done).
    { intros c Hc. unfold status_of. rewrite Hget.
      destruct (decide (c ∈ targets)) as [Ht|Ht]; [done|].
      destruct (decide (status_of w1 c = done)) as [Hd|Hd]; [done|].
      destruct Ht. by apply Hin. }
    exists targets. split; [done|]. split; [done|]. split; [done|]. split; [done|]. split.
    + intros h Hh. rewrite Hget. by rewrite decide_False.
    + by apply Parallel_onEnd_all_done.
  - intros Hnd Hself. split; [|split; [|split]].
    + intros Hmode. rewrite (at_tick_done p ts T w Hnd Hself). split.
      * intros (F & Hf & Hle) c Hc. apply (Hall F Hmode) in Hf as [Hbound _].
        destruct (Hbound c Hc) as (t & Ht & HtF). exists t. split; [done|lia].
      * intros Hfired. destruct (last_event w (Parallel.content p) T Hne Hfired)
          as (F & HF & Hbound & Hmax).
        exists F. split; [|done]. by apply (Hall F Hmode).
    + intros Hmode. rewrite (at_tick_done p ts T w Hnd Hself). split.
      * intros (F & Hf & Hle). apply (Hfirst F Hmode) in Hf as [(c & Hc & He) _].
        exists c. split; [done|]. by exists F.
      * intros Hsome. destruct (first_event w (Parallel.content p) T Hsome)
          as (F & HF & Hex & Hmin).
        exists F. split; [|done]. by apply (Hfirst F Hmode).
    + intros Hnot. apply at_tick_before; [|done].
      intros F Hf. destruct (decide (F ≤ T)) as [Hle|Hgt]; [|lia].
      destruct Hnot. apply (at_tick_done p ts T w Hnd Hself). by exists F.
    + intros F Hf Hle. by destruct (at_tick_after p ts T F w Hf Hle Hself) as [_ ?].
Qed.

(** ** [Loop] *)

Lemma effective_parameters_falsy (l : Loop.t) (w : world) :
  truthy (sample_n (Loop.sample l)) = false →
  Loop.effective_parameters l w = (Loop.templateParameters l, w).
Proof. intros Hf. unfold Loop.effective_parameters. by rewrite Hf. Qed.

Lemma effective_parameters_truthy (l : Loop.t) (w : world) :
  truthy (sample_n (Loop.sample l)) = true →
  (Loop.effective_parameters l w).1
  = (random_sample (Sequence.random (Loop.base l)) (Loop.templateParameters l)
       (sample_n (Loop.sample l)) (sample_replace (Loop.sample l)) (rng w)).1 ∧
  log (Loop.effective_parameters l w).2
  = log w ++ [call_sample (sample_n (Loop.sample l)) (sample_replace (Loop.sample l))].
Proof.
  intros Ht. unfold Loop.effective_parameters. rewrite Ht.
  by destruct (random_sample _ _ _ _ _).
Qed.

(** C10.  [Loop.onPrepare] asks the randomness service for a sample only
    when the configured sample count is truthy.  A count that is
    [undefined] (an absent key reads as [undefined], and it is the
    constructor's default) or 0, or any other falsy value, leaves the
    configured [templateParameters] as the effective list, unchanged and
    in their order, without a call of the service: in particular a count
    of 0 yields the full list. *)
Theorem C10_sample_only_when_truthy (l : Loop.t) (w : world) :
  (sample_n (Loop.sample l) = JSundefined ∨ sample_n (Loop.sample l) = JSnum 0 ∨
   truthy (sample_n (Loop.sample l)) = false →
     Loop.effective_parameters l w = (Loop.templateParameters l, w) ∧
     Loop.onPrepare l w
     = (let '(l1, w2) := Loop.generate l (Loop.templateParameters l) w in
        let '(r, s, w3) := Sequence.onPrepare (Loop.base l1) w2 in
        (r, Loop.with_base s l1, w3))) ∧
  (log (Loop.effective_parameters l w).2 ≠ log w ∨ rng (Loop.effective_parameters l w).2 ≠ rng w →
     truthy (sample_n (Loop.sample l)) = true) ∧
  (∀ self random o, o_sample o = None →
     sample_n (Loop.sample (Loop.new self random o)) = JSundefined).
Proof.
  split; [|split].
  - intros Hn.
    assert (Hf : truthy (sample_n (Loop.sample l)) = false).
    { destruct Hn as [-> |[-> | ?]]; done. }
    split; [by apply effective_parameters_falsy|].
    unfold Loop.onPrepare. by rewrite effective_parameters_falsy.
  - intros Hchanged. destruct (truthy (sample_n (Loop.sample l))) eqn:Ht; [done|].
    rewrite effective_parameters_falsy in Hchanged by done. by destruct Hchanged.
  - intros self random o Ho. unfold Loop.new. cbn. by rewrite Ho.
Qed.

Lemma generate_invalid (l : Loop.t) (v : jsval) (ps : list handle) (w : world) :
  Loop.template l = Invalid v →
  Loop.generate l ps w
  = (l, emit (console_warn "Missing or invalid template in loop, no content generated") w).
Proof. intros Ht. unfold Loop.generate. by rewrite Ht. Qed.

Lemma log_prepareNested_prefix (nested : list handle) (parent : handle) (w : world) :
  ∃ new, log (prepareNested nested parent w).2 = log w ++ new.
Proof.
  unfold prepareNested, forEach. rewrite map_world_prepare. cbn [snd log].
  assert (Hgrow : ∀ (f : handle → nat → world → world) xs k w0,
             (∀ x j w1, ∃ a, log (f x j w1) = log w1 ++ [a]) →
             ∃ new, log (forEachi f k xs w0) = log w0 ++ new).
  { intros f xs. induction xs as [|x xs IH]; intros k w0 Hf; cbn [forEachi].
    - exists []. by rewrite app_nil_r.
    - destruct (IH (S k) (f x k w0) Hf) as [new Hnew]. destruct (Hf x k w0) as [a Ha].
      exists (a :: new). rewrite Hnew, Ha. by rewrite <- app_assoc. }
  destruct (Hgrow (λ c _, set_parent c parent) nested 0 w) as [new1 H1].
  { intros x j w1. by eexists. }
  destruct (Hgrow (λ c i w,
      match id_of w parent with
      | None => set_id c (String_of_index i) w
      | Some a => set_id c (join_underscore a i) w
      end) nested 0 (forEachi (λ c _, set_parent c parent) 0 nested w)) as [new2 H2].
  { intros x j w1. destruct (id_of w1 parent); by eexists. }
  eexists. rewrite H2, H1. by rewrite <- !app_assoc.
Qed.

Lemma Sequence_onPrepare_log (s : Sequence.t) (w : world) :
  ∃ new, log (Sequence.onPrepare s w).2 = log w ++ new.
Proof.
  unfold Sequence.onPrepare. destruct (Sequence.shuffle s).
  - destruct (random_shuffle _ _ _) as [c r].
    destruct (log_prepareNested_prefix c (Sequence.self s) (set_rng r (emit call_shuffle w)))
      as [new Hnew].
    destruct (prepareNested _ _ _) as [p w2]. cbn [snd] in *.
    exists (call_shuffle :: new). rewrite Hnew. cbn [log set_rng emit].
    by rewrite <- app_assoc.
  - destruct (log_prepareNested_prefix (Sequence.content s) (Sequence.self s) w) as [new Hnew].
    destruct (prepareNested _ _ _) as [p w2]. by exists new.
Qed.

Lemma Sequence_onPrepare_shape (s : Sequence.t) (w : world) :
  let s' := (Sequence.onPrepare s w).1.2 in
  Sequence.self s' = Sequence.self s ∧
  Sequence.iterator s' = Some (entries (Sequence.content s')) ∧
  Sequence.stepper s' = Some (step_bound (Sequence.self s)).
Proof.
  unfold Sequence.onPrepare. destruct (Sequence.shuffle s).
  - destruct (random_shuffle _ _ _) as [c r]. by destruct (prepareNested _ _ _).
  - by destruct (prepareNested _ _ _).
Qed.

Lemma Loop_onPrepare_invalid (l : Loop.t) (v : jsval) (w : world) :
  Loop.template l = Invalid v →
  Loop.onPrepare l w
  = (let w2 := emit (console_warn "Missing or invalid template in loop, no content generated")
                    (Loop.effective_parameters l w).2 in
     ((Sequence.onPrepare (Loop.base l) w2).1.1,
      Loop.with_base (Sequence.onPrepare (Loop.base l) w2).1.2 l,
      (Sequence.onPrepare (Loop.base l) w2).2)).
Proof.
  intros Ht. unfold Loop.onPrepare.
  destruct (Loop.effective_parameters l w) as [ps w1]. rewrite (generate_invalid l v) by done.
  cbn [snd]. by destruct (Sequence.onPrepare _ _) as [[r s] w3].
Qed.

Lemma step_exhausted (s : Sequence.t) (ts synced : jsval) (w : world) :
  Sequence.iterator s = Some (entries []) →
  status_of w (Sequence.self s) ≠ done →
  log (Sequence.step s ts synced w).2
  = log w ++ [call_end (Sequence.self s) (JSstr "completion") ts].
Proof.
  intros Hit Hnd. unfold Sequence.step. rewrite decide_False by done. by rewrite Hit.
Qed.

(** C9, as amended.  A loop whose template is neither a component nor a
    function: [onPrepare] warns on the console and returns the future of
    the sequence's preparation instead of failing, and it generates
    nothing, so the content stays what it was configured to be (up to
    the shuffle, when one is requested).  The content is empty for a loop
    constructed without a [content] option; the prepared loop then ends
    with reason "completion" on its first step. *)
Theorem C9_invalid_template_amended (l : Loop.t) (v : jsval) (w : world) :
  Loop.template l = Invalid v →
  lawful_shuffle (Sequence.random (Loop.base l)) →
  (∃ p, (Loop.onPrepare l w).1.1 = ret_promise p) ∧
  console_warn "Missing or invalid template in loop, no content generated"
    ∈ log (Loop.onPrepare l w).2 ∧
  Loop.content (Loop.onPrepare l w).1.2 ≡ₚ Loop.content l ∧
  (Sequence.shuffle (Loop.base l) = false →
     Loop.content (Loop.onPrepare l w).1.2 = Loop.content l) ∧
  (Loop.content l = [] →
     Loop.content (Loop.onPrepare l w).1.2 = [] ∧
     (Loop.onPrepare l w).1.1 = ret_promise (Some (0, Fulfilled)) ∧
     ∀ ts synced w', status_of w' (Loop.self l) ≠ done →
       log (Sequence.step (Loop.base (Loop.onPrepare l w).1.2) ts synced w').2
       = log w' ++ [call_end (Loop.self l) (JSstr "completion") ts]) ∧
  (∀ self random o, o_content o = None → Loop.content (Loop.new self random o) = []).
Proof.
  intros Ht Hlaw. rewrite (Loop_onPrepare_invalid l v w Ht). cbn zeta. cbn [fst snd].
  set (w2 := emit _ (Loop.effective_parameters l w).2).
  assert (Hcontent : Loop.content (Loop.with_base (Sequence.onPrepare (Loop.base l) w2).1.2 l)
                     = if Sequence.shuffle (Loop.base l)
                       then (random_shuffle (Sequence.random (Loop.base l))
                               (Loop.content l) (rng w2)).1
                       else Loop.content l).
  { unfold Loop.content at 1. cbn [Loop.base Loop.with_base].
    apply Sequence_onPrepare_content. }
  assert (Hperm : Loop.content (Loop.with_base (Sequence.onPrepare (Loop.base l) w2).1.2 l)
                  ≡ₚ Loop.content l).
  { rewrite Hcontent. destruct (Sequence.shuffle (Loop.base l)); [apply Hlaw|done]. }
  split; [|split; [|split; [|split; [|split]]]].
  - rewrite Sequence_onPrepare_future. by eexists.
  - destruct (Sequence_onPrepare_log (Loop.base l) w2) as [new ->].
    apply elem_of_app; left. unfold w2. rewrite log_emit.
    apply elem_of_app; right. apply list_elem_of_here.
  - done.
  - intros Hsh. by rewrite Hcontent, Hsh.
  - intros Hnil. rewrite Hnil in Hperm. apply Permutation_nil_r in Hperm.
    split; [done|]. split.
    + rewrite Sequence_onPrepare_future.
      unfold Loop.content in Hperm. cbn [Loop.base Loop.with_base] in Hperm.
      by rewrite Hperm.
    + intros ts synced w' Hnd.
      destruct (Sequence_onPrepare_shape (Loop.base l) w2) as (Hself & Hit & _).
      unfold Loop.content in Hperm. cbn [Loop.base Loop.with_base] in *.
      rewrite Hperm in Hit. unfold Loop.self in *.
      rewrite step_exhausted; [by rewrite Hself|done|by rewrite Hself].
  - intros self random o Ho. unfold Loop.new, Loop.content, Sequence.new. cbn. by rewrite Ho.
Qed.

(** C9, counterexample.  A loop constructed without a template but with
    a [content] option: after [onPrepare] its content is not empty. *)
Lemma C9_invalid_template_counterexample :
  Loop.template stuffed_loop = Invalid JSnull ∧
  Loop.content (Loop.onPrepare stuffed_loop empty_world).1.2 = [1] ∧
  Loop.content (Loop.onPrepare stuffed_loop empty_world).1.2 ≠ [].
Proof.
  assert (Hcontent : Loop.content (Loop.onPrepare stuffed_loop empty_world).1.2 = [1])
    by (by vm_compute).
  split; [done|]. split; [exact Hcontent|]. by rewrite Hcontent.
Qed.

Lemma Loop_generate_base (l : Loop.t) (ps : list handle) (w : world) :
  Loop.base (Loop.generate l ps w).1
  = Loop.base (Loop.with_content (Loop.content (Loop.generate l ps w).1) l).
Proof.
  unfold Loop.generate. destruct (Loop.template l) as [t|f|v].
  - by destruct (map_world _ ps w).
  - by destruct (mapi_world _ 0 ps w).
  - cbn [fst]. unfold Loop.with_content, Loop.content. cbn [Loop.base].
    by destruct (Loop.base l).
Qed.

(** The content of the prepared loop is the generated content, shuffled
    when a shuffle is requested. *)
Lemma Loop_onPrepare_content (l : Loop.t) (w : world) :
  truthy (sample_n (Loop.sample l)) = false →
  Loop.content (Loop.onPrepare l w).1.2
  = (if Sequence.shuffle (Loop.base l)
     then (random_shuffle (Sequence.random (Loop.base l))
             (Loop.content (Loop.generate l (Loop.templateParameters l) w).1)
             (rng (Loop.generate l (Loop.templateParameters l) w).2)).1
     else Loop.content (Loop.generate l (Loop.templateParameters l) w).1).
Proof.
  intros Hn. unfold Loop.onPrepare. rewrite effective_parameters_falsy by done.
  pose proof (Loop_generate_base l (Loop.templateParameters l) w) as Hbase.
  destruct (Loop.generate l (Loop.templateParameters l) w) as [l1 w2] eqn:Hgen.
  cbn [fst snd] in *.
  pose proof (Sequence_onPrepare_content (Loop.base l1) w2) as Hc.
  destruct (Sequence.onPrepare (Loop.base l1) w2) as [[r s] w3]. cbn [fst snd] in *.
  unfold Loop.content at 1. cbn [Loop.base Loop.with_base]. rewrite Hc.
  rewrite Hbase. by cbn.
Qed.

Lemma mapi_world_after_calls (f : handle → nat → handle → world → handle * world)
    (loop : handle) (pre rest : list handle) (w : world) :
  let call := λ p i w, f p i loop (emit (call_template p i loop) w) in
  let r := mapi_world call (length pre) rest (after_calls f loop (pre ++ rest) (length pre) w) in
  length r.1 = length rest ∧
  (∀ j p, rest !! j = Some p →
     r.1 !! j = Some (call p (length pre + j)
                        (after_calls f loop (pre ++ rest) (length pre + j) w)).1) ∧
  r.2 = after_calls f loop (pre ++ rest) (length (pre ++ rest)) w.
Proof.
  cbn zeta. revert pre. induction rest as [|p rest IH]; intros pre.
  - cbn [mapi_world fst snd]. split; [done|]. split; [done|].
    by rewrite app_nil_r.
  - cbn [mapi_world].
    set (W := after_calls f loop (pre ++ p :: rest) (length pre) w).
    destruct (f p (length pre) loop (emit (call_template p (length pre) loop) W))
      as [y w1] eqn:Hcall.
    assert (Hw1 : w1 = after_calls f loop ((pre ++ [p]) ++ rest) (length (pre ++ [p])) w).
    { rewrite length_app, Nat.add_1_r. cbn [length after_calls]. rewrite <- app_assoc.
      cbn [app]. rewrite list_lookup_middle by done. fold W. by rewrite Hcall. }
    specialize (IH (pre ++ [p])). rewrite <- Hw1 in IH.
    rewrite length_app, Nat.add_1_r in IH. cbn [length] in IH.
    destruct (mapi_world _ (S (length pre)) rest w1) as [ys w2].
    cbn [fst snd] in *. destruct IH as (Hlen & Hnth & Hend).
    split; [cbn [length]; by rewrite Hlen|]. split.
    + intros [|j] q Hq.
      * cbn in Hq. injection Hq as <-. rewrite Nat.add_0_r.
        change ((y :: ys) !! 0) with (Some y). fold W. by rewrite Hcall.
      * cbn in Hq. change ((y :: ys) !! S j) with (ys !! j). rewrite (Hnth j q Hq).
        rewrite <- app_assoc. cbn [app].
        by replace (S (length pre) + j) with (length pre + S j) by lia.
    + rewrite Hend. rewrite <- app_assoc. cbn [app].
      f_equal; rewrite ?length_app; cbn [length]; lia.
Qed.

Lemma Loop_generate_factory (l : Loop.t) (f : handle → nat → handle → world → handle * world)
    (ps : list handle) (w : world) :
  Loop.template l = Factory f →
  length (Loop.content (Loop.generate l ps w).1) = length ps ∧
  (∀ i p, ps !! i = Some p →
     Loop.content (Loop.generate l ps w).1 !! i
     = Some (f p i (Loop.self l)
               (emit (call_template p i (Loop.self l)) (after_calls f (Loop.self l) ps i w))).1) ∧
  (Loop.generate l ps w).2 = after_calls f (Loop.self l) ps (length ps) w ∧
  Loop.base (Loop.generate l ps w).1
  = Loop.base (Loop.with_content (Loop.content (Loop.generate l ps w).1) l).
Proof.
  intros Ht. unfold Loop.generate. rewrite Ht.
  pose proof (mapi_world_after_calls f (Loop.self l) [] ps w) as Hspec.
  cbn zeta in Hspec. cbn [app length after_calls] in Hspec.
  destruct (mapi_world _ 0 ps w) as [cs w1]. cbn [fst snd] in *.
  destruct Hspec as (Hlen & Hnth & Hend).
  split; [done|]. split; [|split; [done|done]].
  intros i p Hp. unfold Loop.content. cbn [Loop.base Loop.with_content Sequence.content].
  by rewrite (Hnth i p Hp).
Qed.

(** C8.  A loop whose template is a function [f] and that takes no
    sample: the content generated by [onPrepare] has one entry per
    parameter record, entry [i] is the task that the call
    [f(pi, i, loop)] returned, and the calls are made in the order of the
    parameters, [loop] being the loop itself; for an [f] whose result
    does not depend on the state, the content is
    [[f(p0, 0, loop), ..., f(p(n-1), n-1, loop)]].  Preparation goes on
    with that list: it is the content of the prepared loop unless a
    shuffle is requested. *)
Theorem C8_factory_content (l : Loop.t) (f : handle → nat → handle → world → handle * world)
    (w : world) :
  Loop.template l = Factory f →
  truthy (sample_n (Loop.sample l)) = false →
  length (Loop.content (Loop.generate l (Loop.templateParameters l) w).1)
  = length (Loop.templateParameters l) ∧
  (∀ i p, Loop.templateParameters l !! i = Some p →
     Loop.content (Loop.generate l (Loop.templateParameters l) w).1 !! i
     = Some (f p i (Loop.self l)
               (emit (call_template p i (Loop.self l))
                     (after_calls f (Loop.self l) (Loop.templateParameters l) i w))).1) ∧
  ((∀ p i w1 w2, (f p i (Loop.self l) w1).1 = (f p i (Loop.self l) w2).1) →
     Loop.content (Loop.generate l (Loop.templateParameters l) w).1
     = imap (λ i p, (f p i (Loop.self l) w).1) (Loop.templateParameters l)) ∧
  Loop.content (Loop.onPrepare l w).1.2
  = (if Sequence.shuffle (Loop.base l)
     then (random_shuffle (Sequence.random (Loop.base l))
             (Loop.content (Loop.generate l (Loop.templateParameters l) w).1)
             (rng (Loop.generate l (Loop.templateParameters l) w).2)).1
     else Loop.content (Loop.generate l (Loop.templateParameters l) w).1).
Proof.
  intros Ht Hn.
  destruct (Loop_generate_factory l f (Loop.templateParameters l) w Ht)
    as (Hlen & Hnth & Hend & Hbase).
  split; [done|]. split; [done|]. split.
  - intros Hpure. apply list_eq. intros i. rewrite list_lookup_imap.
    destruct (Loop.templateParameters l !! i) as [p|] eqn:Hp; cbn.
    + rewrite (Hnth i p Hp). f_equal. apply Hpure.
    + apply lookup_ge_None. rewrite Hlen. by apply lookup_ge_None.
  - by apply Loop_onPrepare_content.
Qed.

(** *** Cloning a prototype *)
















(** ** The theorems at concrete inputs *)

(** C3 at the sequence over one task, prepared and marked running: its
    first step makes the task current, subscribes the stepper and runs
    the task. *)
Lemma C3_step_witness :
  Sequence.iterator lone_prepared.1 = Some (entries [1]) ∧
  status_of (Core.mark running 0 lone_prepared.2) 0 ≠ done ∧
  Sequence.currentPosition lone_running.1 = Some 0 ∧
  Sequence.currentComponent lone_running.1 = Some 1 ∧
  log lone_running.2
  = log lone_prepared.2 ++ [call_on 1 "after:end" (Some (step_bound 0));
                            call_run 1 (JSnum 0) JSundefined].
Proof.
  assert (Hnd : status_of (Core.mark running 0 lone_prepared.2) 0 ≠ done) by (by vm_compute).
  destruct (C3_step lone_prepared.1 (entries [1]) (JSnum 0) JSundefined
              (Core.mark running 0 lone_prepared.2) eq_refl) as [_ Hstep].
  specialize (Hstep Hnd).
  split; [reflexivity|]. split; [exact Hnd|].
  unfold lone_running, Sequence.onRun.
  destruct (Sequence.step lone_prepared.1 (JSnum 0) JSundefined
              (Core.mark running 0 lone_prepared.2)) as [[p s'] w'].
  cbn [fst snd] in *.
  destruct Hstep as (Hpos & Hcur & Hlog & _).
  split; [exact Hpos|]. split; [exact Hcur|]. exact Hlog.
Defined.

(** C4 at the parallel over three tasks whose [end] events fire at ticks
    5, 2 and 9.  In mode [all] the watcher fires at tick 9, with the last
    event: at tick 8, when two of the tasks have ended, the parallel is
    not done, at tick 9 it is.  In mode [race] the watcher fires at tick
    2, with the first event, and [onEnd] cancels the other two tasks,
    each once, and not the task that has ended. *)
Lemma C4_parallel_join_witness :
  Parallel.content (trio mode_all) ≠ [] ∧
  (Parallel.onRun (trio mode_all) (JSnum 0) trio_world).1.2 = Some 9 ∧
  (∀ c, c ∈ Parallel.content (trio mode_all) → ∃ t, ends_at trio_world c = Some t ∧ t ≤ 9) ∧
  (Parallel.onRun (trio mode_race) (JSnum 0) trio_world).1.2 = Some 2 ∧
  (∀ c t, c ∈ Parallel.content (trio mode_race) → ends_at trio_world c = Some t → 2 ≤ t) ∧
  log (Parallel.onEnd (trio mode_race) (Core.end_ 2 JSundefined JSundefined trio_world).2)
  = [call_end 2 JSundefined JSundefined; abort_by_parallel 1; abort_by_parallel 3] ∧
  status_of (Parallel.at_tick (trio mode_all) (JSnum 0) 8 trio_world) 0 ≠ done ∧
  status_of (Parallel.at_tick (trio mode_all) (JSnum 0) 9 trio_world) 0 = done ∧
  status_of (Parallel.at_tick (trio mode_race) (JSnum 0) 1 trio_world) 0 ≠ done ∧
  log (Parallel.at_tick (trio mode_race) (JSnum 0) 2 trio_world)
  = log (Parallel.onRun (trio mode_race) (JSnum 0) trio_world).2
    ++ [call_end 0 JSundefined JSundefined; abort_by_parallel 1; abort_by_parallel 3].
Proof.
  assert (Hne : Parallel.content (trio mode_all) ≠ []) by done.
  assert (Hall : (Parallel.onRun (trio mode_all) (JSnum 0) trio_world).1.2 = Some 9)
    by (by vm_compute).
  assert (Hrace : (Parallel.onRun (trio mode_race) (JSnum 0) trio_world).1.2 = Some 2)
    by (by vm_compute).
  assert (Hnd : status_of trio_world 0 ≠ done) by (by vm_compute).
  assert (Hself : 0 ∉ [1; 2; 3]) by (apply (bool_decide_unpack _); by vm_compute).
  destruct (C4_parallel_join (trio mode_all) (JSnum 0) trio_world 9 Hne)
    as (Hall' & _ & _ & Htime9).
  destruct (C4_parallel_join (trio mode_all) (JSnum 0) trio_world 8 Hne)
    as (_ & _ & _ & Htime8).
  destruct (C4_parallel_join (trio mode_race) (JSnum 0) trio_world 2 Hne)
    as (_ & Hrace' & _ & _).
  destruct (C4_parallel_join (trio mode_race) (JSnum 0) trio_world 1 Hne)
    as (_ & _ & _ & Htime1).
  apply (Hall' eq_refl) in Hall as Hlast. apply (Hrace' (or_introl eq_refl)) in Hrace as Hfirst.
  destruct (Htime9 Hnd Hself) as (Hdone9 & _).
  destruct (Htime8 Hnd Hself) as (Hdone8 & _).
  destruct (Htime1 Hnd Hself) as (_ & Hdone1 & _).
  split; [exact Hne|]. split; [exact Hall|]. split; [exact (proj1 Hlast)|].
  split; [exact Hrace|]. split; [exact (proj2 Hfirst)|]. split; [by vm_compute|].
  split.
  { intros Hd. pose proof (proj1 (Hdone8 eq_refl) Hd) as Hfired.
    destruct (Hfired 3) as (t & Ht & Hle); [by apply (bool_decide_unpack _); vm_compute|].
    vm_compute in Ht. assert (t = 9) by congruence. lia. }
  split.
  { exact (proj2 (Hdone9 eq_refl) (proj1 Hlast)). }
  split.
  { intros Hd. destruct (proj1 (Hdone1 (or_introl eq_refl)) Hd) as (c & Hc & t & Ht & Hle).
    pose proof (proj2 Hfirst c t Hc Ht). lia. }
  by vm_compute.
Defined.

(** C5 at three children of a parent with identifier "P", and of a
    parent without identifier. *)
Lemma C5_prepareNested_ids_witness :
  NoDup [1; 2; 3] ∧ (0 ∉ [1; 2; 3]) ∧
  id_of (prepareNested [1; 2; 3] 0 named_world).2 <$> [1; 2; 3]
  = [Some "P_0"; Some "P_1"; Some "P_2"] ∧
  id_of (prepareNested [1; 2; 3] 0 empty_world).2 <$> [1; 2; 3]
  = [Some "0"; Some "1"; Some "2"] ∧
  parent_of (prepareNested [1; 2; 3] 0 named_world).2 <$> [1; 2; 3]
  = [Some 0; Some 0; Some 0].
Proof.
  assert (Hnd : NoDup [1; 2; 3]) by (apply (bool_decide_unpack _); by vm_compute).
  assert (Hpar : 0 ∉ [1; 2; 3]) by (apply (bool_decide_unpack _); by vm_compute).
  destruct (C5_prepareNested_ids [1; 2; 3] 0 named_world Hnd Hpar) as (_ & Hnamed & _).
  destruct (C5_prepareNested_ids [1; 2; 3] 0 empty_world Hnd Hpar) as (_ & Hroot & _).
  destruct (Hnamed 0 1 eq_refl) as [Hp0 Hn0]. destruct (Hnamed 1 2 eq_refl) as [Hp1 Hn1].
  destruct (Hnamed 2 3 eq_refl) as [Hp2 Hn2].
  destruct (Hroot 0 1 eq_refl) as [_ Hr0]. destruct (Hroot 1 2 eq_refl) as [_ Hr1].
  destruct (Hroot 2 3 eq_refl) as [_ Hr2].
  split; [exact Hnd|]. split; [exact Hpar|].
  cbn [fmap list_fmap].
  rewrite Hn0, Hn1, Hn2, Hr0, Hr1, Hr2, Hp0, Hp1, Hp2.
  split; [by vm_compute|]. split; [by vm_compute|]. reflexivity.
Defined.


(** C8 at a factory that hands out the objects 20, 21, 22 for three
    parameter records, with a configured sample count of 0. *)
Lemma C8_factory_content_witness :
  Loop.template zero_sample_loop = Factory counting_factory ∧
  truthy (sample_n (Loop.sample zero_sample_loop)) = false ∧
  Loop.content (Loop.generate zero_sample_loop [10; 11; 12] empty_world).1 = [20; 21; 22] ∧
  Loop.content (Loop.onPrepare zero_sample_loop empty_world).1.2 = [20; 21; 22].
Proof.
  assert (Ht : Loop.template zero_sample_loop = Factory counting_factory) by done.
  assert (Hn : truthy (sample_n (Loop.sample zero_sample_loop)) = false) by done.
  destruct (C8_factory_content zero_sample_loop counting_factory empty_world Ht Hn)
    as (_ & _ & Hpure & Hprep).
  split; [exact Ht|]. split; [exact Hn|]. split.
  - apply Hpure. reflexivity.
  - rewrite Hprep. cbn [Loop.base zero_sample_loop Loop.new Sequence.new Sequence.shuffle
                        default from_option o_shuffle id].
    apply Hpure. reflexivity.
Defined.

Lemma fixed_random_lawful : lawful_shuffle fixed_random.
Proof. intros l s. cbn. apply reverse_Permutation. Qed.

(** C9 at a loop constructed without any option: it warns, its content
    stays empty, and its first step ends it with reason "completion". *)
Lemma C9_invalid_template_witness :
  Loop.template bare_loop = Invalid JSnull ∧
  lawful_shuffle (Sequence.random (Loop.base bare_loop)) ∧
  Loop.content (Loop.onPrepare bare_loop empty_world).1.2 = [] ∧
  (Loop.onPrepare bare_loop empty_world).1.1 = ret_promise (Some (0, Fulfilled)) ∧
  log (Loop.onPrepare bare_loop empty_world).2
  = [console_warn "Missing or invalid template in loop, no content generated"] ∧
  log (Sequence.step (Loop.base (Loop.onPrepare bare_loop empty_world).1.2)
         (JSnum 0) JSundefined empty_world).2
  = [call_end 0 (JSstr "completion") (JSnum 0)].
Proof.
  assert (Ht : Loop.template bare_loop = Invalid JSnull) by done.
  destruct (C9_invalid_template_amended bare_loop JSnull empty_world Ht fixed_random_lawful)
    as (_ & _ & _ & _ & Hempty & _).
  destruct (Hempty eq_refl) as (Hcontent & Hfuture & Hstep).
  split; [exact Ht|]. split; [exact fixed_random_lawful|]. split; [exact Hcontent|].
  split; [exact Hfuture|]. split; [by vm_compute|].
  apply (Hstep (JSnum 0) JSundefined empty_world). by vm_compute.
Defined.

(** * Further properties *)

(** ** A sequence walks its content in order *)

Lemma status_of_on c ev l w h : status_of (Core.on c ev l w) h = status_of w h.
Proof.
  unfold status_of, Core.on. rewrite get_emit.
  destruct (decide (c = h)) as [->|Hne]; [by rewrite get_upd_eq|by rewrite get_upd_ne].
Qed.

Lemma task_on c ev l w h : c_task (get (Core.on c ev l w) h) = c_task (get w h).
Proof.
  unfold Core.on. rewrite get_emit.
  destruct (decide (c = h)) as [->|Hne]; [by rewrite get_upd_eq|by rewrite get_upd_ne].
Qed.

Lemma task_end c reason ts w h : c_task (get (Core.end_ c reason ts w).2 h) = c_task (get w h).
Proof.
  unfold Core.end_. cbn [snd]. rewrite get_emit.
  destruct (decide (c = h)) as [->|Hne]; [by rewrite get_upd_eq|by rewrite get_upd_ne].
Qed.

Lemma status_of_run c ts synced w h :
  status_of (Core.run c ts synced w).2 h = if decide (h = c) then running else status_of w h.
Proof.
  unfold status_of, Core.run. cbn [snd]. rewrite get_emit.
  destruct (decide (h = c)) as [->|Hne]; [by rewrite get_upd_eq|by rewrite get_upd_ne].
Qed.

Lemma task_run c ts synced w h : c_task (get (Core.run c ts synced w).2 h) = c_task (get w h).
Proof.
  unfold Core.run. cbn [snd]. rewrite get_emit.
  destruct (decide (c = h)) as [->|Hne]; [by rewrite get_upd_eq|by rewrite get_upd_ne].
Qed.

Lemma get_run_ne c ts synced w h : c ≠ h → get (Core.run c ts synced w).2 h = get w h.
Proof. intros Hne. unfold Core.run. cbn [snd]. by rewrite get_emit, get_upd_ne. Qed.

Lemma log_run c ts synced w : log (Core.run c ts synced w).2 = log w ++ [call_run c ts synced].
Proof. reflexivity. Qed.

(** The store after the step onto the child [c]. *)
Lemma visit_world (st : option listener) (c : handle) (ts synced : jsval) (w : world) :
  let w1 := (Core.run c ts synced (Core.on c "after:end" st w)).2 in
  log w1 = log w ++ visit st c (ts, synced) ∧
  (∀ h, c_task (get w1 h) = c_task (get w h)) ∧
  (∀ h, status_of w1 h = if decide (h = c) then running else status_of w h) ∧
  (∀ h, h ≠ c → get w1 h = get w h).
Proof.
  cbn zeta. split; [|split; [|split]].
  - rewrite log_run. unfold Core.on, visit. rewrite log_emit, log_upd. cbn [fst snd].
    by rewrite <- app_assoc.
  - intros h. by rewrite task_run, task_on.
  - intros h. rewrite status_of_run. destruct (decide (h = c)); [done|apply status_of_on].
  - intros h Hne. rewrite get_run_ne by done. unfold Core.on. by rewrite get_emit, get_upd_ne.
Qed.

(** One step of a sequence whose cursor stands at index [k] of [a]. *)
Lemma step_at (s : Sequence.t) (a : list handle) (k : nat) (ts synced : jsval) (w : world) :
  Sequence.iterator s = Some {| it_array := Some a; it_next := k |} →
  status_of w (Sequence.self s) ≠ done →
  match a !! k with
  | Some c =>
      Sequence.step s ts synced w
      = (run_future (c_task (get w c)),
         {| Sequence.self := Sequence.self s; Sequence.random := Sequence.random s;
            Sequence.content := Sequence.content s; Sequence.shuffle := Sequence.shuffle s;
            Sequence.currentComponent := Some c; Sequence.currentPosition := Some k;
            Sequence.iterator := Some {| it_array := Some a; it_next := S k |};
            Sequence.stepper := Sequence.stepper s |},
         (Core.run c ts synced (Core.on c "after:end" (Sequence.stepper s) w)).2)
  | None =>
      Sequence.step s ts synced w
      = (end_future (c_task (get w (Sequence.self s))),
         {| Sequence.self := Sequence.self s; Sequence.random := Sequence.random s;
            Sequence.content := Sequence.content s; Sequence.shuffle := Sequence.shuffle s;
            Sequence.currentComponent := Sequence.currentComponent s;
            Sequence.currentPosition := Sequence.currentPosition s;
            Sequence.iterator := Some {| it_array := None; it_next := k |};
            Sequence.stepper := Sequence.stepper s |},
         (Core.end_ (Sequence.self s) (JSstr "completion") ts w).2)
  end.
Proof.
  intros Hit Hnd. unfold Sequence.step. rewrite decide_False by done. rewrite Hit.
  unfold next. cbn [it_array it_next].
  destruct (a !! k) as [c|]; [|done].
  unfold Core.run. cbn [fst snd]. by rewrite task_on.
Qed.

Lemma steps_walk (a : list handle) (more : list (jsval * jsval)) (last : jsval * jsval)
    (rest : list handle) :
  ∀ (k : nat) (s : Sequence.t) (calls : list (jsval * jsval)) (w : world),
    Sequence.iterator s = Some {| it_array := Some a; it_next := k |} →
    drop k a = rest →
    status_of w (Sequence.self s) ≠ done →
    length calls = length rest →
    (steps (calls ++ last :: more) s w).1.1
    = ((λ c, run_future (c_task (get w c))) <$> rest)
        ++ end_future (c_task (get w (Sequence.self s)))
        :: replicate (length more)
             (Promise.thrown "Sequence ended, can't take any more steps") ∧
    log (steps (calls ++ last :: more) s w).2
    = log w ++ concat (zip_with (visit (Sequence.stepper s)) rest calls)
            ++ [call_end (Sequence.self s) (JSstr "completion") last.1] ∧
    status_of (steps (calls ++ last :: more) s w).2 (Sequence.self s) = done ∧
    Sequence.currentComponent (steps (calls ++ last :: more) s w).1.2
    = match list.last rest with
      | Some c => Some c
      | None => Sequence.currentComponent s
      end.
Proof.
  induction rest as [|c rest IH]; intros k s calls w Hit Hdrop Hnd Hlen.
  - destruct calls; [|done]. cbn [app steps].
    pose proof (step_at s a k last.1 last.2 w Hit Hnd) as Hstep.
    rewrite (lookup_ge_None_2 a k) in Hstep.
    2:{ apply drop_nil_inv in Hdrop as Hle. done. }
    destruct last as [ts synced]. cbn [fst snd] in *. rewrite Hstep.
    rewrite steps_done by apply status_of_end.
    cbn [fst snd fmap list_fmap zip_with concat app list.last].
    split; [done|]. split; [by rewrite log_end|]. split; [apply status_of_end|done].
  - destruct calls as [|[ts synced] calls]; [done|]. cbn [app steps].
    assert (Hk : a !! k = Some c).
    { rewrite <- (Nat.add_0_r k), <- lookup_drop, Hdrop. done. }
    pose proof (step_at s a k ts synced w Hit Hnd) as Hstep. rewrite Hk in Hstep.
    rewrite Hstep. clear Hstep.
    set (s1 := Sequence.Make _ _ _ _ _ _ _ _).
    set (w1 := (Core.run c ts synced (Core.on c "after:end" (Sequence.stepper s) w)).2).
    assert (Hdrop1 : drop (S k) a = rest).
    { rewrite (drop_S a c k Hk) in Hdrop. by injection Hdrop. }
    destruct (visit_world (Sequence.stepper s) c ts synced w) as (Hlog1 & Htask & Hst1 & _).
    fold w1 in Hlog1, Htask, Hst1.
    assert (Hnd1 : status_of w1 (Sequence.self s1) ≠ done).
    { rewrite Hst1. by destruct (decide (Sequence.self s1 = c)). }
    destruct (IH (S k) s1 calls w1 eq_refl Hdrop1 Hnd1 ltac:(by injection Hlen))
      as (Hres & Hlog & Hst & Hcur).
    destruct (steps (calls ++ last :: more) s1 w1) as [[ps s2] w2]. cbn [fst snd] in *.
    split; [|split; [|split]].
    + rewrite Hres. cbn [fmap list_fmap app]. f_equal. f_equal; [|by rewrite Htask].
      apply list_fmap_ext. intros _ h _. by rewrite Htask.
    + rewrite Hlog, Hlog1. cbn [zip_with concat]. by rewrite <- !app_assoc.
    + done.
    + rewrite Hcur. rewrite last_cons. by destruct (list.last rest).
Qed.

(** X1.  A prepared sequence that is not done, stepped once per child and
    once more: the steps move through the content in list order, each
    child once; each subscribes the stepper to the child and runs it, and
    returns the future of that run; the step after the last child ends
    the sequence with reason "completion"; every step after that fails
    with the state error and does nothing.  No step unsubscribes the
    stepper. *)
Theorem X1_sequence_walks_content (s : Sequence.t) (calls more : list (jsval * jsval))
    (last : jsval * jsval) (w : world) :
  Sequence.iterator s = Some (entries (Sequence.content s)) →
  status_of w (Sequence.self s) ≠ done →
  length calls = length (Sequence.content s) →
  (steps (calls ++ last :: more) s w).1.1
  = ((λ c, run_future (c_task (get w c))) <$> Sequence.content s)
      ++ end_future (c_task (get w (Sequence.self s)))
      :: replicate (length more) (Some (0, Rejected "Sequence ended, can't take any more steps")) ∧
  log (steps (calls ++ last :: more) s w).2
  = log w ++ concat (zip_with (visit (Sequence.stepper s)) (Sequence.content s) calls)
          ++ [call_end (Sequence.self s) (JSstr "completion") last.1] ∧
  status_of (steps (calls ++ last :: more) s w).2 (Sequence.self s) = done ∧
  Sequence.currentComponent (steps (calls ++ last :: more) s w).1.2
  = match list.last (Sequence.content s) with
    | Some c => Some c
    | None => Sequence.currentComponent s
    end.
Proof.
  intros Hit Hnd Hlen.
  by apply (steps_walk (Sequence.content s) more last (Sequence.content s) 0 s calls w).
Qed.

Lemma X1_sequence_walks_content_witness :
  Sequence.iterator pair_prepared.1 = Some (entries (Sequence.content pair_prepared.1)) ∧
  status_of pair_prepared.2 (Sequence.self pair_prepared.1) ≠ done ∧
  log (steps [(JSnum 0, JSundefined); (JSnum 1, JSbool true); (JSnum 2, JSbool true);
              (JSnum 3, JSundefined)] pair_prepared.1 pair_prepared.2).2
  = log pair_prepared.2
    ++ [call_on 1 "after:end" (Some (step_bound 0)); call_run 1 (JSnum 0) JSundefined;
        call_on 2 "after:end" (Some (step_bound 0)); call_run 2 (JSnum 1) (JSbool true);
        call_end 0 (JSstr "completion") (JSnum 2)].
Proof.
  assert (Hit : Sequence.iterator pair_prepared.1
                = Some (entries (Sequence.content pair_prepared.1))) by done.
  assert (Hnd : status_of pair_prepared.2 (Sequence.self pair_prepared.1) ≠ done)
    by (by vm_compute).
  destruct (X1_sequence_walks_content pair_prepared.1
              [(JSnum 0, JSundefined); (JSnum 1, JSbool true)] [(JSnum 3, JSundefined)]
              (JSnum 2, JSbool true) pair_prepared.2 Hit Hnd eq_refl) as (_ & Hlog & _).
  split; [exact Hit|]. split; [exact Hnd|]. exact Hlog.
Defined.

(** ** A sequence that is ended part-way *)

(** The first steps of a sequence, as long as the cursor stays inside
    the content. *)
Lemma steps_prefix (a : list handle) :
  ∀ (calls : list (jsval * jsval)) (k : nat) (s : Sequence.t) (w : world),
    Sequence.iterator s = Some {| it_array := Some a; it_next := k |} →
    status_of w (Sequence.self s) ≠ done →
    k + length calls ≤ length a →
    (steps calls s w).1.1
    = ((λ c, run_future (c_task (get w c))) <$> take (length calls) (drop k a)) ∧
    Sequence.stepper (steps calls s w).1.2 = Sequence.stepper s ∧
    (∀ c, calls ≠ [] → a !! (k + length calls - 1) = Some c →
       Sequence.currentComponent (steps calls s w).1.2 = Some c ∧
       Sequence.currentPosition (steps calls s w).1.2 = Some (k + length calls - 1)) ∧
    log (steps calls s w).2
    = log w ++ concat (zip_with (visit (Sequence.stepper s)) (drop k a) calls) ∧
    (∀ h, status_of (steps calls s w).2 h
          = if decide (h ∈ take (length calls) (drop k a)) then running else status_of w h) ∧
    (∀ h, h ∉ take (length calls) (drop k a) → get (steps calls s w).2 h = get w h).
Proof.
  induction calls as [|[ts synced] calls IH]; intros k s w Hit Hnd Hlen.
  - cbn [steps fst snd length take fmap list_fmap]. rewrite zip_with_nil_r.
    cbn [concat]. rewrite app_nil_r. split; [done|]. split; [done|]. split; [done|].
    split; [done|]. split; [|done]. intros h. by rewrite decide_False by apply not_elem_of_nil.
  - cbn [length] in Hlen. cbn [steps].
    destruct (lookup_lt_is_Some_2 a k ltac:(lia)) as [c Hk].
    pose proof (step_at s a k ts synced w Hit Hnd) as Hstep. rewrite Hk in Hstep.
    rewrite Hstep. clear Hstep.
    set (s1 := Sequence.Make _ _ _ _ _ _ _ _).
    set (w1 := (Core.run c ts synced (Core.on c "after:end" (Sequence.stepper s) w)).2).
    destruct (visit_world (Sequence.stepper s) c ts synced w) as (Hlog1 & Htask & Hst1 & Hget1).
    fold w1 in Hlog1, Htask, Hst1, Hget1.
    assert (Hnd1 : status_of w1 (Sequence.self s1) ≠ done).
    { rewrite Hst1. by destruct (decide (Sequence.self s1 = c)). }
    destruct (IH (S k) s1 w1 eq_refl Hnd1 ltac:(lia))
      as (Hres & Hstepper & Hcur & Hlog & Hst & Hget).
    rewrite (drop_S a c k Hk). cbn [length take].
    destruct (steps calls s1 w1) as [[ps s2] w2] eqn:Hsteps. cbn [fst snd] in *.
    split; [|split; [|split; [|split; [|split]]]].
    + rewrite Hres. cbn [fmap list_fmap]. f_equal.
      apply list_fmap_ext. intros _ h _. by rewrite Htask.
    + done.
    + intros c' _ Hc'. destruct calls as [|call calls].
      * cbn [steps] in Hsteps. simplify_eq. cbn [length] in *.
        replace (k + 1 - 1) with k in * by lia.
        rewrite Hk in Hc'. by simplify_eq.
      * replace (k + S (length (call :: calls)) - 1)
          with (S k + length (call :: calls) - 1) in * by (cbn [length]; lia).
        by apply Hcur.
    + rewrite Hlog, Hlog1. cbn [zip_with concat]. by rewrite <- !app_assoc.
    + intros h. rewrite Hst, Hst1.
      destruct (decide (h = c)) as [->|Hne].
      * rewrite (decide_True (P := c ∈ c :: _)) by apply list_elem_of_here.
        by destruct (decide (c ∈ take (length calls) (drop (S k) a))).
      * destruct (decide (h ∈ take (length calls) (drop (S k) a))) as [Hin|Hnin].
        -- by rewrite decide_True by by apply list_elem_of_further.
        -- rewrite decide_False; [done|]. by intros [?|?]%elem_of_cons.
    + intros h Hh. apply not_elem_of_cons in Hh as [Hne Hh].
      rewrite Hget by done. by apply Hget1.
Qed.

(** X13.  A sequence that is ended before it has run through: after the
    steps onto the children at positions [0] to [k], the child at
    position [k] is the current one and is running; [onEnd] then takes
    the stepper off that child, ends it with reason "abort by sequence"
    and calls nothing else.  The children that have not been reached are
    never subscribed to, run or ended: they are as they were before the
    first step. *)
Theorem X13_sequence_interrupted (s : Sequence.t) (pre : list (jsval * jsval))
    (call : jsval * jsval) (c : handle) (w : world) :
  Sequence.iterator s = Some (entries (Sequence.content s)) →
  status_of w (Sequence.self s) ≠ done →
  Sequence.content s !! length pre = Some c →
  Sequence.currentComponent (steps (pre ++ [call]) s w).1.2 = Some c ∧
  Sequence.currentPosition (steps (pre ++ [call]) s w).1.2 = Some (length pre) ∧
  status_of (steps (pre ++ [call]) s w).2 c = running ∧
  log (Sequence.onEnd (steps (pre ++ [call]) s w).1.2 (steps (pre ++ [call]) s w).2)
  = log w
      ++ concat (zip_with (visit (Sequence.stepper s)) (Sequence.content s) (pre ++ [call]))
      ++ [call_off c "after:end" (Sequence.stepper s);
          call_end c (JSstr "abort by sequence") JSundefined] ∧
  status_of (Sequence.onEnd (steps (pre ++ [call]) s w).1.2 (steps (pre ++ [call]) s w).2) c
  = done ∧
  (∀ d, d ∉ take (S (length pre)) (Sequence.content s) →
     get (Sequence.onEnd (steps (pre ++ [call]) s w).1.2 (steps (pre ++ [call]) s w).2) d
     = get w d).
Proof.
  intros Hit Hnd Hc.
  assert (Hlen : 0 + length (pre ++ [call]) ≤ length (Sequence.content s)).
  { rewrite length_app. cbn [length]. apply lookup_lt_Some in Hc. lia. }
  destruct (steps_prefix (Sequence.content s) (pre ++ [call]) 0 s w Hit Hnd Hlen)
    as (_ & Hstepper & Hcur & Hlog & Hst & Hget).
  rewrite drop_0 in Hlog, Hget, Hst.
  assert (Hidx : 0 + length (pre ++ [call]) - 1 = length pre).
  { rewrite length_app. cbn [length]. lia. }
  rewrite Hidx in Hcur.
  assert (Hsz : length (pre ++ [call]) = S (length pre)).
  { rewrite length_app. cbn [length]. lia. }
  rewrite Hsz in Hget, Hst.
  destruct (Hcur c ltac:(by destruct pre) Hc) as [Hcc Hcp].
  assert (Hin : c ∈ take (S (length pre)) (Sequence.content s)).
  { apply list_elem_of_lookup. exists (length pre). rewrite lookup_take_lt by lia. done. }
  assert (Hrun : status_of (steps (pre ++ [call]) s w).2 c = running).
  { by rewrite Hst, decide_True. }
  split; [done|]. split; [done|]. split; [done|].
  unfold Sequence.onEnd. rewrite Hcc, Hstepper.
  rewrite decide_True by (by rewrite Hrun).
  split; [|split].
  - by rewrite log_end, log_off, Hlog, <- !app_assoc.
  - apply status_of_end.
  - intros d Hd.
    assert (Hne : c ≠ d) by (by intros <-).
    rewrite get_end_ne by done. unfold Core.off. rewrite get_emit, get_upd_ne by done.
    by apply Hget.
Qed.

Lemma X13_sequence_interrupted_witness :
  Sequence.iterator pair_prepared.1 = Some (entries (Sequence.content pair_prepared.1)) ∧
  status_of pair_prepared.2 (Sequence.self pair_prepared.1) ≠ done ∧
  Sequence.content pair_prepared.1 !! 0 = Some 1 ∧
  log (Sequence.onEnd (steps [(JSnum 0, JSundefined)] pair_prepared.1 pair_prepared.2).1.2
                      (steps [(JSnum 0, JSundefined)] pair_prepared.1 pair_prepared.2).2)
  = log pair_prepared.2
    ++ [call_on 1 "after:end" (Some (step_bound 0)); call_run 1 (JSnum 0) JSundefined;
        call_off 1 "after:end" (Some (step_bound 0));
        call_end 1 (JSstr "abort by sequence") JSundefined] ∧
  get (Sequence.onEnd (steps [(JSnum 0, JSundefined)] pair_prepared.1 pair_prepared.2).1.2
                      (steps [(JSnum 0, JSundefined)] pair_prepared.1 pair_prepared.2).2) 2
  = get pair_prepared.2 2.
Proof.
  assert (Hit : Sequence.iterator pair_prepared.1
                = Some (entries (Sequence.content pair_prepared.1))) by done.
  assert (Hnd : status_of pair_prepared.2 (Sequence.self pair_prepared.1) ≠ done)
    by (by vm_compute).
  assert (Hc : Sequence.content pair_prepared.1 !! length (@nil (jsval * jsval)) = Some 1)
    by done.
  destruct (X13_sequence_interrupted pair_prepared.1 [] (JSnum 0, JSundefined) 1
              pair_prepared.2 Hit Hnd Hc) as (_ & _ & _ & Hlog & _ & Hframe).
  split; [exact Hit|]. split; [exact Hnd|]. split; [exact Hc|]. split.
  - exact Hlog.
  - apply Hframe. apply (bool_decide_unpack _). by vm_compute.
Defined.

(** ** Preparation of a sequence *)

Lemma forEachi_proj {B} (g : component → B) (h : handle) (f : handle → nat → world → world)
    (xs : list handle) (k : nat) (w : world) :
  (∀ x j w, g (get (f x j w) h) = g (get w h)) →
  g (get (forEachi f k xs w) h) = g (get w h).
Proof.
  intros Hf. revert k w. induction xs as [|x xs IH]; intros k w; cbn [forEachi]; [done|].
  by rewrite IH, Hf.
Qed.

Lemma rest_of_set_parent x p w h : rest_of (get (set_parent x p w) h) = rest_of (get w h).
Proof.
  unfold set_parent. rewrite get_emit.
  destruct (decide (x = h)) as [->|Hne]; [by rewrite get_upd_eq|by rewrite get_upd_ne].
Qed.

Lemma rest_of_set_id x i w h : rest_of (get (set_id x i w) h) = rest_of (get w h).
Proof.
  unfold set_id. rewrite get_emit.
  destruct (decide (x = h)) as [->|Hne]; [by rewrite get_upd_eq|by rewrite get_upd_ne].
Qed.

(** [prepareNested] writes parent links and identifiers only: every
    other property of every component, the parameter records and the
    state of the randomness service stay as they were. *)
Lemma prepareNested_frame (nested : list handle) (parent : handle) (w : world) :
  (∀ h, rest_of (get (prepareNested nested parent w).2 h) = rest_of (get w h)) ∧
  bags (prepareNested nested parent w).2 = bags w ∧
  rng (prepareNested nested parent w).2 = rng w.
Proof.
  unfold prepareNested, forEach. rewrite map_world_prepare. cbn [snd bags rng].
  destruct (forEach_set_parent parent nested 0 w) as (_ & _ & Hb1 & Hr1).
  split; [|split].
  - intros h. unfold get at 1. cbn [comps]. fold (get (forEachi (λ c i w0,
      match id_of w0 parent with
      | Some a => set_id c (join_underscore a i) w0
      | None => set_id c (String_of_index i) w0
      end) 0 nested (forEachi (λ x _, set_parent x parent) 0 nested w)) h).
    rewrite (forEachi_proj rest_of).
    + apply (forEachi_proj rest_of). intros x j w0. apply rest_of_set_parent.
    + intros x j w0. destruct (id_of w0 parent); apply rest_of_set_id.
  - rewrite <- Hb1.
    assert (Hb : ∀ (f : handle → nat → world → world) xs k w0,
               (∀ x j w1, bags (f x j w1) = bags w1) → bags (forEachi f k xs w0) = bags w0).
    { intros f xs. induction xs as [|x xs IH]; intros k w0 Hf; cbn [forEachi]; [done|].
      by rewrite IH, Hf. }
    apply Hb. intros x j w1. by destruct (id_of w1 parent).
  - rewrite <- Hr1.
    assert (Hr : ∀ (f : handle → nat → world → world) xs k w0,
               (∀ x j w1, rng (f x j w1) = rng w1) → rng (forEachi f k xs w0) = rng w0).
    { intros f xs. induction xs as [|x xs IH]; intros k w0 Hf; cbn [forEachi]; [done|].
      by rewrite IH, Hf. }
    apply Hr. intros x j w1. by destruct (id_of w1 parent).
Qed.

Lemma Sequence_onPrepare_world (s : Sequence.t) (w : world) :
  (Sequence.onPrepare s w).2
  = (prepareNested (running_order s w) (Sequence.self s)
       (if Sequence.shuffle s
        then set_rng (random_shuffle (Sequence.random s) (Sequence.content s) (rng w)).2
                     (emit call_shuffle w)
        else w)).2.
Proof.
  unfold Sequence.onPrepare, running_order. destruct (Sequence.shuffle s).
  - destruct (random_shuffle _ _ _) as [c r]. cbn [fst snd]. by destruct (prepareNested _ _ _).
  - by destruct (prepareNested _ _ _).
Qed.

(** X2.  [Sequence.onPrepare] shuffles first and prepares afterwards: the
    cursor walks the content in the order the randomness service
    returned, and the children get their identifiers by their position
    in that order, not by their configured position.  The service is
    asked once when a shuffle is requested and not at all otherwise. *)
Theorem X2_sequence_prepares_in_running_order (s : Sequence.t) (w : world) :
  lawful_shuffle (Sequence.random s) →
  NoDup (Sequence.content s) →
  Sequence.self s ∉ Sequence.content s →
  Sequence.content (Sequence.onPrepare s w).1.2 = running_order s w ∧
  running_order s w ≡ₚ Sequence.content s ∧
  Sequence.iterator (Sequence.onPrepare s w).1.2 = Some (entries (running_order s w)) ∧
  (∀ i c, running_order s w !! i = Some c →
     parent_of (Sequence.onPrepare s w).2 c = Some (Sequence.self s) ∧
     id_of (Sequence.onPrepare s w).2 c = Some (child_id (id_of w (Sequence.self s)) i)) ∧
  log (Sequence.onPrepare s w).2
  = log w ++ (if Sequence.shuffle s then [call_shuffle] else [])
          ++ ((λ c, write_parent c (Sequence.self s)) <$> running_order s w)
          ++ imap (λ i c, write_id c (child_id (id_of w (Sequence.self s)) i)) (running_order s w)
          ++ ((λ c, call_prepare c false) <$> running_order s w) ∧
  rng (Sequence.onPrepare s w).2
  = (if Sequence.shuffle s
     then (random_shuffle (Sequence.random s) (Sequence.content s) (rng w)).2
     else rng w).
Proof.
  intros Hlaw Hnd Hself.
  assert (Hperm : running_order s w ≡ₚ Sequence.content s).
  { unfold running_order. destruct (Sequence.shuffle s); [apply Hlaw|done]. }
  assert (Hnd' : NoDup (running_order s w)) by by rewrite Hperm.
  assert (Hself' : Sequence.self s ∉ running_order s w) by by rewrite Hperm.
  assert (Hcontent : Sequence.content (Sequence.onPrepare s w).1.2 = running_order s w)
    by apply Sequence_onPrepare_content.
  destruct (Sequence_onPrepare_shape s w) as (_ & Hit & _). cbn zeta in Hit.
  rewrite Hcontent in Hit.
  rewrite Sequence_onPrepare_world.
  set (w1 := if Sequence.shuffle s then _ else w).
  assert (Hget1 : ∀ h, get w1 h = get w h) by (intros h; unfold w1; by destruct (Sequence.shuffle s)).
  assert (Hid1 : id_of w1 (Sequence.self s) = id_of w (Sequence.self s))
    by (unfold id_of; by rewrite Hget1).
  destruct (prepareNested_effects (running_order s w) (Sequence.self s) w1 Hself')
    as (Hlog & Hparent & Hid & _).
  destruct (prepareNested_frame (running_order s w) (Sequence.self s) w1) as (_ & _ & Hrng).
  rewrite Hid1 in Hlog, Hid.
  split; [done|]. split; [done|]. split; [done|]. split; [|split].
  - intros i c Hc. split.
    + apply Hparent. apply list_elem_of_lookup. by exists i.
    + apply Hid; [done|]. intros j Hj Hjc.
      assert (i = j) by (by eapply NoDup_lookup). lia.
  - rewrite Hlog. unfold w1. destruct (Sequence.shuffle s); cbn [log set_rng emit app].
    + by rewrite <- app_assoc.
    + done.
  - rewrite Hrng. unfold w1. by destruct (Sequence.shuffle s).
Qed.

Lemma X2_sequence_prepares_in_running_order_witness :
  lawful_shuffle (Sequence.random shuffled_sequence) ∧
  NoDup (Sequence.content shuffled_sequence) ∧
  (Sequence.self shuffled_sequence ∉ Sequence.content shuffled_sequence) ∧
  running_order shuffled_sequence empty_world = [3; 2; 1] ∧
  id_of (Sequence.onPrepare shuffled_sequence empty_world).2 <$> [3; 2; 1]
  = [Some "0"; Some "1"; Some "2"].
Proof.
  assert (Hnd : NoDup (Sequence.content shuffled_sequence))
    by (apply (bool_decide_unpack _); by vm_compute).
  assert (Hself : Sequence.self shuffled_sequence ∉ Sequence.content shuffled_sequence)
    by (apply (bool_decide_unpack _); by vm_compute).
  destruct (X2_sequence_prepares_in_running_order shuffled_sequence empty_world
              fixed_random_lawful Hnd Hself) as (_ & _ & _ & Hids & _).
  destruct (Hids 0 3 eq_refl) as [_ H0]. destruct (Hids 1 2 eq_refl) as [_ H1].
  destruct (Hids 2 1 eq_refl) as [_ H2].
  split; [exact fixed_random_lawful|]. split; [exact Hnd|]. split; [exact Hself|].
  split; [reflexivity|]. cbn [fmap list_fmap]. rewrite H0, H1, H2. by vm_compute.
Defined.

Lemma all_rejects (ps : list promise) (T : nat) (e : string) :
  Promise.all ps = Some (T, Rejected e) ↔
  Some (T, Rejected e) ∈ ps ∧
  (∀ t' e', Some (t', Rejected e') ∈ ps → T ≤ t') ∧
  Promise.earliest (Promise.rejections ps) = Some (T, e).
Proof.
  unfold Promise.all.
  destruct (Promise.earliest (Promise.rejections ps)) as [[t0 e0]|] eqn:He.
  - pose proof (earliest_Some _ _ _ He) as [Hin Hmin]. split.
    + intros [= -> ->]. split; [by apply elem_of_rejections|]. split; [|done].
      intros t' e' Hin'. apply (Hmin t' e'). by apply elem_of_rejections.
    + by intros (_ & _ & [= -> ->]).
  - split; [|by intros (_ & _ & ?)].
    by destruct (Promise.all_settled_at ps).
Qed.

Lemma all_settled_at_None (ps : list promise) :
  Promise.all_settled_at ps = None ↔ None ∈ ps.
Proof.
  induction ps as [|p ps IH]; cbn [Promise.all_settled_at].
  - split; [done|by intros ?%elem_of_nil].
  - rewrite elem_of_cons. destruct p as [[t o]|].
    + destruct (Promise.all_settled_at ps) as [m|].
      * split; [done|]. intros [?|Hin]; [done|]. by apply IH in Hin.
      * split; [|done]. intros _. right. by apply IH.
    + split; [by left|done].
Qed.

Lemma all_pending (ps : list promise) :
  Promise.all ps = None ↔ (∀ t e, Some (t, Rejected e) ∉ ps) ∧ None ∈ ps.
Proof.
  unfold Promise.all.
  destruct (Promise.earliest (Promise.rejections ps)) as [[t0 e0]|] eqn:He.
  - apply earliest_Some in He as [Hin%elem_of_rejections _]. split; [done|].
    intros [Hno _]. by destruct (Hno t0 e0).
  - apply earliest_None in He. rewrite <- all_settled_at_None.
    destruct (Promise.all_settled_at ps) as [m|]; cbn; split; try done.
    + by intros [_ ?].
    + intros _. split; [|done]. intros t e Hin%elem_of_rejections.
      rewrite He in Hin. by apply elem_of_nil in Hin.
Qed.

(** X3.  The future of [Sequence.onPrepare] settles as the preparation of
    the children does.  It fulfils exactly when every child's [prepare]
    fulfils, at the tick of the last one (at once when there are no
    children); it rejects exactly when some child's [prepare] rejects,
    with the earliest rejection and at its tick, without waiting for the
    other children; it stays pending exactly when no child rejects and
    some child never settles. *)
Theorem X3_sequence_prepare_future (s : Sequence.t) (w : world) :
  ∃ p : promise,
    (Sequence.onPrepare s w).1.1 = ret_promise p ∧
    (∀ T, p = Some (T, Fulfilled) ↔
       (∀ c, c ∈ running_order s w →
          ∃ t, prepare_future (c_task (get w c)) = Some (t, Fulfilled) ∧ t ≤ T) ∧
       (running_order s w = [] ∧ T = 0 ∨
        ∃ c, c ∈ running_order s w ∧ prepare_future (c_task (get w c)) = Some (T, Fulfilled))) ∧
    (∀ T e, p = Some (T, Rejected e) →
       (∃ c, c ∈ running_order s w ∧ prepare_future (c_task (get w c)) = Some (T, Rejected e)) ∧
       (∀ c t' e', c ∈ running_order s w →
          prepare_future (c_task (get w c)) = Some (t', Rejected e') → T ≤ t')) ∧
    (∀ c t e, c ∈ running_order s w → prepare_future (c_task (get w c)) = Some (t, Rejected e) →
       ∃ T e', p = Some (T, Rejected e') ∧ T ≤ t) ∧
    (p = None ↔
       (∀ c t e, c ∈ running_order s w →
          prepare_future (c_task (get w c)) ≠ Some (t, Rejected e)) ∧
       (∃ c, c ∈ running_order s w ∧ prepare_future (c_task (get w c)) = None)).
Proof.
  eexists. split; [apply Sequence_onPrepare_future|].
  rewrite Sequence_onPrepare_content. fold (running_order s w).
  set (fut := λ c, prepare_future (c_task (get w c))).
  split; [|split; [|split]].
  - intros T. rewrite all_fulfils. split.
    + intros [Hall Hmax]. split.
      * intros c Hc. apply (Hall (fut c)). apply list_elem_of_fmap. by exists c.
      * destruct Hmax as [[Hnil ->]|Hin].
        -- left. split; [|done]. by apply fmap_nil_inv in Hnil.
        -- right. apply list_elem_of_fmap in Hin as (c & Hc & Hin). by exists c.
    + intros [Hall Hmax]. split.
      * intros p (c & -> & Hc)%list_elem_of_fmap. by apply Hall.
      * destruct Hmax as [[-> ->]|(c & Hc & Hf)]; [by left|right].
        apply list_elem_of_fmap. exists c. by rewrite <- Hf.
  - intros T e (Hin & Hmin & _)%all_rejects. split.
    + apply list_elem_of_fmap in Hin as (c & Hc & Hin). by exists c.
    + intros c t' e' Hc Hf. apply (Hmin t' e'). apply list_elem_of_fmap. exists c.
      by rewrite <- Hf.
  - intros c t e Hc Hf.
    destruct (all_fail_fast (fut <$> running_order s w) t e) as (T & e' & Hall & _ & Hle & _).
    { apply list_elem_of_fmap. exists c. by rewrite <- Hf. }
    by exists T, e'.
  - rewrite all_pending. split.
    + intros [Hno Hnone]. split.
      * intros c t e Hc Hf. apply (Hno t e). apply list_elem_of_fmap. exists c.
        by rewrite <- Hf.
      * apply list_elem_of_fmap in Hnone as (c & Hc & Hin). by exists c.
    + intros [Hno (c & Hc & Hf)]. split.
      * intros t e (c' & Hc' & Hin')%list_elem_of_fmap. by apply (Hno c' t e).
      * apply list_elem_of_fmap. exists c. by rewrite <- Hf.
Qed.

(** ** [prepareNested] on unusual lists *)

Lemma prepare_calls_app c l1 l2 :
  prepare_calls c (l1 ++ l2) = prepare_calls c l1 + prepare_calls c l2.
Proof. unfold prepare_calls. by rewrite filter_app, length_app. Qed.

Lemma prepare_calls_none c (l : list action) :
  (∀ a, a ∈ l → a ≠ call_prepare c false) → prepare_calls c l = 0.
Proof.
  unfold prepare_calls. induction l as [|a l IH]; intros Hl; [done|].
  rewrite filter_cons_False.
  - apply IH. intros a' Ha'. apply Hl. by apply list_elem_of_further.
  - apply Hl, list_elem_of_here.
Qed.

Lemma prepare_calls_prepares c (l : list handle) :
  prepare_calls c ((λ x, call_prepare x false) <$> l) = occurrences c l.
Proof.
  unfold prepare_calls, occurrences. induction l as [|x l IH]; [done|].
  cbn [fmap list_fmap]. destruct (decide (x = c)) as [->|Hne].
  - rewrite !filter_cons_True by done. cbn [length]. by f_equal.
  - rewrite !filter_cons_False; [done|done|]. by intros [= ?].
Qed.

(** X4.  [prepareNested] on a list that names a child more than once (and
    does not name the parent): the child's parent link is set, its
    identifier is the one of its last position in the list, and its
    [prepare] is called once for every time it is listed. *)
Theorem X4_repeated_child (nested : list handle) (parent c : handle) (j : nat) (w : world) :
  parent ∉ nested →
  nested !! j = Some c →
  (∀ k, j < k → nested !! k ≠ Some c) →
  parent_of (prepareNested nested parent w).2 c = Some parent ∧
  id_of (prepareNested nested parent w).2 c = Some (child_id (id_of w parent) j) ∧
  prepare_calls c (log (prepareNested nested parent w).2)
  = prepare_calls c (log w) + occurrences c nested.
Proof.
  intros Hpar Hj Hlast.
  destruct (prepareNested_effects nested parent w Hpar) as (Hlog & Hparent & Hid & _).
  split; [|split].
  - apply Hparent. apply list_elem_of_lookup. by exists j.
  - by apply Hid.
  - rewrite Hlog. rewrite !prepare_calls_app, prepare_calls_prepares.
    rewrite (prepare_calls_none c (_ <$> nested)).
    + rewrite (prepare_calls_none c (imap _ nested)); [lia|].
      intros a (i & x & -> & _)%elem_of_lookup_imap. done.
    + intros a (x & -> & _)%list_elem_of_fmap. done.
Qed.

Lemma X4_repeated_child_witness :
  (0 ∉ [1; 2; 1]) ∧
  [1; 2; 1] !! 2 = Some 1 ∧
  id_of (prepareNested [1; 2; 1] 0 empty_world).2 1 = Some "2" ∧
  prepare_calls 1 (log (prepareNested [1; 2; 1] 0 empty_world).2) = 2.
Proof.
  assert (Hpar : 0 ∉ [1; 2; 1]) by (apply (bool_decide_unpack _); by vm_compute).
  assert (Hlast : ∀ k, 2 < k → [1; 2; 1] !! k ≠ Some 1).
  { intros k Hk. rewrite lookup_ge_None_2; [done|]. cbn. lia. }
  destruct (X4_repeated_child [1; 2; 1] 0 1 2 empty_world Hpar eq_refl Hlast)
    as (_ & Hid & Hcalls).
  split; [exact Hpar|]. split; [reflexivity|]. split.
  - rewrite Hid. by vm_compute.
  - rewrite Hcalls. reflexivity.
Defined.

Lemma component_ext (c c' : component) :
  rest_of c = rest_of c' → c_parent c = c_parent c' → c_id c = c_id c' → c = c'.
Proof.
  destruct c, c'. unfold rest_of, with_id, with_parent. cbn. intros [= -> -> -> -> ->] -> ->.
  done.
Qed.

Lemma last_occurrence (h : handle) (l : list handle) :
  h ∈ l → ∃ j, l !! j = Some h ∧ ∀ k, j < k → l !! k ≠ Some h.
Proof.
  induction l as [|x l IH]; [by intros ?%elem_of_nil|].
  intros Hin. destruct (decide (h ∈ l)) as [Hl|Hl].
  - destruct (IH Hl) as (j & Hj & Hlast). exists (S j). split; [done|].
    intros [|k] Hk; [lia|]. cbn. apply Hlast. lia.
  - apply elem_of_cons in Hin as [->|?]; [|done]. exists 0. split; [done|].
    intros [|k] Hk; [lia|]. cbn. intros Hk'. apply Hl, list_elem_of_lookup. by exists k.
Qed.

(** X5.  Preparing the same children of the same parent a second time
    changes no component: parent links and identifiers are a function of
    the parent's identifier and of the positions in the list, so they are
    written again with the values they have.  Only the calls are
    repeated. *)
Theorem X5_prepareNested_again (nested : list handle) (parent : handle) (w : world) :
  parent ∉ nested →
  (∀ h, get (prepareNested nested parent (prepareNested nested parent w).2).2 h
        = get (prepareNested nested parent w).2 h) ∧
  bags (prepareNested nested parent (prepareNested nested parent w).2).2 = bags w ∧
  log (prepareNested nested parent (prepareNested nested parent w).2).2
  = log (prepareNested nested parent w).2
      ++ ((λ c, write_parent c parent) <$> nested)
      ++ imap (λ i c, write_id c (child_id (id_of w parent) i)) nested
      ++ ((λ c, call_prepare c false) <$> nested).
Proof.
  intros Hpar.
  set (w1 := (prepareNested nested parent w).2).
  destruct (prepareNested_effects nested parent w Hpar) as (_ & Hparent1 & Hid1 & Hother1).
  destruct (prepareNested_effects nested parent w1 Hpar) as (Hlog2 & Hparent2 & Hid2 & Hother2).
  destruct (prepareNested_frame nested parent w) as (Hrest1 & Hbags1 & _).
  destruct (prepareNested_frame nested parent w1) as (Hrest2 & Hbags2 & _).
  fold w1 in Hparent1, Hid1, Hother1, Hrest1, Hbags1.
  assert (Hpid : id_of w1 parent = id_of w parent).
  { unfold id_of. by rewrite Hother1. }
  rewrite Hpid in Hlog2, Hid2.
  split; [|split; [by rewrite Hbags2|done]].
  intros h. destruct (decide (h ∈ nested)) as [Hin|Hnin].
  - apply component_ext.
    + apply Hrest2.
    + fold (parent_of (prepareNested nested parent w1).2 h). fold (parent_of w1 h).
      by rewrite Hparent1, Hparent2.
    + destruct (last_occurrence h nested Hin) as (j & Hj & Hlast).
      fold (id_of (prepareNested nested parent w1).2 h). fold (id_of w1 h).
      by rewrite (Hid1 j h Hj Hlast), (Hid2 j h Hj Hlast).
  - by apply Hother2.
Qed.

Lemma X5_prepareNested_again_witness :
  (0 ∉ [1; 2; 3]) ∧
  get (prepareNested [1; 2; 3] 0 (prepareNested [1; 2; 3] 0 named_world).2).2 2
  = get (prepareNested [1; 2; 3] 0 named_world).2 2 ∧
  id_of (prepareNested [1; 2; 3] 0 (prepareNested [1; 2; 3] 0 named_world).2).2 2 = Some "P_1".
Proof.
  assert (Hpar : 0 ∉ [1; 2; 3]) by (apply (bool_decide_unpack _); by vm_compute).
  destruct (X5_prepareNested_again [1; 2; 3] 0 named_world Hpar) as (Hget & _).
  split; [exact Hpar|]. split; [exact (Hget 2)|].
  unfold id_of. rewrite (Hget 2). by vm_compute.
Defined.

(** X6.  Identifiers are hierarchical.  When a child [c] at position [i]
    of a parent [P] is itself prepared as the parent of a list of
    children, the child at position [j] of [c] is named by the
    identifier of [c], an underscore and [j], that is ["i_j"] under a
    parent without identifier and ["<identifier of P>_i_j"] otherwise;
    [c] keeps its own identifier. *)
Theorem X6_hierarchical_ids (nested grand : list handle) (P c : handle) (i : nat) (w : world) :
  NoDup nested →
  P ∉ nested →
  nested !! i = Some c →
  NoDup grand →
  c ∉ grand →
  id_of (prepareNested grand c (prepareNested nested P w).2).2 c
  = Some (child_id (id_of w P) i) ∧
  (∀ j g, grand !! j = Some g →
     parent_of (prepareNested grand c (prepareNested nested P w).2).2 g = Some c ∧
     id_of (prepareNested grand c (prepareNested nested P w).2).2 g
     = Some (child_id (Some (child_id (id_of w P) i)) j)).
Proof.
  intros Hnd HP Hi Hndg Hc.
  set (w1 := (prepareNested nested P w).2).
  destruct (prepareNested_effects nested P w HP) as (_ & _ & Hid1 & _).
  destruct (prepareNested_effects grand c w1 Hc) as (_ & Hparent2 & Hid2 & Hother2).
  assert (Hcid : id_of w1 c = Some (child_id (id_of w P) i)).
  { apply Hid1; [done|]. intros k Hk Hkc.
    pose proof (NoDup_lookup nested i k c Hnd Hi Hkc). lia. }
  rewrite Hcid in Hid2.
  split.
  - unfold id_of. rewrite Hother2 by done. exact Hcid.
  - intros j g Hg. split.
    + apply Hparent2. apply list_elem_of_lookup. by exists j.
    + apply Hid2; [done|]. intros k Hk Hkg.
      pose proof (NoDup_lookup grand j k g Hndg Hg Hkg). lia.
Qed.

Lemma X6_hierarchical_ids_witness :
  NoDup [1; 2] ∧ (0 ∉ [1; 2]) ∧ [1; 2] !! 1 = Some 2 ∧ NoDup [5; 6] ∧ (2 ∉ [5; 6]) ∧
  id_of (prepareNested [5; 6] 2 (prepareNested [1; 2] 0 named_world).2).2 <$> [2; 5; 6]
  = [Some "P_1"; Some "P_1_0"; Some "P_1_1"] ∧
  id_of (prepareNested [5; 6] 2 (prepareNested [1; 2] 0 empty_world).2).2 <$> [2; 5; 6]
  = [Some "1"; Some "1_0"; Some "1_1"].
Proof.
  assert (Hnd : NoDup [1; 2]) by (apply (bool_decide_unpack _); by vm_compute).
  assert (HP : 0 ∉ [1; 2]) by (apply (bool_decide_unpack _); by vm_compute).
  assert (Hndg : NoDup [5; 6]) by (apply (bool_decide_unpack _); by vm_compute).
  assert (Hc : 2 ∉ [5; 6]) by (apply (bool_decide_unpack _); by vm_compute).
  destruct (X6_hierarchical_ids [1; 2] [5; 6] 0 2 1 named_world Hnd HP eq_refl Hndg Hc)
    as (Hn & Hng).
  destruct (X6_hierarchical_ids [1; 2] [5; 6] 0 2 1 empty_world Hnd HP eq_refl Hndg Hc)
    as (Hr & Hrg).
  destruct (Hng 0 5 eq_refl) as [_ Hn0]. destruct (Hng 1 6 eq_refl) as [_ Hn1].
  destruct (Hrg 0 5 eq_refl) as [_ Hr0]. destruct (Hrg 1 6 eq_refl) as [_ Hr1].
  split; [exact Hnd|]. split; [exact HP|]. split; [reflexivity|]. split; [exact Hndg|].
  split; [exact Hc|]. cbn [fmap list_fmap].
  rewrite Hn, Hn0, Hn1, Hr, Hr0, Hr1. split; by vm_compute.
Defined.

(** ** A loop that samples *)

Lemma map_world_length {A B} (f : A → world → B * world) (xs : list A) (w : world) :
  length (map_world f xs w).1 = length xs.
Proof.
  revert w. induction xs as [|x xs IH]; intros w; cbn [map_world]; [done|].
  destruct (f x w) as [y w1]. specialize (IH w1).
  destruct (map_world f xs w1) as [ys w2]. cbn [fst length] in *. by rewrite IH.
Qed.

Lemma mapi_world_length {A B} (f : A → nat → world → B * world) (i : nat) (xs : list A)
    (w : world) :
  length (mapi_world f i xs w).1 = length xs.
Proof.
  revert i w. induction xs as [|x xs IH]; intros i w; cbn [mapi_world]; [done|].
  destruct (f x i w) as [y w1]. specialize (IH (S i) w1).
  destruct (mapi_world f (S i) xs w1) as [ys w2]. cbn [fst length] in *. by rewrite IH.
Qed.

Lemma Loop_generate_length (l : Loop.t) (ps : list handle) (w : world) :
  match Loop.template l with
  | Invalid _ => Loop.content (Loop.generate l ps w).1 = Loop.content l
  | _ => length (Loop.content (Loop.generate l ps w).1) = length ps
  end.
Proof.
  unfold Loop.generate. destruct (Loop.template l) as [t|f|v]; [| |done].
  - pose proof (map_world_length (Loop.instantiate t) ps w) as Hlen.
    by destruct (map_world _ ps w).
  - pose proof (mapi_world_length
      (λ p i w0, f p i (Loop.self l) (emit (call_template p i (Loop.self l)) w0)) 0 ps w) as Hlen.
    by destruct (mapi_world _ 0 ps w).
Qed.

(** The content of a prepared loop, with or without a sample. *)
Lemma Loop_onPrepare_running_order (l : Loop.t) (w : world) :
  Loop.content (Loop.onPrepare l w).1.2
  = running_order
      (Loop.base (Loop.generate l (Loop.effective_parameters l w).1
                    (Loop.effective_parameters l w).2).1)
      (Loop.generate l (Loop.effective_parameters l w).1 (Loop.effective_parameters l w).2).2.
Proof.
  unfold Loop.onPrepare. destruct (Loop.effective_parameters l w) as [ps w1]. cbn [fst snd].
  destruct (Loop.generate l ps w1) as [l1 w2]. cbn [fst snd].
  pose proof (Sequence_onPrepare_content (Loop.base l1) w2) as Hc.
  destruct (Sequence.onPrepare (Loop.base l1) w2) as [[r s] w3]. cbn [fst snd] in *.
  unfold Loop.content at 1. cbn [Loop.base Loop.with_base]. by rewrite Hc.
Qed.

(** X7.  A loop with a truthy sample count: the randomness service is
    asked once, for [(templateParameters, n, replace)], before anything
    is generated, and no component is touched by that; the content is
    then generated from the records the service returned, so the prepared
    loop has one entry per sampled record, however many records are
    configured.  With an invalid template the sample is still drawn, and
    the content stays as configured. *)
Theorem X7_loop_iterates_over_sample (l : Loop.t) (w : world) :
  truthy (sample_n (Loop.sample l)) = true →
  lawful_shuffle (Sequence.random (Loop.base l)) →
  (Loop.effective_parameters l w).1 = sampled l w ∧
  log (Loop.effective_parameters l w).2
  = log w ++ [call_sample (sample_n (Loop.sample l)) (sample_replace (Loop.sample l))] ∧
  comps (Loop.effective_parameters l w).2 = comps w ∧
  rng (Loop.effective_parameters l w).2
  = (random_sample (Sequence.random (Loop.base l)) (Loop.templateParameters l)
       (sample_n (Loop.sample l)) (sample_replace (Loop.sample l)) (rng w)).2 ∧
  match Loop.template l with
  | Invalid _ => Loop.content (Loop.onPrepare l w).1.2 ≡ₚ Loop.content l
  | _ => length (Loop.content (Loop.onPrepare l w).1.2) = length (sampled l w)
  end.
Proof.
  intros Ht Hlaw.
  assert (Heff : Loop.effective_parameters l w
                 = (sampled l w,
                    set_rng (random_sample (Sequence.random (Loop.base l))
                               (Loop.templateParameters l) (sample_n (Loop.sample l))
                               (sample_replace (Loop.sample l)) (rng w)).2
                      (emit (call_sample (sample_n (Loop.sample l))
                                         (sample_replace (Loop.sample l))) w))).
  { unfold Loop.effective_parameters, sampled. rewrite Ht.
    by destruct (random_sample _ _ _ _ _). }
  rewrite Loop_onPrepare_running_order, Heff. cbn [fst snd].
  split; [done|]. split; [done|]. split; [done|]. split; [done|].
  set (w1 := set_rng _ _).
  pose proof (Loop_generate_length l (sampled l w) w1) as Hlen.
  pose proof (Loop_generate_base l (sampled l w) w1) as Hbase.
  assert (Hperm : running_order (Loop.base (Loop.generate l (sampled l w) w1).1)
                    (Loop.generate l (sampled l w) w1).2
                  ≡ₚ Loop.content (Loop.generate l (sampled l w) w1).1).
  { unfold running_order. rewrite Hbase. cbn [Loop.base Loop.with_content Sequence.shuffle
      Sequence.random Sequence.content].
    destruct (Sequence.shuffle (Loop.base l)); [apply Hlaw|done]. }
  destruct (Loop.template l) as [t|f|v].
  - by rewrite Hperm.
  - by rewrite Hperm.
  - by rewrite Hperm, Hlen.
Qed.

Lemma X7_loop_iterates_over_sample_witness :
  truthy (sample_n (Loop.sample sampling_loop)) = true ∧
  lawful_shuffle (Sequence.random (Loop.base sampling_loop)) ∧
  length (Loop.templateParameters sampling_loop) = 3 ∧
  sampled sampling_loop empty_world = [10] ∧
  length (Loop.content (Loop.onPrepare sampling_loop empty_world).1.2) = 1.
Proof.
  destruct (X7_loop_iterates_over_sample sampling_loop empty_world eq_refl fixed_random_lawful)
    as (_ & _ & _ & _ & Hlen).
  split; [reflexivity|]. split; [exact fixed_random_lawful|]. split; [reflexivity|].
  split; [reflexivity|]. exact Hlen.
Defined.

(** ** Running a parallel *)

(** X8.  A parallel without children.  In mode [all] (and [allSettled])
    the watcher of [onRun] calls [this.end()] at once: at every tick
    after [onRun] the parallel is done and [end] has been called on it,
    once and without a reason.  In mode [race], which is the
    constructor's default, and in mode [any] the watcher is never
    called: the store stays as it was, so such a parallel does not end
    by itself.  The future that [onRun] returns fulfils at once, [onRun]
    and [onEnd] call nothing, and while the parallel is not done its
    progress is not a number. *)
Theorem X8_parallel_without_children (p : Parallel.t) (ts : jsval) (w : world) :
  Parallel.content p = [] →
  (Parallel.onRun p ts w).1.2
  = match Parallel.mode p with
    | mode_all | mode_allSettled => Some 0
    | mode_race | mode_any => None
    end ∧
  (∀ T, match Parallel.mode p with
        | mode_all | mode_allSettled =>
            log (Parallel.at_tick p ts T w)
            = log w ++ [call_end (Parallel.self p) JSundefined JSundefined] ∧
            status_of (Parallel.at_tick p ts T w) (Parallel.self p) = done
        | mode_race | mode_any => Parallel.at_tick p ts T w = w
        end) ∧
  (Parallel.onRun p ts w).1.1 = ret_promise (Some (0, Fulfilled)) ∧
  log (Parallel.onRun p ts w).2 = log w ∧
  Parallel.onEnd p w = w ∧
  (status_of w (Parallel.self p) ≠ done → Parallel.progress p w = NaN) ∧
  (∀ self, Parallel.content (Parallel.new self no_options) = [] ∧
           Parallel.mode (Parallel.new self no_options) = mode_race).
Proof.
  intros Hnil.
  assert (Hrun : Parallel.onRun p ts w
                 = (ret_promise (Some (0, Fulfilled)),
                    match Parallel.mode p with
                    | mode_all | mode_allSettled => Some 0
                    | mode_race | mode_any => None
                    end, w)).
  { unfold Parallel.onRun. rewrite Hnil. cbn [map_world]. by destruct (Parallel.mode p). }
  split; [by rewrite Hrun|]. split.
  { intros T. rewrite at_tick_unfold, Hrun. cbn [fst snd]. rewrite Hnil.
    assert (Hend : ∀ w0, Parallel.onEnd p w0 = w0).
    { intros w0. unfold Parallel.onEnd. by rewrite Hnil. }
    destruct (watcher_effects p w) as (Hlog & Hdone & _).
    destruct (Parallel.mode p); cbn [forEach forEachi]; try done.
    - rewrite decide_True by lia. by rewrite Hend.
    - rewrite decide_True by lia. by rewrite Hend. }
  split; [by rewrite Hrun|]. split; [by rewrite Hrun|].
  unfold Parallel.onEnd, Parallel.progress. rewrite Hnil.
  cbn [fmap list_fmap forEach forEachi].
  split; [done|]. split; [|done].
  intros Hnd. by rewrite decide_False.
Qed.

Lemma X8_parallel_without_children_witness :
  Parallel.content bare_parallel = [] ∧
  (Parallel.onRun bare_parallel (JSnum 0) empty_world).1.2 = None ∧
  Parallel.at_tick bare_parallel (JSnum 0) 1000 empty_world = empty_world ∧
  (Parallel.onRun bare_parallel (JSnum 0) empty_world).1.1 = ret_promise (Some (0, Fulfilled)).
Proof.
  destruct (X8_parallel_without_children bare_parallel (JSnum 0) empty_world eq_refl)
    as (Hwatch & Htime & Hfuture & _).
  split; [reflexivity|]. split; [exact Hwatch|]. split; [exact (Htime 1000)|exact Hfuture].
Defined.

(** X9.  [Parallel.onRun] subscribes to the [end] event of every child
    before it runs the first one, then runs every child, each once and in
    content order, and calls nothing else.  The future it returns is
    made of the futures of the children's [run] calls alone: it fulfils
    when all of them have, rejects as soon as one of them does, and does
    not depend on when the children end; the tick at which the watcher
    ends the parallel depends on the children's [end] events alone. *)
Theorem X9_parallel_run (p : Parallel.t) (ts : jsval) (w : world) :
  log (Parallel.onRun p ts w).2
  = log w ++ ((λ c, call_waitFor c "end") <$> Parallel.content p)
          ++ ((λ c, call_run c ts JSundefined) <$> Parallel.content p) ∧
  (Parallel.onRun p ts w).1.1
  = ret_promise (Promise.all ((λ c, run_future (c_task (get w c))) <$> Parallel.content p)) ∧
  (∀ c t e, c ∈ Parallel.content p → run_future (c_task (get w c)) = Some (t, Rejected e) →
     ∃ t' e', (Parallel.onRun p ts w).1.1 = ret_promise (Some (t', Rejected e')) ∧ t' ≤ t) ∧
  (∀ w', (∀ c, c ∈ Parallel.content p →
            run_future (c_task (get w' c)) = run_future (c_task (get w c))) →
         (Parallel.onRun p ts w').1.1 = (Parallel.onRun p ts w).1.1) ∧
  (∀ w', (∀ c, c ∈ Parallel.content p → ends_at w' c = ends_at w c) →
         (Parallel.onRun p ts w').1.2 = (Parallel.onRun p ts w).1.2).
Proof.
  assert (Hfuture : ∀ w0, (Parallel.onRun p ts w0).1.1
            = ret_promise (Promise.all ((λ c, run_future (c_task (get w0 c)))
                                          <$> Parallel.content p))).
  { intros w0. unfold Parallel.onRun. rewrite map_world_waitFor.
    destruct (map_world_run ts JSundefined (Parallel.content p)
                {| comps := comps w0; bags := bags w0;
                   log := log w0 ++ ((λ c, call_waitFor c "end") <$> Parallel.content p);
                   rng := rng w0 |}) as (Hres & _).
    destruct (map_world (λ c, Core.run c ts JSundefined) _ _) as [runs w2].
    cbn [fst snd] in *. by rewrite Hres. }
  split; [apply Parallel_onRun_log|].
  split; [apply Hfuture|]. split; [|split].
  - intros c t e Hc Hrej. rewrite Hfuture.
    destruct (all_fail_fast ((λ c, run_future (c_task (get w c))) <$> Parallel.content p) t e)
      as (t' & e' & Hall & _ & Hle & _).
    { apply list_elem_of_fmap. exists c. by rewrite Hrej. }
    exists t', e'. by rewrite Hall.
  - intros w' Hsame. rewrite !Hfuture. do 2 f_equal.
    apply list_fmap_ext. intros i c Hc. apply Hsame. apply list_elem_of_lookup. by exists i.
  - intros w' Hsame. rewrite !Parallel_onRun_watch. do 2 f_equal.
    apply list_fmap_ext. intros i c Hc. f_equal. apply Hsame.
    apply list_elem_of_lookup. by exists i.
Qed.

(** ** Progress of a container *)

Lemma mean_unit_interval (xs : list jsnumber) :
  xs ≠ [] → Forall unit_interval xs → unit_interval (Lodash.mean xs).
Proof.
  intros Hne (qs & -> & Hqs)%unit_interval_rationals.
  destruct qs as [|q qs]; [done|]. rewrite mean_Num.
  destruct (float_total_bounds (q :: qs) Hqs) as [H0 H1].
  destruct (Qcdiv_unit (float_total (q :: qs)) (Qc_of_nat (length (q :: qs))))
    as [Hd0 Hd1]; [apply Qc_of_nat_pos|done|done|].
  eexists. split; [done|]. split.
  - by apply round_nonneg.
  - rewrite <- round_1. by apply round_le.
Qed.

(** X10.  Progress stays in range through nesting: over children that
    report a progress between 0 and 1, a sequence or a parallel that is
    done or has at least one child reports a progress between 0 and 1
    itself. *)
Theorem X10_progress_in_range (s : Sequence.t) (p : Parallel.t) (w : world) :
  Forall (λ c, unit_interval (Core.progress w c)) (Sequence.content s ++ Parallel.content p) →
  (status_of w (Sequence.self s) = done ∨ Sequence.content s ≠ [] →
     unit_interval (Sequence.progress s w)) ∧
  (status_of w (Parallel.self p) = done ∨ Parallel.content p ≠ [] →
     unit_interval (Parallel.progress p w)).
Proof.
  intros [Hs Hp]%Forall_app.
  assert (Hone : unit_interval (Num 1%Qc)).
  { exists 1%Qc. split; [done|]. split; [by apply Qclt_le_weak|apply Qcle_refl]. }
  assert (Hgen : ∀ st cs, Forall (λ c, unit_interval (Core.progress w c)) cs →
            st = done ∨ cs ≠ [] →
            unit_interval (if decide (st = done) then Num 1%Qc
                           else Lodash.mean (Core.progress w <$> cs))).
  { intros st cs Hcs Hor. destruct (decide (st = done)) as [|Hnd]; [done|].
    destruct Hor as [?|Hne]; [done|]. apply mean_unit_interval.
    - by destruct cs.
    - by apply Forall_fmap. }
  split; intros Hor; by apply Hgen.
Qed.

Lemma X10_progress_in_range_witness :
  Forall (λ c, unit_interval (Core.progress lone_running.2 c))
         (Sequence.content lone_running.1 ++ Parallel.content (trio mode_all)) ∧
  Sequence.content lone_running.1 ≠ [] ∧
  unit_interval (Sequence.progress lone_running.1 lone_running.2).
Proof.
  assert (Hzero : unit_interval (Num 0%Qc)).
  { exists 0%Qc. split; [done|]. split; [apply Qcle_refl|by apply Qclt_le_weak]. }
  assert (Hall : Forall (λ c, unit_interval (Core.progress lone_running.2 c))
                        (Sequence.content lone_running.1 ++ Parallel.content (trio mode_all))).
  { change (Sequence.content lone_running.1 ++ Parallel.content (trio mode_all))
      with [1; 1; 2; 3].
    repeat constructor; exact Hzero. }
  destruct (X10_progress_in_range lone_running.1 (trio mode_all) lone_running.2 Hall)
    as [Hseq _].
  assert (Hne : Sequence.content lone_running.1 ≠ []) by done.
  split; [exact Hall|]. split; [exact Hne|]. apply Hseq. by right.
Defined.

Lemma progress_counts (w : world) (st : status) (cs : list handle) :
  Forall (λ c, status_of w c ≠ done → c_partial (get w c) = Num 0%Qc) cs →
  st ≠ done → cs ≠ [] → (Z.of_nat (length cs) ≤ 2 ^ 53)%Z →
  (if decide (st = done) then Num 1%Qc else Lodash.mean (Core.progress w <$> cs))
  = Num (Double.round (Qc_of_nat (finished w cs) / Qc_of_nat (length cs))%Qc).
Proof.
  intros Hleaf Hnd Hne Hlen. rewrite decide_False by done.
  set (bs := (λ c, bool_decide (status_of w c = done)) <$> cs).
  assert (Hprog : Core.progress w <$> cs
                  = Num <$> ((λ b : bool, if b then 1%Qc else 0%Qc) <$> bs)).
  { unfold bs. rewrite <- !list_fmap_compose. apply Forall_fmap_ext_1.
    eapply Forall_impl; [exact Hleaf|]. intros c Hc. unfold Core.progress. cbn.
    destruct (decide (status_of w c = done)) as [Hd|Hd].
    - by rewrite bool_decide_true.
    - rewrite bool_decide_false by done. by apply Hc. }
  assert (Hcount : length (filter (λ b, b = true) bs) = finished w cs).
  { unfold bs, finished. clear. induction cs as [|c cs IH]; [done|].
    cbn [fmap list_fmap]. destruct (decide (status_of w c = done)) as [Hd|Hd].
    - rewrite bool_decide_true by done. rewrite !filter_cons_True by done.
      cbn [length]. by rewrite IH.
    - rewrite bool_decide_false by done. by rewrite !filter_cons_False. }
  assert (Hbs : length bs = length cs) by (unfold bs; by rewrite length_fmap).
  rewrite Hprog.
  destruct ((λ b : bool, if b then 1%Qc else 0%Qc) <$> bs) as [|q qs] eqn:Hqs.
  { apply fmap_nil_inv in Hqs. destruct cs; [done|]. by rewrite Hqs in Hbs. }
  rewrite mean_Num, <- Hqs. unfold float_total.
  change 0%Qc with (Qc_of_nat 0).
  rewrite float_sum_indicator by (cbn [Nat.add]; lia).
  cbn [Nat.add]. by rewrite Hcount, length_fmap, Hbs.
Qed.

(** X11.  Over children that report 0 until they are done (as plain
    tasks do), the progress of a sequence or of a parallel that is not
    done and has children, at most [2^53] of them, is the number of its
    children that are done divided by the number of its children, as a
    double: the quotient rounded to the nearest double. *)
Theorem X11_progress_counts_finished (s : Sequence.t) (p : Parallel.t) (w : world) :
  Forall (λ c, status_of w c ≠ done → c_partial (get w c) = Num 0%Qc)
         (Sequence.content s ++ Parallel.content p) →
  (status_of w (Sequence.self s) ≠ done → Sequence.content s ≠ [] →
   (Z.of_nat (length (Sequence.content s)) ≤ 2 ^ 53)%Z →
     Sequence.progress s w
     = Num (Double.round (Qc_of_nat (finished w (Sequence.content s))
                          / Qc_of_nat (length (Sequence.content s)))%Qc)) ∧
  (status_of w (Parallel.self p) ≠ done → Parallel.content p ≠ [] →
   (Z.of_nat (length (Parallel.content p)) ≤ 2 ^ 53)%Z →
     Parallel.progress p w
     = Num (Double.round (Qc_of_nat (finished w (Parallel.content p))
                          / Qc_of_nat (length (Parallel.content p)))%Qc)).
Proof.
  intros [Hs Hp]%Forall_app. split; intros Hnd Hne Hlen.
  - by apply progress_counts.
  - by apply progress_counts.
Qed.

Lemma X11_progress_counts_finished_witness :
  Forall (λ c, status_of trio_second_ended c ≠ done →
               c_partial (get trio_second_ended c) = Num 0%Qc)
         (Sequence.content pair_sequence ++ Parallel.content (trio mode_all)) ∧
  Parallel.progress (trio mode_all) trio_second_ended
  = Num (Q2Qc (6004799503160661 # 18014398509481984)) ∧
  Sequence.progress pair_sequence trio_second_ended = Num (Q2Qc (1 # 2)).
Proof.
  assert (Hleaf : Forall (λ c, status_of trio_second_ended c ≠ done →
                               c_partial (get trio_second_ended c) = Num 0%Qc)
                         (Sequence.content pair_sequence ++ Parallel.content (trio mode_all))).
  { change (Sequence.content pair_sequence ++ Parallel.content (trio mode_all))
      with [1; 2; 1; 2; 3].
    repeat constructor; intros _; by vm_compute. }
  destruct (X11_progress_counts_finished pair_sequence (trio mode_all) trio_second_ended Hleaf)
    as [Hseq Hpar].
  split; [exact Hleaf|]. split.
  - rewrite Hpar; [|by vm_compute|done|by vm_compute].
    f_equal; by apply Qc_is_canon.
  - rewrite Hseq; [|by vm_compute|done|by vm_compute].
    f_equal; by apply Qc_is_canon.
Defined.

(** ** A loop over a prototype, prepared *)

Lemma Loop_onPrepare_world (l : Loop.t) (w : world) :
  (Loop.onPrepare l w).2
  = (Sequence.onPrepare
       (Loop.base (Loop.generate l (Loop.effective_parameters l w).1
                     (Loop.effective_parameters l w).2).1)
       (Loop.generate l (Loop.effective_parameters l w).1 (Loop.effective_parameters l w).2).2).2.
Proof.
  unfold Loop.onPrepare. destruct (Loop.effective_parameters l w) as [ps w1]. cbn [fst snd].
  destruct (Loop.generate l ps w1) as [l1 w2]. cbn [fst snd].
  by destruct (Sequence.onPrepare (Loop.base l1) w2) as [[r s] w3].
Qed.



Lemma instantiate_log (t p : handle) (w : world) :
  ∃ c b, log (Loop.instantiate t p w).2 = log w ++ [call_clone t; write_parameters c b].
Proof.
  eexists _, _. unfold Loop.instantiate, Core.clone, set_parameters, put_bag, upd, emit.
  cbn [snd log]. by rewrite <- app_assoc.
Qed.




(** ** The randomness service in a loop *)

Lemma random_calls_app (l1 l2 : list action) :
  random_calls (l1 ++ l2) = random_calls l1 ++ random_calls l2.
Proof. unfold random_calls. apply filter_app. Qed.

Lemma random_calls_none (l : list action) :
  (∀ a, a ∈ l → is_random_call a = false) → random_calls l = [].
Proof.
  unfold random_calls. induction l as [|a l IH]; intros Hl; [done|].
  rewrite filter_cons_False.
  - apply IH. intros a' Ha'. apply Hl. by apply list_elem_of_further.
  - rewrite (Hl a) by apply list_elem_of_here. done.
Qed.

Lemma forEachi_random_calls (f : handle → nat → world → world) (xs : list handle) :
  (∀ x j w, random_calls (log (f x j w)) = random_calls (log w)) →
  ∀ k w, random_calls (log (forEachi f k xs w)) = random_calls (log w).
Proof.
  intros Hf. induction xs as [|x xs IH]; intros k w; cbn [forEachi]; [done|].
  by rewrite IH, Hf.
Qed.

Lemma prepareNested_random_calls (nested : list handle) (parent : handle) (w : world) :
  random_calls (log (prepareNested nested parent w).2) = random_calls (log w).
Proof.
  unfold prepareNested, forEach. rewrite map_world_prepare. cbn [snd log].
  rewrite random_calls_app, (random_calls_none (_ <$> nested)).
  2:{ intros a (c & -> & _)%list_elem_of_fmap. done. }
  rewrite app_nil_r, !forEachi_random_calls; [done| |].
  - intros x j w0. unfold set_parent. by rewrite log_emit, log_upd, random_calls_app, app_nil_r.
  - intros x j w0. destruct (id_of w0 parent); unfold set_id;
      by rewrite log_emit, log_upd, random_calls_app, app_nil_r.
Qed.

Lemma instantiate_rng (t p : handle) (w : world) : rng (Loop.instantiate t p w).2 = rng w.
Proof. reflexivity. Qed.

Lemma map_instantiate_random (t : handle) (ps : list handle) (w : world) :
  random_calls (log (map_world (Loop.instantiate t) ps w).2) = random_calls (log w) ∧
  rng (map_world (Loop.instantiate t) ps w).2 = rng w.
Proof.
  revert w. induction ps as [|p ps IH]; intros w; cbn [map_world]; [done|].
  assert (Hstep : random_calls (log (Loop.instantiate t p w).2) = random_calls (log w)).
  { destruct (instantiate_log t p w) as (c0 & b & ->).
    by rewrite random_calls_app, app_nil_r. }
  pose proof (instantiate_rng t p w) as Hrng.
  destruct (Loop.instantiate t p w) as [c0 w1]. destruct (IH w1) as [IH1 IH2].
  destruct (map_world (Loop.instantiate t) ps w1) as [cs w2]. cbn [fst snd] in *.
  split; congruence.
Qed.

(** Generating the content from a prototype, or failing to generate it,
    does not involve the randomness service. *)
Lemma Loop_generate_random (l : Loop.t) (ps : list handle) (w : world) :
  (∀ f, Loop.template l ≠ Factory f) →
  random_calls (log (Loop.generate l ps w).2) = random_calls (log w) ∧
  rng (Loop.generate l ps w).2 = rng w.
Proof.
  intros Hnf. unfold Loop.generate. destruct (Loop.template l) as [t|f|v].
  - pose proof (map_instantiate_random t ps w) as H.
    by destruct (map_world (Loop.instantiate t) ps w).
  - by destruct (Hnf f).
  - cbn [snd]. by rewrite log_emit, random_calls_app, app_nil_r.
Qed.

(** X14.  The calls of the randomness service in [Loop.onPrepare], for a
    loop whose template is not a function: at most two, the sample (when
    the count is truthy) always before the shuffle (when one is
    requested).  The state of the service is threaded through them: the
    sample starts from the state before the call, the shuffle acts on
    the generated content and starts from the state the sample left;
    cloning, naming and preparing the children leave the state alone. *)
Theorem X14_loop_randomness (l : Loop.t) (w : world) :
  (∀ f, Loop.template l ≠ Factory f) →
  random_calls (log (Loop.onPrepare l w).2)
  = random_calls (log w)
      ++ (if truthy (sample_n (Loop.sample l))
          then [call_sample (sample_n (Loop.sample l)) (sample_replace (Loop.sample l))]
          else [])
      ++ (if Sequence.shuffle (Loop.base l) then [call_shuffle] else []) ∧
  rng (Loop.effective_parameters l w).2
  = (if truthy (sample_n (Loop.sample l))
     then (random_sample (Sequence.random (Loop.base l)) (Loop.templateParameters l)
             (sample_n (Loop.sample l)) (sample_replace (Loop.sample l)) (rng w)).2
     else rng w) ∧
  rng (Loop.onPrepare l w).2
  = (if Sequence.shuffle (Loop.base l)
     then (random_shuffle (Sequence.random (Loop.base l))
             (Loop.content (Loop.generate l (Loop.effective_parameters l w).1
                              (Loop.effective_parameters l w).2).1)
             (rng (Loop.effective_parameters l w).2)).2
     else rng (Loop.effective_parameters l w).2).
Proof.
  intros Hnf.
  assert (Heff : random_calls (log (Loop.effective_parameters l w).2)
                 = random_calls (log w)
                     ++ (if truthy (sample_n (Loop.sample l))
                         then [call_sample (sample_n (Loop.sample l))
                                           (sample_replace (Loop.sample l))]
                         else []) ∧
                 rng (Loop.effective_parameters l w).2
                 = (if truthy (sample_n (Loop.sample l))
                    then (random_sample (Sequence.random (Loop.base l))
                            (Loop.templateParameters l) (sample_n (Loop.sample l))
                            (sample_replace (Loop.sample l)) (rng w)).2
                    else rng w)).
  { unfold Loop.effective_parameters. destruct (truthy (sample_n (Loop.sample l))).
    - destruct (random_sample _ _ _ _ _) as [ps r]. cbn [snd log rng set_rng emit].
      by rewrite random_calls_app.
    - cbn [snd]. by rewrite app_nil_r. }
  destruct Heff as [Hefflog Heffrng].
  rewrite Loop_onPrepare_world.
  set (ps := (Loop.effective_parameters l w).1) in *.
  set (w1 := (Loop.effective_parameters l w).2) in *.
  destruct (Loop_generate_random l ps w1 Hnf) as [Hgenlog Hgenrng].
  pose proof (Loop_generate_base l ps w1) as Hbase.
  set (l1 := (Loop.generate l ps w1).1) in *.
  set (w2 := (Loop.generate l ps w1).2) in *.
  assert (Hsh : Sequence.shuffle (Loop.base l1) = Sequence.shuffle (Loop.base l))
    by (by rewrite Hbase).
  assert (Hrd : Sequence.random (Loop.base l1) = Sequence.random (Loop.base l))
    by (by rewrite Hbase).
  assert (Hct : Sequence.content (Loop.base l1) = Loop.content l1) by done.
  rewrite Sequence_onPrepare_world.
  destruct (prepareNested_frame (running_order (Loop.base l1) w2) (Sequence.self (Loop.base l1))
    (if Sequence.shuffle (Loop.base l1)
     then set_rng (random_shuffle (Sequence.random (Loop.base l1))
                     (Sequence.content (Loop.base l1)) (rng w2)).2 (emit call_shuffle w2)
     else w2)) as (_ & _ & Hrng).
  rewrite prepareNested_random_calls, Hrng. rewrite Hsh, Hrd, Hct, Hgenrng.
  split; [|split; [done|]].
  - destruct (Sequence.shuffle (Loop.base l)).
    + cbn [log set_rng emit]. by rewrite random_calls_app, Hgenlog, Hefflog, <- app_assoc.
    + by rewrite Hgenlog, Hefflog, !app_nil_r.
  - by destruct (Sequence.shuffle (Loop.base l)).
Qed.

Lemma X14_loop_randomness_witness :
  (∀ f, Loop.template sampling_shuffling_loop ≠ Factory f) ∧
  random_calls (log (Loop.onPrepare sampling_shuffling_loop prototype_world_with_loop).2)
  = [call_sample (JSnum 1) (JSbool false); call_shuffle] ∧
  rng (Loop.onPrepare sampling_shuffling_loop prototype_world_with_loop).2 = 2%N.
Proof.
  assert (Hnf : ∀ f, Loop.template sampling_shuffling_loop ≠ Factory f) by done.
  destruct (X14_loop_randomness sampling_shuffling_loop prototype_world_with_loop Hnf)
    as (Hcalls & Heff & Hrng).
  split; [exact Hnf|]. split.
  - rewrite Hcalls. reflexivity.
  - rewrite Hrng, Heff. reflexivity.
Defined.
